(** * peak.cli.options: declarative command-line options

    A shallow embedding of [src/peak/cli/options.py] together with the
    properties of its option descriptors, per-class option registry and
    parser synthesis.

    Python objects that the module compares by identity (option
    descriptors, groups, list objects held in attributes) are represented
    by addresses into explicit stores, so that sharing is visible.
    Exceptions are an inductive type and fallible code returns [result].
    The two libraries the module is written against, [optparse] and
    [peak.util.addons], are modelled in their own modules below. *)

From stdpp Require Import gmap strings list sorting pretty.
From Stdlib Require Import ZArith Ascii String.

Set Default Proof Using "Type".


(** ** Python primitives used by the module *)

Module Py.

Definition dquote : ascii := ascii_of_nat 34.
Definition squote : ascii := ascii_of_nat 39.
Definition backslash : ascii := ascii_of_nat 92.

(** [s.startswith(p)] *)
Definition startswith (s p : string) : bool := String.prefix p s.

(** The characters removed by [str.strip()]. *)
Definition isspace (c : ascii) : bool :=
  let n := nat_of_ascii c in
  (Nat.eqb n 32 || (Nat.leb 9 n && Nat.leb n 13))%bool.

Fixpoint lstrip (s : string) : string :=
  match s with
  | String c s' => if isspace c then lstrip s' else s
  | EmptyString => EmptyString
  end.

Fixpoint rstrip (s : string) : string :=
  match s with
  | String c s' =>
      match rstrip s' with
      | EmptyString => if isspace c then EmptyString else String c EmptyString
      | r => String c r
      end
  | EmptyString => EmptyString
  end.

(** [s.strip()] *)
Definition strip (s : string) : string := rstrip (lstrip s).

(** [s[n:]] *)
Fixpoint drop (n : nat) (s : string) : string :=
  match n, s with
  | O, _ => s
  | S n', String _ s' => drop n' s'
  | S _, EmptyString => EmptyString
  end.

(** [c in s] for a one-character [c] *)
Fixpoint has_char (c : ascii) (s : string) : bool :=
  match s with
  | String d s' => if Ascii.eqb c d then true else has_char c s'
  | EmptyString => false
  end.

(** [sub in s] *)
Fixpoint contains (sub s : string) : bool :=
  if String.prefix sub s then true
  else match s with
       | String _ s' => contains sub s'
       | EmptyString => false
       end.

(** [sep.join(l)] *)
Fixpoint join (sep : string) (l : list string) : string :=
  match l with
  | [] => ""
  | [x] => x
  | x :: l' => x +:+ sep +:+ join sep l'
  end.

Definition upper_char (c : ascii) : ascii :=
  let n := nat_of_ascii c in
  if (Nat.leb 97 n && Nat.leb n 122)%bool then ascii_of_nat (n - 32) else c.

(** [s.upper()] *)
Fixpoint upper (s : string) : string :=
  match s with
  | String c s' => String (upper_char c) (upper s')
  | EmptyString => EmptyString
  end.

Definition hexdigit (n : nat) : ascii :=
  if Nat.ltb n 10 then ascii_of_nat (48 + n) else ascii_of_nat (87 + n).

Definition repr_char (quote c : ascii) : string :=
  let n := nat_of_ascii c in
  if (Ascii.eqb c quote || Ascii.eqb c backslash)%bool
  then String backslash (String c "")
  else if Nat.eqb n 9 then String backslash "t"
  else if Nat.eqb n 10 then String backslash "n"
  else if Nat.eqb n 13 then String backslash "r"
  else if (Nat.ltb n 32 || Nat.leb 127 n)%bool
  then String backslash
         (String "x" (String (hexdigit (n / 16)) (String (hexdigit (n mod 16)) "")))
  else String c "".

Fixpoint repr_body (quote : ascii) (s : string) : string :=
  match s with
  | String c s' => repr_char quote c +:+ repr_body quote s'
  | EmptyString => EmptyString
  end.

(** [repr(s)] of a byte string, as produced by the [%r] format. *)
Definition repr (s : string) : string :=
  let quote :=
    if (has_char squote s && negb (has_char dquote s))%bool
    then dquote else squote in
  String quote (repr_body quote s +:+ String quote "").

(** [s.split(sep, 1)] for an [s] known to contain the character [sep]:
    the text before the first [sep] and the text after it. *)
Fixpoint split1 (sep : ascii) (s : string) : string * string :=
  match s with
  | String c s' =>
      if Ascii.eqb c sep then ("", s')
      else let '(a, b) := split1 sep s' in (String c a, b)
  | EmptyString => ("", "")
  end.

Definition is_digit (c : ascii) : bool :=
  let n := nat_of_ascii c in (Nat.leb 48 n && Nat.leb n 57)%bool.

Fixpoint digits_value (acc : Z) (s : string) : option Z :=
  match s with
  | String c s' =>
      if is_digit c
      then digits_value (10 * acc + Z.of_nat (nat_of_ascii c - 48))%Z s'
      else None
  | EmptyString => Some acc
  end.

(** The decimal literal accepted by [int(s)]: optional surrounding
    whitespace, an optional sign, at least one digit. *)
Definition parse_int (s : string) : option Z :=
  match strip s with
  | String "-" (String c r) => Z.opp <$> digits_value 0%Z (String c r)
  | String "+" (String c r) => digits_value 0%Z (String c r)
  | String c r => digits_value 0%Z (String c r)
  | EmptyString => None
  end.

Definition lower_char (c : ascii) : ascii :=
  let n := nat_of_ascii c in
  if (Nat.leb 65 n && Nat.leb n 90)%bool then ascii_of_nat (n + 32) else c.

(** [s.lower()] *)
Fixpoint lower (s : string) : string :=
  match s with
  | String c s' => String (lower_char c) (lower s')
  | EmptyString => EmptyString
  end.

(** The newline character as a string. *)
Definition nl : string := String (ascii_of_nat 10) "".

(** [" " * n] *)
Fixpoint spaces (n : nat) : string :=
  match n with
  | O => ""
  | S n' => String " " (spaces n')
  end.

(** [s.ljust(w)], the [%-*s] format *)
Definition ljust (w : nat) (s : string) : string :=
  s +:+ spaces (w - String.length s).

(** [s.replace(old, new)] for a non-empty [old]; [skip] counts the
    characters of a matched occurrence that are still to be passed. *)
Fixpoint replace_from (skip : nat) (old new s : string) : string :=
  match s with
  | EmptyString => EmptyString
  | String c s' =>
      match skip with
      | S k => replace_from k old new s'
      | O =>
          if String.prefix old s
          then new +:+ replace_from (String.length old - 1) old new s'
          else String c (replace_from 0 old new s')
      end
  end.

Definition replace (old new s : string) : string := replace_from 0 old new s.

(** [repr(t)] of a tuple of strings *)
Definition repr_tuple (l : list string) : string :=
  "(" +:+ join ", " (map repr l) +:+
  (if Nat.eqb (List.length l) 1 then "," else "") +:+ ")".

End Py.

(** ** Exceptions and fallible results *)

Inductive exn : Type :=
| TypeError (msg : string)
| ValueError (msg : string)
| AttributeError (msg : string)
| InvocationError (msg : string)
| SystemExit (status : Z)
| OptionError (msg : string)
| OptionConflictError (msg : string)
| BadOptionError (msg : string)
| UnboundLocalError (msg : string)
| IndexError (msg : string).

Inductive result (A : Type) : Type :=
| Ok (a : A)
| Raise (e : exn).
Arguments Ok {A} a.
Arguments Raise {A} e.

Global Instance result_ret : MRet result := λ A a, Ok a.
Global Instance result_bind : MBind result := λ A B k r,
  match r with
  | Ok a => k a
  | Raise e => Raise e
  end.

Global Instance result_fmap : FMap result := λ A B f r,
  match r with
  | Ok a => Ok (f a)
  | Raise e => Raise e
  end.

(** ** Values, addresses and the counter *)

(** Addresses of option descriptors, of groups and of list objects. *)
Definition ref := nat.
Definition gref := nat.
Definition loc := nat.

(** The Python values that reach attributes of a target object.  A list
    is a mutable object, so the value is its address. *)
Inductive pyval : Type :=
| VNone
| VBool (b : bool)
| VInt (n : Z)
| VStr (s : string)
| VList (l : loc).

(** The argument value the scanner hands to a callback: [None] for an
    option without argument, a string for one argument, a tuple for
    several. *)
Inductive raw : Type :=
| RawNone
| RawStr (s : string)
| RawTuple (l : list string).

Definition raw_type_name (v : raw) : string :=
  match v with
  | RawNone => "NoneType"
  | RawStr _ => "str"
  | RawTuple _ => "tuple"
  end.

(** A callable used as [type=]: the outcome of reading its [__name__],
    which a callable object need not have, and its action on the
    argument value. *)
Record pytype : Type := {
  tp_name : result string;
  tp_call : raw → result pyval
}.

Definition py_str : pytype :=
  {| tp_name := Ok "str";
     tp_call := λ v,
       match v with
       | RawNone => Ok (VStr "None")
       | RawStr s => Ok (VStr s)
       | RawTuple l => Ok (VStr (Py.repr_tuple l))
       end |}.

Definition py_int : pytype :=
  {| tp_name := Ok "int";
     tp_call := λ v,
       match v with
       | RawStr s =>
           match Py.parse_int s with
           | Some n => Ok (VInt n)
           | None => Raise (ValueError
               ("invalid literal for int() with base 10: " +:+ Py.repr s))
           end
       | _ => Raise (TypeError
               ("int() argument must be a string or a number, not '" +:+
                raw_type_name v +:+ "'"))
       end |}.

(** The test [x is NOT_GIVEN] on a field whose absent value is [None]. *)
Definition is_NOT_GIVEN {A} (x : option A) : bool :=
  match x with None => true | Some _ => false end.

(** [_gen_key]: increments the module counter [_optcount] and returns
    it.  The second component is the new counter. *)
Definition _gen_key (_optcount : nat) : nat * nat :=
  let _optcount := S _optcount in (_optcount, _optcount).

(** ** The parser and target state during one scan

    [values] is the attribute view of the target object, [heap] holds the
    list objects it refers to; [rargs], [largs] and [use_counts] are
    attributes of the parser instance ([use_counts] is [None] until
    [check_repeat] creates it); [stdout] collects what is printed. *)

Record pstate : Type := {
  values : gmap string pyval;
  heap : gmap loc (list pyval);
  rargs : list string;
  largs : list string;
  use_counts : option (gmap ref nat);
  stdout : list string
}.

Definition set_values (f : gmap string pyval → gmap string pyval)
    (st : pstate) : pstate :=
  {| values := f (values st); heap := heap st; rargs := rargs st;
     largs := largs st; use_counts := use_counts st; stdout := stdout st |}.

Definition set_heap (f : gmap loc (list pyval) → gmap loc (list pyval))
    (st : pstate) : pstate :=
  {| values := values st; heap := f (heap st); rargs := rargs st;
     largs := largs st; use_counts := use_counts st; stdout := stdout st |}.

Definition set_rargs (f : list string → list string) (st : pstate) : pstate :=
  {| values := values st; heap := heap st; rargs := f (rargs st);
     largs := largs st; use_counts := use_counts st; stdout := stdout st |}.

Definition set_largs (f : list string → list string) (st : pstate) : pstate :=
  {| values := values st; heap := heap st; rargs := rargs st;
     largs := f (largs st); use_counts := use_counts st; stdout := stdout st |}.

Definition set_use_counts (c : option (gmap ref nat)) (st : pstate) : pstate :=
  {| values := values st; heap := heap st; rargs := rargs st;
     largs := largs st; use_counts := c; stdout := stdout st |}.

Definition print (s : string) (st : pstate) : pstate :=
  {| values := values st; heap := heap st; rargs := rargs st;
     largs := largs st; use_counts := use_counts st;
     stdout := stdout st ++ [s] |}.

(** Computations that read and change the state and may raise; the
    state reached when an exception is raised is kept. *)
Definition M (A : Type) : Type := pstate → result A * pstate.

Global Instance M_ret : MRet M := λ A a st, (Ok a, st).
Global Instance M_bind : MBind M := λ A B k m st,
  match m st with
  | (Ok a, st') => k a st'
  | (Raise e, st') => (Raise e, st')
  end.

Definition raise {A} (e : exn) : M A := λ st, (Raise e, st).
Definition get : M pstate := λ st, (Ok st, st).
Definition modify (f : pstate → pstate) : M unit := λ st, (Ok tt, f st).
Definition lift {A} (r : result A) : M A := λ st, (r, st).

(** ** The scanning library [optparse]

    The parts of [optparse] that [peak.cli.options] drives: option
    objects, option groups, the parser with its shared option-string
    tables, help formatting by [IndentedHelpFormatter], and the argument
    scan.  Help and description texts are laid out without re-wrapping
    long lines and without [%default] expansion; the other keyword
    arguments of [OptionParser] ([version], [formatter], [epilog],
    [conflict_handler], [option_list]) stay at their defaults. *)

Module Option.

Inductive action_t : Type := callback_action | help_action.

Record t : Type := {
  _short_opts : list string;
  _long_opts : list string;
  action : action_t;
  type : option string;
  dest : option string;
  nargs : nat;
  metavar : option string;
  help : option string;
  callback : option ref;          (* the descriptor whose [callback] it is *)
  callback_args : option string   (* the single element of the tuple *)
}.

(** [_set_opt_strings]: sort the option strings into short and long. *)
Fixpoint _set_opt_strings (opts short long : list string)
    : result (list string * list string) :=
  match opts with
  | [] => Ok (short, long)
  | opt :: opts' =>
      match opt with
      | String a (String b EmptyString) =>
          if (Ascii.eqb a "-" && negb (Ascii.eqb b "-"))%bool
          then _set_opt_strings opts' (short ++ [opt]) long
          else Raise (OptionError
                 ("invalid short option string " +:+ Py.repr opt +:+
                  ": must be of the form -x, (x any non-dash char)"))
      | String a (String b (String c _)) =>
          if (Ascii.eqb a "-" && Ascii.eqb b "-" && negb (Ascii.eqb c "-"))%bool
          then _set_opt_strings opts' short (long ++ [opt])
          else Raise (OptionError
                 ("invalid long option string " +:+ Py.repr opt +:+
                  ": must start with --, followed by non-dash"))
      | _ => Raise (OptionError
                 ("invalid option string " +:+ Py.repr opt +:+
                  ": must be at least two characters long"))
      end
  end.

(** [_check_dest]: an option that takes a value and has no [dest] gets
    one from its first long or short option string. *)
Definition _check_dest (short long : list string) (type : option string)
    : option string :=
  match type with
  | None => None
  | Some _ =>
      match long, short with
      | l :: _, _ => Some (Py.replace "-" "_" (Py.drop 2 l))
      | [], s :: _ => Some (String.substring 1 1 s)
      | [], [] => None
      end
  end.

(** The constructor [Option], which is also [make_option], applied to
    the option strings [opts] and the keyword attributes. *)
Definition __init__ (opts : list string) (action : action_t)
    (type : option string) (nargs : nat) (metavar help : option string)
    (callback : option ref) (callback_args : option string) : result t :=
  let opts := List.filter (λ opt, negb (String.eqb opt "")) opts in
  match opts with
  | [] => Raise (TypeError "at least one option string must be supplied")
  | _ =>
      '(short, long) ← _set_opt_strings opts [] [];
      match action, callback with
      | callback_action, None =>
          Raise (OptionError "callback not callable: None")
      | help_action, Some _ =>
          Raise (OptionError "callback supplied for non-callback option")
      | _, _ =>
          Ok {| _short_opts := short; _long_opts := long; action := action;
                type := type; dest := _check_dest short long type;
                nargs := nargs; metavar := metavar; help := help;
                callback := callback; callback_args := callback_args |}
      end
  end.

(** [str(option)] *)
Definition __str__ (self : t) : string :=
  Py.join "/" (_short_opts self ++ _long_opts self).

Definition takes_value (self : t) : bool :=
  match type self with Some _ => true | None => false end.

(** All option strings of the option. *)
Definition opt_strings (self : t) : list string :=
  _short_opts self ++ _long_opts self.

End Option.

Module OptionGroup.

Record t : Type := {
  title : string;
  description : option string;
  option_list : list Option.t
}.

Definition __init__ (title : string) (description : option string) : t :=
  {| title := title; description := description; option_list := [] |}.

End OptionGroup.

Module HelpFormatter.

(** [IndentedHelpFormatter()] with no [COLUMNS] in the environment. *)
Definition width : nat := 78.
Definition indent_increment : nat := 2.
Definition max_help_position : nat := 24.

Definition truthy (s : option string) : bool :=
  match s with
  | Some (String _ _) => true
  | _ => false
  end.

Definition format_option_strings (option : Option.t) : string :=
  let '(short_opts, long_opts) :=
    if Option.takes_value option then
      let metavar :=
        if truthy (Option.metavar option)
        then default "" (Option.metavar option)
        else Py.upper (default "" (Option.dest option)) in
      (map (λ sopt, sopt +:+ " " +:+ metavar) (Option._short_opts option),
       map (λ lopt, lopt +:+ "=" +:+ metavar) (Option._long_opts option))
    else (Option._short_opts option, Option._long_opts option) in
  Py.join ", " (short_opts ++ long_opts).

Definition format_heading (current_indent : nat) (heading : string) : string :=
  Py.spaces current_indent +:+ heading +:+ ":" +:+ Py.nl.

Definition format_usage (usage : string) : string :=
  "Usage: " +:+ usage +:+ Py.nl.

(** [format_description] for a description that fits on one line of
    the width; optparse fills a longer one over several lines, which is
    not modelled. *)
Definition format_description (current_indent : nat)
    (description : option string) : string :=
  if truthy description
  then Py.spaces current_indent +:+ default "" description +:+ Py.nl
  else "".

(** [format_option] for a help text that fits on one line of the help
    column and does not mention [%default]; optparse wraps a longer
    text over several lines, which is not modelled. *)
Definition format_option (help_position current_indent : nat)
    (option : Option.t) : string :=
  let opts := format_option_strings option in
  let opt_width := help_position - current_indent - 2 in
  let wide := Nat.ltb opt_width (String.length opts) in
  let opts :=
    if wide then Py.spaces current_indent +:+ opts +:+ Py.nl
    else Py.spaces current_indent +:+ Py.ljust opt_width opts +:+ "  " in
  let indent_first := if wide then help_position else 0 in
  if truthy (Option.help option)
  then opts +:+ Py.spaces indent_first +:+ default "" (Option.help option)
            +:+ Py.nl
  else if wide then opts else opts +:+ Py.nl.

(** [store_option_strings]: the column at which help texts start. *)
Definition help_position (option_list : list Option.t)
    (option_groups : list OptionGroup.t) : nat :=
  let len_at (indent : nat) (max_len : nat) (opt : Option.t) :=
    Nat.max max_len (String.length (format_option_strings opt) + indent) in
  let max_len := foldl (len_at indent_increment) 0 option_list in
  let max_len :=
    foldl (λ m g, foldl (len_at (2 * indent_increment)) m
                        (OptionGroup.option_list g))
          max_len option_groups in
  Nat.min (max_len + 2) max_help_position.

(** [OptionContainer.format_option_help] *)
Definition container_option_help (help_position current_indent : nat)
    (option_list : list Option.t) : string :=
  foldr (λ option rest,
           format_option help_position current_indent option +:+ rest)
        "" option_list.

(** [OptionGroup.format_help] *)
Definition group_help (help_position : nat) (g : OptionGroup.t) : string :=
  let result := format_heading indent_increment (OptionGroup.title g) in
  let current_indent := 2 * indent_increment in
  let parts :=
    (if truthy (OptionGroup.description g)
     then [format_description current_indent (OptionGroup.description g)]
     else []) ++
    (match OptionGroup.option_list g with
     | [] => []
     | l => [container_option_help help_position current_indent l]
     end) in
  result +:+ Py.join Py.nl parts.

End HelpFormatter.

Module OptionParser.

Record t : Type := {
  usage : string;
  prog : string;
  description : option string;
  allow_interspersed_args : bool;
  option_list : list Option.t;
  option_groups : list OptionGroup.t;
  _short_opt : gmap string Option.t;
  _long_opt : gmap string Option.t;
  exit : Z → option string → result unit
}.

Definition set_option_list (l : list Option.t) (self : t) : t :=
  {| usage := usage self; prog := prog self; description := description self;
     allow_interspersed_args := allow_interspersed_args self;
     option_list := l; option_groups := option_groups self;
     _short_opt := _short_opt self; _long_opt := _long_opt self;
     exit := exit self |}.

Definition set_option_groups (l : list OptionGroup.t) (self : t) : t :=
  {| usage := usage self; prog := prog self; description := description self;
     allow_interspersed_args := allow_interspersed_args self;
     option_list := option_list self; option_groups := l;
     _short_opt := _short_opt self; _long_opt := _long_opt self;
     exit := exit self |}.

Definition set_opt_maps (s l : gmap string Option.t) (self : t) : t :=
  {| usage := usage self; prog := prog self; description := description self;
     allow_interspersed_args := allow_interspersed_args self;
     option_list := option_list self; option_groups := option_groups self;
     _short_opt := s; _long_opt := l; exit := exit self |}.

Definition set_exit (f : Z → option string → result unit) (self : t) : t :=
  {| usage := usage self; prog := prog self; description := description self;
     allow_interspersed_args := allow_interspersed_args self;
     option_list := option_list self; option_groups := option_groups self;
     _short_opt := _short_opt self; _long_opt := _long_opt self;
     exit := f |}.

Definition disable_interspersed_args (self : t) : t :=
  {| usage := usage self; prog := prog self; description := description self;
     allow_interspersed_args := false;
     option_list := option_list self; option_groups := option_groups self;
     _short_opt := _short_opt self; _long_opt := _long_opt self;
     exit := exit self |}.

(** [_check_conflict] with the default conflict handler. *)
Definition _check_conflict (self : t) (option : Option.t) : result unit :=
  let conflict_opts :=
    List.filter (λ opt, bool_decide (is_Some (_short_opt self !! opt)))
                (Option._short_opts option) ++
    List.filter (λ opt, bool_decide (is_Some (_long_opt self !! opt)))
                (Option._long_opts option) in
  match conflict_opts with
  | [] => Ok tt
  | _ => Raise (OptionConflictError
           ("conflicting option string(s): " +:+ Py.join ", " conflict_opts))
  end.

(** The part of [add_option] that a parser and its groups share: the
    conflict check and the entry of every option string in the parser's
    tables (a group uses the tables of its parser). *)
Definition _enter (self : t) (option : Option.t) : result t :=
  _ ← _check_conflict self option;
  Ok (set_opt_maps
        (foldl (λ m opt, <[opt := option]> m) (_short_opt self)
               (Option._short_opts option))
        (foldl (λ m opt, <[opt := option]> m) (_long_opt self)
               (Option._long_opts option))
        self).

(** [parser.add_option(option)] *)
Definition add_option (self : t) (option : Option.t) : result t :=
  self ← _enter self option;
  Ok (set_option_list (option_list self ++ [option]) self).

(** [group.add_option(option)] for a group of the parser [self] *)
Definition group_add_option (self : t) (group : OptionGroup.t)
    (option : Option.t) : result (t * OptionGroup.t) :=
  self ← _enter self option;
  Ok (self,
      {| OptionGroup.title := OptionGroup.title group;
         OptionGroup.description := OptionGroup.description group;
         OptionGroup.option_list :=
           OptionGroup.option_list group ++ [option] |}).

(** [parser.add_option_group(group)] *)
Definition add_option_group (self : t) (group : OptionGroup.t) : t :=
  set_option_groups (option_groups self ++ [group]) self.

(** [set_usage] for a string argument *)
Definition set_usage (usage : string) : string :=
  if Py.startswith (Py.lower usage) "usage: " then Py.drop 7 usage else usage.

(** The library's own [exit]: leave the process. *)
Definition default_exit (status : Z) (msg : option string) : result unit :=
  Raise (SystemExit status).

(** [OptionParser(usage=, prog=, description=, add_help_option=)] *)
Definition __init__ (usage prog : string) (description : option string)
    (add_help_option : bool) : result t :=
  let self :=
    {| usage := set_usage usage; prog := prog; description := description;
       allow_interspersed_args := true; option_list := [];
       option_groups := []; _short_opt := ∅; _long_opt := ∅;
       exit := default_exit |} in
  if add_help_option then
    option ← Option.__init__ ["-h"; "--help"] Option.help_action None 0
               None (Some "show this help message and exit") None None;
    add_option self option
  else Ok self.

Definition expand_prog_name (self : t) (s : string) : string :=
  Py.replace "%prog" (prog self) s.

Definition get_usage (self : t) : string :=
  match usage self with
  | EmptyString => ""
  | u => HelpFormatter.format_usage (expand_prog_name self u)
  end.

Definition format_option_help (self : t) : string :=
  let pos := HelpFormatter.help_position (option_list self) (option_groups self) in
  let result :=
    [HelpFormatter.format_heading 0 "Options"] ++
    (match option_list self with
     | [] => []
     | l => [HelpFormatter.container_option_help pos
               HelpFormatter.indent_increment l; Py.nl]
     end) ++
    flat_map (λ g, [HelpFormatter.group_help pos g; Py.nl]) (option_groups self) in
  foldr String.append "" (removelast result).

Definition format_help (self : t) : string :=
  (match usage self with
   | EmptyString => ""
   | _ => get_usage self +:+ Py.nl
   end) +:+
  (if HelpFormatter.truthy (description self)
   then HelpFormatter.format_description 0
          (expand_prog_name self <$> description self) +:+ Py.nl
   else "") +:+
  format_option_help self.

(** All options of the parser, its own and those of its groups. *)
Definition all_options (self : t) : list Option.t :=
  option_list self ++ flat_map OptionGroup.option_list (option_groups self).

(** *** The scan *)

(** [_match_abbrev]: the key of [wordmap] that [s] is, or unambiguously
    abbreviates. *)
Definition _match_abbrev (s : string) (wordmap : gmap string Option.t)
    : result string :=
  if bool_decide (is_Some (wordmap !! s)) then Ok s
  else
    let possibilities :=
      List.filter (λ word, Py.startswith word s) (map_to_list wordmap).*1 in
    match possibilities with
    | [word] => Ok word
    | [] => Raise (BadOptionError ("no such option: " +:+ s))
    | _ => Raise (BadOptionError
             ("ambiguous option: " +:+ s +:+ " (" +:+
              Py.join ", " (merge_sort (λ a b, Is_true (String.leb a b))
                                       possibilities) +:+ "?)"))
    end.

Section scan.

(** [invoke d option opt value attrname] is the call
    [callback(option, opt, value, parser, attrname)] of the descriptor at
    address [d]. *)
Variable invoke : ref → Option.t → string → raw → option string → M unit.

Variable self : t.

(** [error(msg)]: report through [exit] with status 2. *)
Definition error (msg : string) : M unit :=
  lift (exit self 2 (Some (prog self +:+ ": error: " +:+ msg +:+ Py.nl))).

Definition print_help : M unit := modify (print (format_help self)).

(** [option.process(opt, value, values, parser)]; values of type
    ["string"] pass unchanged through [convert_value]. *)
Definition process (option : Option.t) (opt : string) (value : raw) : M unit :=
  match Option.action option with
  | Option.callback_action =>
      match Option.callback option with
      | Some d => invoke d option opt value (Option.callback_args option)
      | None => raise (TypeError "'NoneType' object is not callable")
      end
  | Option.help_action =>
      _ ← print_help; lift (exit self 0 None)
  end.

(** The arguments an option that takes a value consumes from [rargs]. *)
Definition take_value (option : Option.t) (opt : string) : M raw :=
  st ← get;
  let nargs := Option.nargs option in
  if Nat.ltb (List.length (rargs st)) nargs then
    _ ← error (if Nat.eqb nargs 1
               then opt +:+ " option requires an argument"
               else opt +:+ " option requires " +:+ pretty nargs +:+
                    " arguments");
    raise (UnboundLocalError
             "local variable 'value' referenced before assignment")
  else if Nat.eqb nargs 1 then
    match rargs st with
    | v :: rest => _ ← modify (set_rargs (λ _, rest)); mret (RawStr v)
    | [] => raise (IndexError "pop from empty list")
    end
  else
    _ ← modify (set_rargs (drop nargs)); mret (RawTuple (take nargs (rargs st))).

Definition _process_long_opt : M unit :=
  st ← get;
  match rargs st with
  | [] => raise (IndexError "pop from empty list")
  | arg :: rest =>
      _ ← modify (set_rargs (λ _, rest));
      '(opt, had_explicit_value) ←
        (if Py.has_char "=" arg then
           let '(opt, next_arg) := Py.split1 "=" arg in
           _ ← modify (set_rargs (λ r, next_arg :: r)); mret (opt, true)
         else mret (arg, false));
      opt ← lift (_match_abbrev opt (_long_opt self));
      match _long_opt self !! opt with
      | None => raise (BadOptionError ("no such option: " +:+ opt))
      | Some option =>
          value ←
            (if Option.takes_value option then take_value option opt
             else if had_explicit_value : bool then
               _ ← error (opt +:+ " option does not take a value");
               raise (UnboundLocalError
                        "local variable 'value' referenced before assignment")
             else mret RawNone);
          process option opt value
      end
  end.

(** The loop of [_process_short_opts] over the characters [chars] of
    [arg] from index [i] on. *)
Fixpoint short_opts_loop (arg chars : string) (i : nat) : M unit :=
  match chars with
  | EmptyString => mret tt
  | String ch chars' =>
      let opt := String "-" (String ch "") in
      let i := S i in
      match _short_opt self !! opt with
      | None => raise (BadOptionError ("no such option: " +:+ opt))
      | Some option =>
          if Option.takes_value option then
            stop ←
              (if Nat.ltb i (String.length arg) then
                 _ ← modify (set_rargs (λ r, Py.drop i arg :: r)); mret true
               else mret false);
            value ← take_value option opt;
            _ ← process option opt value;
            if stop : bool then mret tt else short_opts_loop arg chars' i
          else
            _ ← process option opt RawNone;
            short_opts_loop arg chars' i
      end
  end.

Definition _process_short_opts : M unit :=
  st ← get;
  match rargs st with
  | [] => raise (IndexError "pop from empty list")
  | arg :: rest =>
      _ ← modify (set_rargs (λ _, rest));
      short_opts_loop arg (Py.drop 1 arg) 1
  end.

(** [_process_args]: the loop [while rargs].  A callback may put
    arguments back, so the number of turns is bounded by [fuel]; [None]
    means the bound was reached. *)
Fixpoint _process_args (fuel : nat) (st : pstate)
    : option (result unit * pstate) :=
  match fuel with
  | O => None
  | S fuel' =>
      match rargs st with
      | [] => Some (Ok tt, st)
      | arg :: rest =>
          if String.eqb arg "--" then Some (Ok tt, set_rargs (λ _, rest) st)
          else if Py.startswith arg "--" then
            match _process_long_opt st with
            | (Ok _, st') => _process_args fuel' st'
            | (Raise e, st') => Some (Raise e, st')
            end
          else if (Py.startswith arg "-" && Nat.ltb 1 (String.length arg))%bool
          then
            match _process_short_opts st with
            | (Ok _, st') => _process_args fuel' st'
            | (Raise e, st') => Some (Raise e, st')
            end
          else if allow_interspersed_args self then
            _process_args fuel'
              (set_rargs (λ _, rest) (set_largs (λ l, l ++ [arg]) st))
          else Some (Ok tt, st)
      end
  end.

(** [parser.parse_args(args, values)]: [st] carries the target passed as
    [values] and the attributes the parser instance already has. *)
Definition parse_args (fuel : nat) (args : list string) (st : pstate)
    : option (result (list string) * pstate) :=
  let st := set_largs (λ _, []) (set_rargs (λ _, args) st) in
  match _process_args fuel st with
  | None => None
  | Some (Ok _, st') => Some (Ok (largs st' ++ rargs st'), st')
  | Some (Raise (BadOptionError msg), st') =>
      match error msg st' with
      | (Ok _, st'') => Some (Ok (largs st'' ++ rargs st''), st'')
      | (Raise e, st'') => Some (Raise e, st'')
      end
  | Some (Raise e, st') => Some (Raise e, st')
  end.

End scan.

End OptionParser.
(** ** Registries with inheritance along the MRO: [peak.util.addons]

    A registry is a dictionary from option names to pairs
    [(attrname, option)]; the pair [(None, None)] marks a name whose
    inheritance is rejected. *)

Definition entry : Type := option string * option ref.

Module Registry.

(** Modelled from the spec: [addons.Registry.created_for], the method
    that [OptionsRegistry.created_for] extends, belongs to the package
    [peak.util.addons], which is not part of this repository.  It copies the entries of
    the registry of every base class, most general first, so that those
    of more derived classes overwrite, and then applies the entries the
    class declared itself.  [bases] lists the registries of the proper
    ancestors of the class in that order. *)
Definition created_for (self : gmap string entry)
    (bases : list (gmap string entry)) : gmap string entry :=
  let data := foldl (λ data base, base ∪ data) ∅ bases in
  let data := self ∪ data in
  data ∪ self.

(** Modelled from the spec: [addons.Registry.set], the low-level
    mutation used by registration and by suppression.  It refuses to
    replace an entry of the same registry by a different one. *)
Definition set (self : gmap string entry) (key : string) (value : entry)
    : result (gmap string entry) :=
  match self !! key with
  | Some old =>
      if bool_decide (old = value) then Ok (<[key := value]> self)
      else Raise (ValueError
             ("OptionsRegistry[" +:+ Py.repr key +:+
              "] already contains another value"))
  | None => Ok (<[key := value]> self)
  end.

End Registry.

Module OptionsRegistry.

(** The dictionary contents and the instance attribute
    [reject_all_inheritance] (class default [False]). *)
Record t : Type := {
  data : gmap string entry;
  reject_all_inheritance : bool
}.

Definition empty : t := {| data := ∅; reject_all_inheritance := false |}.

(** The loop [for key in list(self): if key not in old: ...] *)
Definition reject_loop (old : gmap string entry) (keys : list string)
    (self : gmap string entry) : gmap string entry :=
  foldl (λ self key,
           match old !! key with
           | Some _ => self
           | None => <[key := (None, None)]> self
           end)
        self keys.

(** [OptionsRegistry.created_for(self, cls)], with the registries of the
    proper ancestors of [cls] in place of [cls]. *)
Definition created_for (self : t) (bases : list (gmap string entry)) : t :=
  let old := data self in
  let merged := Registry.created_for (data self) bases in
  {| data :=
       if reject_all_inheritance self
       then reject_loop old (map_to_list merged).*1 merged
       else merged;
     reject_all_inheritance := reject_all_inheritance self |}.

(** [registry.items()] *)
Definition items (self : t) : list (string * entry) := map_to_list (data self).

Definition set (self : t) (key : string) (value : entry) : result t :=
  d ← Registry.set (data self) key value;
  Ok {| data := d; reject_all_inheritance := reject_all_inheritance self |}.

End OptionsRegistry.

(** The registries of the classes created so far, by class name.  A
    class is created with the registry its body filled in; [ancestors]
    is [cls.__mro__[1:]], nearest ancestor first, and a class without a
    recorded registry (such as [object]) has an empty one. *)
Definition class_created (classes : gmap string OptionsRegistry.t)
    (name : string) (ancestors : list string) (body : OptionsRegistry.t)
    : gmap string OptionsRegistry.t :=
  <[name :=
      OptionsRegistry.created_for body
        (map (λ base, OptionsRegistry.data
                        (default OptionsRegistry.empty (classes !! base)))
             (reverse ancestors))]> classes.

(** [reject_inheritance] applied to [names] in a class body whose
    registry is [r]. *)
Definition reject_inheritance (names : list string) (r : OptionsRegistry.t)
    : result OptionsRegistry.t :=
  match names with
  | [] => Ok {| OptionsRegistry.data := OptionsRegistry.data r;
                OptionsRegistry.reject_all_inheritance := true |}
  | _ =>
      foldl (λ acc name, r ← acc; OptionsRegistry.set r name (None, None))
            (Ok r) names
  end.

(** ** Group descriptors *)

Module Group.

Record t : Type := {
  title : string;
  description : option string;
  sortKey : Z;
  sort_stable : nat
}.

(** [Group.__init__(title, description=None, sortKey=0)] *)
Definition __init__ (title : string) (description : option string)
    (sortKey : Z) (_optcount : nat) : t * nat :=
  let '(k, _optcount) := _gen_key _optcount in
  ({| title := title; description := description;
      sortKey := sortKey; sort_stable := k |}, _optcount).

Definition makeGroup (self : t) : (Z * nat) * OptionGroup.t :=
  ((sortKey self, sort_stable self),
   OptionGroup.__init__ (title self) (description self)).

End Group.

(** The order of the sort keys [(sortKey, sort_stable)], as Python
    compares tuples. *)
Definition key_le (a b : Z * nat) : Prop :=
  (a.1 < b.1)%Z ∨ (a.1 = b.1 ∧ a.2 ≤ b.2).

Global Instance key_le_dec a b : Decision (key_le a b).
Proof. unfold key_le. apply _. Defined.

(** [l.sort()] for a list of pairs whose first components are sort keys.
    Distinct descriptors carry distinct keys, so the second components
    are never compared. *)
Definition sort_keyed {A} (l : list ((Z * nat) * A)) : list ((Z * nat) * A) :=
  merge_sort (λ x y, key_le x.1 y.1) l.

(** ** Option descriptors *)

(** The four concrete descriptor classes. *)
Inductive optclass : Type := KSet | KAdd | KAppend | KHandler.

Definition class_name (k : optclass) : string :=
  match k with
  | KSet => "Set" | KAdd => "Add" | KAppend => "Append" | KHandler => "Handler"
  end.

(** A handler function is called with the target and the parser (the
    state), the option string used and the converted value. *)
Definition handler_fn : Type := string → pyval → M unit.

(** Keyword arguments of a descriptor constructor.  A field left at
    [None] is a keyword that was not passed (or, for [value] and [type],
    passed as [NOT_GIVEN], which the constructor cannot tell apart);
    [kw_other] lists the keywords other than [function] that name no
    attribute of the class, in the order in which the dictionary of
    keywords yields them, and [kw_function_first] tells whether the
    dictionary yields [function] before them.  Keywords that name a
    method of the class are not represented. *)
Record kwargs : Type := {
  kw_repeatable : option bool;
  kw_sortKey : option Z;
  kw_metavar : option string;
  kw_help : option string;
  kw_group : option gref;
  kw_value : option pyval;
  kw_type : option pytype;
  kw_function : option handler_fn;
  kw_other : list string;
  kw_function_first : bool
}.

Definition no_kw : kwargs :=
  {| kw_repeatable := None; kw_sortKey := None; kw_metavar := None;
     kw_help := None; kw_group := None; kw_value := None; kw_type := None;
     kw_function := None; kw_other := []; kw_function_first := true |}.

Module AbstractOption.

Record t : Type := {
  klass : optclass;
  option_names : list string;
  repeatable : bool;
  sortKey : Z;
  metavar : option string;
  help : option string;
  group : option gref;
  value : option pyval;      (* [None] is [NOT_GIVEN] *)
  type : option pytype;      (* [None] is [NOT_GIVEN] *)
  function : option handler_fn;
  nargs : nat;
  sort_stable : nat
}.

(** Class attribute [repeatable]: [True] on the base class, overridden
    to [False] by [Set] and [Handler]. *)
Definition class_repeatable (k : optclass) : bool :=
  match k with
  | KSet | KHandler => false
  | KAdd | KAppend => true
  end.

(** The first keyword [k] that the loop over the dictionary of keywords
    meets for which [hasattr(klass, k)] is false: [function] on a class
    other than [Handler], or any other unknown name, whichever the
    dictionary yields first. *)
Definition bad_keyword (k : optclass) (kw : kwargs) : option string :=
  match k, kw_function kw with
  | KHandler, _ | _, None => head (kw_other kw)
  | _, Some _ =>
      if kw_function_first kw then Some "function"
      else Some (default "function" (head (kw_other kw)))
  end.

(** The test of the loop over [option_names]. *)
Definition invalid_name (option : string) : bool :=
  (negb (Py.startswith option "-") || Py.startswith option "---")%bool.

(** [AbstractOption.__init__] with positional arguments [option_names]
    and keywords [kw], for an instance of class [k]; the state is the
    counter [_optcount].  The default metavar reads [__name__] of the
    type, which fails for a callable without one. *)
Definition __init__ (k : optclass) (option_names : list string)
    (kw : kwargs) (_optcount : nat) : result (t * nat) :=
  match bad_keyword k kw with
  | Some key =>
      Raise (TypeError ("peak.cli.options." +:+ class_name k +:+
                        " constructor has no keyword argument " +:+ key))
  | None =>
  match option_names with
  | [] => Raise (TypeError (class_name k +:+
                            " must have at least one option name"))
  | _ =>
  match List.find invalid_name option_names with
  | Some option =>
      Raise (ValueError ("Invalid option name " +:+ Py.repr option +:+
                         ": option names must begin with '-' or '--'"))
  | None =>
  if Bool.eqb (is_NOT_GIVEN (kw_type kw)) (is_NOT_GIVEN (kw_value kw))
  then Raise (TypeError (class_name k +:+
         " options must have a value or a type, not both or neither"))
  else
  match kw_type kw, kw_metavar kw with
  | None, Some _ =>
      Raise (TypeError "'metavar' is meaningless for options without a type")
  | _, _ =>
      metavar ←
        match kw_type kw, kw_metavar kw with
        | Some ty, None => name ← tp_name ty; Ok (Some (Py.upper name))
        | _, m => Ok m
        end;
      let '(key, _optcount) := _gen_key _optcount in
      Ok ({| klass := k;
             option_names := option_names;
             repeatable := default (class_repeatable k) (kw_repeatable kw);
             sortKey := default 0%Z (kw_sortKey kw);
             metavar := metavar;
             help := kw_help kw;
             group := kw_group kw;
             value := kw_value kw;
             type := kw_type kw;
             function := kw_function kw;
             nargs := if is_NOT_GIVEN (kw_type kw) then 0 else 1;
             sort_stable := key |}, _optcount)
  end
  end
  end
  end.

Section methods.

(** The descriptor object at each address. *)
Variable deref : ref → t.

Definition makeOption (self : ref) (attrname : option string)
    (optmap : option (gmap string ref)) : result ((Z * nat) * Option.t) :=
  let options := option_names (deref self) in
  let options :=
    match optmap with
    | Some optmap => filter (λ opt, optmap !! opt = Some self) options
    | None => options
    end in
  popt ← Option.__init__ options Option.callback_action
            (if is_NOT_GIVEN (type (deref self)) then None else Some "string")
            (nargs (deref self)) (metavar (deref self)) (help (deref self))
            (Some self) attrname;
  Ok ((sortKey (deref self), sort_stable (deref self)), popt).

(** The [%r] and [%s] formats of the values that occur in messages. *)
Definition repr_raw (v : raw) : string :=
  match v with
  | RawNone => "None"
  | RawStr s => Py.repr s
  | RawTuple l => Py.repr_tuple l
  end.

Definition str_opt (s : option string) : string := default "None" s.

Definition convert (self : ref) (option : Option.t) (value : raw)
    : result pyval :=
  match AbstractOption.value (deref self) with
  | None =>
      match type (deref self) with
      | Some ty =>
          match tp_call ty value with
          | Raise (ValueError _) =>
              Raise (InvocationError
                       (Option.__str__ option +:+ ": " +:+ repr_raw value +:+
                        " is not a valid " +:+ str_opt (metavar (deref self))))
          | r => r
          end
      | None => Raise (TypeError "'Symbol' object is not callable")
      end
  | Some v => Ok v
  end.

Definition register (self : ref) (registry : OptionsRegistry.t)
    (attrname : option string) : result OptionsRegistry.t :=
  foldl (λ acc optname,
           r ← acc; OptionsRegistry.set r optname (attrname, Some self))
        (Ok registry) (option_names (deref self)).

Definition check_repeat (self : ref) (option : Option.t) : M unit :=
  if repeatable (deref self) then mret tt
  else
    st ← get;
    let use_counts := default ∅ (use_counts st) in
    let count := default 0 (use_counts !! self) + 1 in
    _ ← modify (set_use_counts (Some (<[self := count]> use_counts)));
    if Nat.ltb 1 count
    then raise (InvocationError
                  (Option.__str__ option +:+ " can only be used once"))
    else mret tt.

End methods.

End AbstractOption.
(** ** The descriptor classes and their callbacks *)

Definition type_name (v : pyval) : string :=
  match v with
  | VNone => "NoneType"
  | VBool _ => "bool"
  | VInt _ => "int"
  | VStr _ => "str"
  | VList _ => "list"
  end.

Definition no_attribute (owner attr : string) : exn :=
  AttributeError ("'" +:+ owner +:+ "' object has no attribute '" +:+ attr +:+ "'").

(** [setattr(parser.values, attrname, v)] *)
Definition setattr (attrname : option string) (v : pyval) : M unit :=
  match attrname with
  | Some a => modify (set_values (λ vals, <[a := v]> vals))
  | None => raise (TypeError "attribute name must be string, not 'NoneType'")
  end.

(** [getattr(parser.values, attrname)] *)
Definition getattr (attrname : option string) : M pyval :=
  match attrname with
  | Some a =>
      st ← get;
      match values st !! a with
      | Some v => mret v
      | None => raise (no_attribute "instance" a)
      end
  | None => raise (TypeError "getattr(): attribute name must be string")
  end.

Definition as_int (v : pyval) : option Z :=
  match v with
  | VInt n => Some n
  | VBool b => Some (if b then 1 else 0)%Z
  | _ => None
  end.

(** [a + b] *)
Definition py_add (a b : pyval) : M pyval :=
  match a, b with
  | VStr s, VStr t => mret (VStr (s +:+ t))
  | VList l, VList m =>
      st ← get;
      let new := fresh (dom (heap st)) in
      _ ← modify (set_heap (λ h,
             <[new := default [] (h !! l) ++ default [] (h !! m)]> h));
      mret (VList new)
  | _, _ =>
      match as_int a, as_int b with
      | Some x, Some y => mret (VInt (x + y))
      | _, _ =>
          raise (TypeError
                   ("unsupported operand type(s) for +: '" +:+ type_name a +:+
                    "' and '" +:+ type_name b +:+ "'"))
      end
  end.

Section callbacks.

Variable deref : ref → AbstractOption.t.

(** [Set.callback] *)
Definition Set_callback (self : ref) (option : Option.t) (opt : string)
    (value : raw) (attrname : Datatypes.option string) : M unit :=
  _ ← AbstractOption.check_repeat deref self option;
  v ← lift (AbstractOption.convert deref self option value);
  setattr attrname v.

(** [Add.callback] *)
Definition Add_callback (self : ref) (option : Option.t) (opt : string)
    (value : raw) (attrname : Datatypes.option string) : M unit :=
  _ ← AbstractOption.check_repeat deref self option;
  a ← getattr attrname;
  b ← lift (AbstractOption.convert deref self option value);
  value ← py_add a b;
  setattr attrname value.

(** [Append.callback].  [getattr] with the raw [value] as default comes
    first, then the lookup of [append] on what it returned, then
    [convert], then the call. *)
Definition Append_callback (self : ref) (option : Option.t) (opt : string)
    (value : raw) (attrname : Datatypes.option string) : M unit :=
  _ ← AbstractOption.check_repeat deref self option;
  st ← get;
  match attrname with
  | None => raise (TypeError "getattr(): attribute name must be string")
  | Some a =>
      match values st !! a with
      | Some (VList l) =>
          v ← lift (AbstractOption.convert deref self option value);
          modify (set_heap (λ h, <[l := default [] (h !! l) ++ [v]]> h))
      | Some other => raise (no_attribute (type_name other) "append")
      | None => raise (no_attribute (raw_type_name value) "append")
      end
  end.

(** [Handler.callback] *)
Definition Handler_callback (self : ref) (option : Option.t) (opt : string)
    (value : raw) (attrname : Datatypes.option string) : M unit :=
  _ ← AbstractOption.check_repeat deref self option;
  v ← lift (AbstractOption.convert deref self option value);
  match AbstractOption.function (deref self) with
  | Some function => function opt v
  | None => raise (TypeError "'NoneType' object is not callable")
  end.

(** The bound method [callback] of the descriptor at [self]. *)
Definition callback (self : ref) : Option.t → string → raw → option string → M unit :=
  match AbstractOption.klass (deref self) with
  | KSet => Set_callback self
  | KAdd => Add_callback self
  | KAppend => Append_callback self
  | KHandler => Handler_callback self
  end.

End callbacks.

(** ** The parser synthesizer *)

(** Keyword arguments of [make_parser], [parse] and [get_help]; [None]
    is a keyword that was not passed. *)
Record parser_kw : Type := {
  kw_usage : option string;
  kw_prog : option string;
  kw_description : option string;
  kw_allow_interspersed_args : option bool;
  kw_add_help_option : option bool
}.

Definition default_kw : parser_kw :=
  {| kw_usage := None; kw_prog := None; kw_description := None;
     kw_allow_interspersed_args := None; kw_add_help_option := None |}.

(** The local function [_exit_parser] of [make_parser]; [prog] is the
    program name followed by a colon. *)
Definition _exit_parser (prog : string) (status : Z) (msg : option string)
    : result unit :=
  match msg with
  | Some (String c m) =>
      let msg := String c m in
      let msg :=
        if Py.startswith msg prog then Py.drop (String.length prog) msg
        else msg in
      Raise (InvocationError (Py.strip msg))
  | _ => if bool_decide (status = 0%Z) then Ok tt else Raise (SystemExit status)
  end.

Definition keyed : Type := (Z * nat) * Option.t.

Section synthesis.

Variable deref : ref → AbstractOption.t.
Variable deref_group : gref → Group.t.

(** [dict([(k,opt) for k,(a,opt) in optinfo if opt is not None])] *)
Definition make_optmap (optinfo : list (string * entry)) : gmap string ref :=
  foldl (λ m '(k, (a, opt)),
           match opt with
           | Some o => <[k := o]> m
           | None => m
           end)
        ∅ optinfo.

(** The loop that makes one parser option per descriptor and files it
    under the descriptor's group. *)
Fixpoint collect (optmap : gmap string ref) (optinfo : list (string * entry))
    (optsused : gset ref) (optlists : gmap (option gref) (list keyed))
    : result (gmap (option gref) (list keyed)) :=
  match optinfo with
  | [] => Ok optlists
  | (optname, (attrname, option)) :: rest =>
      match option with
      | None => collect optmap rest optsused optlists
      | Some o =>
          if bool_decide (o ∈ optsused)
          then collect optmap rest optsused optlists
          else
            kp ← AbstractOption.makeOption deref o attrname (Some optmap);
            let g := AbstractOption.group (deref o) in
            collect optmap rest ({[o]} ∪ optsused)
              (<[g := default [] (optlists !! g) ++ [kp]]> optlists)
      end
  end.

(** [for key,popt in optlist: container.add_option(popt)] on the parser *)
Fixpoint add_options (parser : OptionParser.t) (popts : list Option.t)
    : result OptionParser.t :=
  match popts with
  | [] => Ok parser
  | popt :: rest =>
      parser ← OptionParser.add_option parser popt;
      add_options parser rest
  end.

(** The same loop on a group of the parser *)
Fixpoint group_add_options (parser : OptionParser.t) (group : OptionGroup.t)
    (popts : list Option.t) : result (OptionParser.t * OptionGroup.t) :=
  match popts with
  | [] => Ok (parser, group)
  | popt :: rest =>
      '(parser, group) ← OptionParser.group_add_option parser group popt;
      group_add_options parser group rest
  end.

(** The loop over [optlists.items()] *)
Fixpoint fill (parser : OptionParser.t)
    (buckets : list (option gref * list keyed))
    (groups : list ((Z * nat) * OptionGroup.t))
    : result (OptionParser.t * list ((Z * nat) * OptionGroup.t)) :=
  match buckets with
  | [] => Ok (parser, groups)
  | (group, optlist) :: rest =>
      let optlist := sort_keyed optlist in
      match group with
      | None =>
          parser ← add_options parser optlist.*2;
          fill parser rest groups
      | Some g =>
          let '(key, container) := Group.makeGroup (deref_group g) in
          '(parser, container) ← group_add_options parser container optlist.*2;
          fill parser rest (groups ++ [(key, container)])
      end
  end.

(** [make_parser] from [optinfo], the items of the registry of the
    class of the target. *)
Definition make_parser_from (optinfo : list (string * entry)) (kw : parser_kw)
    : result OptionParser.t :=
  let usage := default "" (kw_usage kw) in
  let intersperse := default false (kw_allow_interspersed_args kw) in
  let prog := default "" (kw_prog kw) +:+ ":" in
  let add_help_option := default false (kw_add_help_option kw) in
  parser ← OptionParser.__init__ usage (default "" (kw_prog kw))
             (kw_description kw) add_help_option;
  let parser :=
    if intersperse then parser
    else OptionParser.disable_interspersed_args parser in
  let parser := OptionParser.set_exit (_exit_parser prog) parser in
  let optmap := make_optmap optinfo in
  optlists ← collect optmap optinfo ∅ ∅;
  '(parser, groups) ← fill parser (map_to_list optlists) [];
  let groups := sort_keyed groups in
  Ok (foldl OptionParser.add_option_group parser groups.*2).

(** [make_parser(ob, **kw)], where [registry] is
    [OptionsRegistry(ob.__class__)]. *)
Definition make_parser (registry : OptionsRegistry.t) (kw : parser_kw)
    : result OptionParser.t :=
  make_parser_from (OptionsRegistry.items registry) kw.

(** [get_help(ob, **kw)] *)
Definition get_help (registry : OptionsRegistry.t) (kw : parser_kw)
    : result string :=
  parser ← make_parser registry kw;
  Ok (Py.strip (OptionParser.format_help parser)).

(** The state of a new parser about to scan for a target with the
    attributes [vals] and the list objects [h]. *)
Definition new_scan (vals : gmap string pyval) (h : gmap loc (list pyval))
    : pstate :=
  {| values := vals; heap := h; rargs := []; largs := [];
     use_counts := None; stdout := [] |}.

(** [parse(ob, args, **kw)]: the result and the state of the target
    afterwards, or [None] when [fuel] turns of the scan did not finish. *)
Definition parse (fuel : nat) (registry : OptionsRegistry.t)
    (vals : gmap string pyval) (h : gmap loc (list pyval))
    (args : list string) (kw : parser_kw)
    : option (result (list string) * pstate) :=
  match make_parser registry kw with
  | Raise e => Some (Raise e, new_scan vals h)
  | Ok parser =>
      OptionParser.parse_args (callback deref) parser fuel args
        (new_scan vals h)
  end.

End synthesis.
(** ** Object stores

    Descriptors and groups live in a store and are referred to by their
    index in it; the store also carries the module counter
    [_optcount]. *)

Record store : Type := {
  _optcount : nat;
  options : list AbstractOption.t;
  groups : list Group.t
}.

Definition empty_store : store :=
  {| _optcount := 0; options := []; groups := [] |}.

Definition null_option : AbstractOption.t :=
  {| AbstractOption.klass := KSet; AbstractOption.option_names := [];
     AbstractOption.repeatable := true; AbstractOption.sortKey := 0%Z;
     AbstractOption.metavar := None; AbstractOption.help := None;
     AbstractOption.group := None; AbstractOption.value := Some VNone;
     AbstractOption.type := None; AbstractOption.function := None;
     AbstractOption.nargs := 0; AbstractOption.sort_stable := 0 |}.

Definition null_group : Group.t :=
  {| Group.title := ""; Group.description := None; Group.sortKey := 0%Z;
     Group.sort_stable := 0 |}.

Definition option_at (σ : store) (r : ref) : AbstractOption.t :=
  nth r (options σ) null_option.

Definition group_at (σ : store) (g : gref) : Group.t :=
  nth g (groups σ) null_group.

(** Construct a descriptor of class [k] and place it in the store. *)
Definition new_option (k : optclass) (option_names : list string)
    (kw : kwargs) (σ : store) : result (ref * store) :=
  '(o, c) ← AbstractOption.__init__ k option_names kw (_optcount σ);
  Ok (List.length (options σ),
      {| _optcount := c; options := options σ ++ [o]; groups := groups σ |}).

(** Construct a group and place it in the store. *)
Definition new_group (title : string) (description : option string)
    (sortKey : Z) (σ : store) : gref * store :=
  let '(g, c) := Group.__init__ title description sortKey (_optcount σ) in
  (List.length (groups σ),
   {| _optcount := c; options := options σ; groups := groups σ ++ [g] |}).

(** [attributes(attrname = option)] in a class body whose registry is
    [r]. *)
Definition attributes (σ : store) (attrname : string) (option : ref)
    (r : OptionsRegistry.t) : result OptionsRegistry.t :=
  AbstractOption.register (option_at σ) option r (Some attrname).

(** The specification's category of configuration errors: the built-in
    exceptions that a descriptor constructor raises. *)
Definition ConfigurationError (e : exn) : Prop :=
  match e with
  | TypeError _ | ValueError _ => True
  | _ => False
  end.

(** ** Example declarations *)

Module Examples.

Definition typed (ty : pytype) : kwargs :=
  {| kw_repeatable := None; kw_sortKey := None; kw_metavar := None;
     kw_help := None; kw_group := None; kw_value := None;
     kw_type := Some ty; kw_function := None; kw_other := [];
     kw_function_first := true |}.

Definition valued (v : pyval) : kwargs :=
  {| kw_repeatable := None; kw_sortKey := None; kw_metavar := None;
     kw_help := None; kw_group := None; kw_value := Some v;
     kw_type := None; kw_function := None; kw_other := [];
     kw_function_first := true |}.

Definition with_help (h : string) (kw : kwargs) : kwargs :=
  {| kw_repeatable := kw_repeatable kw; kw_sortKey := kw_sortKey kw;
     kw_metavar := kw_metavar kw; kw_help := Some h;
     kw_group := kw_group kw; kw_value := kw_value kw;
     kw_type := kw_type kw; kw_function := kw_function kw;
     kw_other := kw_other kw;
     kw_function_first := kw_function_first kw |}.

Definition with_group (g : gref) (kw : kwargs) : kwargs :=
  {| kw_repeatable := kw_repeatable kw; kw_sortKey := kw_sortKey kw;
     kw_metavar := kw_metavar kw; kw_help := kw_help kw;
     kw_group := Some g; kw_value := kw_value kw;
     kw_type := kw_type kw; kw_function := kw_function kw;
     kw_other := kw_other kw;
     kw_function_first := kw_function_first kw |}.

Definition with_sortKey (k : Z) (kw : kwargs) : kwargs :=
  {| kw_repeatable := kw_repeatable kw; kw_sortKey := Some k;
     kw_metavar := kw_metavar kw; kw_help := kw_help kw;
     kw_group := kw_group kw; kw_value := kw_value kw;
     kw_type := kw_type kw; kw_function := kw_function kw;
     kw_other := kw_other kw;
     kw_function_first := kw_function_first kw |}.

(** The value of a construction that is known to succeed. *)
Definition the {A} (d : A) (r : result A) : A :=
  match r with Ok a => a | Raise _ => d end.

(** A class with one option, declared as
    [attributes(attrname = klass(name, **kw))]. *)
Definition one_option (k : optclass) (name attrname : string) (kw : kwargs)
    : result (store * OptionsRegistry.t) :=
  '(o, σ) ← new_option k [name] kw empty_store;
  r ← attributes σ attrname o OptionsRegistry.empty;
  Ok (σ, OptionsRegistry.created_for r []).

Definition no_class : store * OptionsRegistry.t :=
  (empty_store, OptionsRegistry.empty).

(** [name = Set('--name', type=str)] *)
Definition name_class : store * OptionsRegistry.t :=
  the no_class (one_option KSet "--name" "name" (typed py_str)).

(** [db = Set('--db', type=str)] and [db = Append('--db', type=str)] *)
Definition db_set_class : store * OptionsRegistry.t :=
  the no_class (one_option KSet "--db" "db" (typed py_str)).

Definition db_append_class : store * OptionsRegistry.t :=
  the no_class (one_option KAppend "--db" "db" (typed py_str)).

(** [port = Set('--port', type=int)] *)
Definition port_class : store * OptionsRegistry.t :=
  the no_class (one_option KSet "--port" "port" (typed py_int)).

(** [lambda s: s[5]], a converter that fails with an [IndexError] on a
    text of fewer than six characters. *)
Definition sixth : pytype :=
  {| tp_name := Ok "<lambda>";
     tp_call := λ v,
       match v with
       | RawStr s =>
           match String.get 5 s with
           | Some c => Ok (VStr (String c ""))
           | None => Raise (IndexError "string index out of range")
           end
       | RawTuple l =>
           match l !! 5 with
           | Some x => Ok (VStr x)
           | None => Raise (IndexError "tuple index out of range")
           end
       | RawNone =>
           Raise (TypeError "'NoneType' object has no attribute '__getitem__'")
       end |}.

(** [mid = Set('--mid', type=lambda s: s[5])] *)
Definition mid_class : store * OptionsRegistry.t :=
  the no_class (one_option KSet "--mid" "mid" (typed sixth)).

(** Three classes:
    [A] declares [verbose = Set('-v', '--verbose', value=True)];
    [B(A)] calls [reject_inheritance('--verbose')];
    [C(A)] calls [reject_inheritance()] and declares
    [fast = Set('--fast', value=True)]. *)
Definition abc : result (store * gmap string OptionsRegistry.t) :=
  '(verbose, σ) ← new_option KSet ["-v"; "--verbose"]
                    (with_help "Be verbose" (valued (VBool true))) empty_store;
  '(fast, σ) ← new_option KSet ["--fast"]
                 (with_help "Go fast" (valued (VBool true))) σ;
  bodyA ← attributes σ "verbose" verbose OptionsRegistry.empty;
  let classes := class_created ∅ "A" ["object"] bodyA in
  bodyB ← reject_inheritance ["--verbose"] OptionsRegistry.empty;
  let classes := class_created classes "B" ["A"; "object"] bodyB in
  bodyC ← reject_inheritance [] OptionsRegistry.empty;
  bodyC ← attributes σ "fast" fast bodyC;
  let classes := class_created classes "C" ["A"; "object"] bodyC in
  Ok (σ, classes).

Definition abc_store : store := (the (empty_store, ∅) abc).1.

Definition class_registry (name : string) : OptionsRegistry.t :=
  default OptionsRegistry.empty ((the (empty_store, ∅) abc).2 !! name).

(** A class with two groups, created in the order [Second] (sort key 5),
    [First] (sort key 1), two options in each and two ungrouped ones. *)
Definition grouped : result (store * OptionsRegistry.t) :=
  let '(second, σ) := new_group "Second" None 5 empty_store in
  let '(first, σ) := new_group "First" None 1 σ in
  '(a, σ) ← new_option KSet ["--alpha"] (with_group second (valued (VInt 1))) σ;
  '(b, σ) ← new_option KSet ["--beta"] (with_group first (valued (VInt 2))) σ;
  '(p, σ) ← new_option KSet ["--plain"] (valued (VInt 3)) σ;
  '(c, σ) ← new_option KSet ["--gamma"]
              (with_sortKey (-1) (with_group second (valued (VInt 4)))) σ;
  '(d, σ) ← new_option KSet ["--delta"] (with_group first (valued (VInt 5))) σ;
  '(q, σ) ← new_option KSet ["-q"] (with_sortKey (-3) (valued (VInt 6))) σ;
  r ← attributes σ "alpha" a OptionsRegistry.empty;
  r ← attributes σ "beta" b r;
  r ← attributes σ "plain" p r;
  r ← attributes σ "gamma" c r;
  r ← attributes σ "delta" d r;
  r ← attributes σ "quiet" q r;
  Ok (σ, OptionsRegistry.created_for r []).

Definition grouped_class : store * OptionsRegistry.t := the no_class grouped.

(** The lines of a text. *)
Fixpoint lines_from (cur : string) (s : string) : list string :=
  match s with
  | EmptyString => [cur]
  | String c s' =>
      if Ascii.eqb c (ascii_of_nat 10) then cur :: lines_from "" s'
      else lines_from (cur +:+ String c "") s'
  end.

Definition lines (s : string) : list string := lines_from "" s.

(** The help text of a class of the store [σ], with the default
    configuration. *)
Definition help_of (σ : store) (registry : OptionsRegistry.t) : result string :=
  get_help (option_at σ) (group_at σ) registry default_kw.

End Examples.

(** ** Notions used in the statements *)

(** The parts of a parser that adding options does not touch. *)
Definition same_settings (p p' : OptionParser.t) : Prop :=
  OptionParser.exit p' = OptionParser.exit p ∧
  OptionParser.prog p' = OptionParser.prog p ∧
  OptionParser.usage p' = OptionParser.usage p ∧
  OptionParser.description p' = OptionParser.description p ∧
  OptionParser.allow_interspersed_args p' = OptionParser.allow_interspersed_args p.

Section buckets.

Variable deref_group : gref → Group.t.

(** The group a bucket of options turns into. *)
Definition bucket_group (g : gref) (optlist : list keyed)
    : (Z * nat) * OptionGroup.t :=
  ((Group.sortKey (deref_group g), Group.sort_stable (deref_group g)),
   {| OptionGroup.title := Group.title (deref_group g);
      OptionGroup.description := Group.description (deref_group g);
      OptionGroup.option_list := (sort_keyed optlist).*2 |}).

(** What the buckets add to the parser itself and to the list of
    groups. *)
Definition direct_options (buckets : list (option gref * list keyed))
    : list Option.t :=
  flat_map (λ b, match b.1 with
                 | None => (sort_keyed b.2).*2
                 | Some _ => []
                 end) buckets.

Definition group_buckets (buckets : list (option gref * list keyed))
    : list ((Z * nat) * OptionGroup.t) :=
  omap (λ b, match b.1 with
             | None => None
             | Some g => Some (bucket_group g b.2)
             end) buckets.

End buckets.

(** The parser before any registered option is added to it. *)
Definition bare_parser (kw : parser_kw) : result OptionParser.t :=
  parser ← OptionParser.__init__ (default "" (kw_usage kw))
             (default "" (kw_prog kw)) (kw_description kw)
             (default false (kw_add_help_option kw));
  let parser :=
    if default false (kw_allow_interspersed_args kw) then parser
    else OptionParser.disable_interspersed_args parser in
  Ok (OptionParser.set_exit
        (_exit_parser (default "" (kw_prog kw) +:+ ":")) parser).

(** The descriptors met for the first time along [optinfo], each with
    the attribute name of the entry at which it is met; [optsused] are
    the descriptors met before. *)
Fixpoint first_seen (optinfo : list (string * entry)) (optsused : gset ref)
    : list (option string * ref) :=
  match optinfo with
  | [] => []
  | (_, (_, None)) :: rest => first_seen rest optsused
  | (_, (attrname, Some o)) :: rest =>
      if bool_decide (o ∈ optsused) then first_seen rest optsused
      else (attrname, o) :: first_seen rest ({[o]} ∪ optsused)
  end.

(** All the parser options filed in the buckets. *)
Definition made (optlists : gmap (option gref) (list keyed)) : list keyed :=
  flat_map snd (map_to_list optlists).

(** The sort key of the descriptor behind a parser option. *)
Definition popt_key (deref : ref → AbstractOption.t) (popt : Option.t)
    : Z * nat :=
  match Option.callback popt with
  | Some d => (AbstractOption.sortKey (deref d),
               AbstractOption.sort_stable (deref d))
  | None => (0%Z, 0)
  end.

(** The sort key of a group. *)
Definition group_key (deref_group : gref → Group.t) (g : gref) : Z * nat :=
  (Group.sortKey (deref_group g), Group.sort_stable (deref_group g)).

(** Every option in a bucket carries the key of its descriptor, and the
    descriptor's group is the bucket's. *)
Definition well_filed (deref : ref → AbstractOption.t)
    (lists : gmap (option gref) (list keyed)) : Prop :=
  ∀ g l, lists !! g = Some l →
    Forall (λ kp, kp.1 = popt_key deref kp.2 ∧
                  ∃ d, Option.callback kp.2 = Some d ∧
                       AbstractOption.group (deref d) = g) l.


(** An item of a registry that carries a descriptor. *)
Definition has_descriptor (x : string * entry) : Prop := is_Some x.2.2.

Global Instance has_descriptor_dec x : Decision (has_descriptor x).
Proof. unfold has_descriptor. apply _. Defined.

(** The entry of the merged view of a class under one name, from the
    entry the class declares itself, the entry its bases give and the
    flag [reject_all_inheritance]. *)
Definition view_entry (declared inherited : option entry) (reject : bool)
    : option entry :=
  match declared with
  | Some e => Some e
  | None =>
      if reject
      then match inherited with
           | Some _ => Some (None, None)
           | None => None
           end
      else inherited
  end.

(** What the registries of the bases give under each name. *)
Definition inherited_from (bases : list (gmap string entry))
    : gmap string entry :=
  foldl (λ data base, base ∪ data) ∅ bases.

(** ** Further notions *)

(** The stores that the constructors build. *)
Inductive built : store → Prop :=
| built_empty : built empty_store
| built_option σ k names kw r σ' :
    built σ → new_option k names kw σ = Ok (r, σ') → built σ'
| built_group σ title description sortKey g σ' :
    built σ → new_group title description sortKey σ = (g, σ') → built σ'.

(** The creation keys handed out to the descriptors and groups of a
    store. *)
Definition creation_keys (σ : store) : list nat :=
  (AbstractOption.sort_stable <$> options σ) ++
  (Group.sort_stable <$> groups σ).

(** The option strings that [Option._set_opt_strings] accepts: a dash and
    one other character, or two dashes and at least one more character
    that is not a dash. *)
Definition valid_opt_string (opt : string) : bool :=
  match opt with
  | String a (String b EmptyString) =>
      (Ascii.eqb a "-" && negb (Ascii.eqb b "-"))%bool
  | String a (String b (String c _)) =>
      (Ascii.eqb a "-" && Ascii.eqb b "-" && negb (Ascii.eqb c "-"))%bool
  | _ => false
  end.

(** [option_handler] with the given option names and keywords, applied
    as a decorator to the method [func] in a class body whose registry
    is [r]: a [Handler] is constructed with [function=func] and
    registered under no attribute name.  A keyword [function] among
    [kw] collides with the one the decorator passes. *)
Definition option_handler (option_names : list string) (kw : kwargs)
    (func : handler_fn) (σ : store) (r : OptionsRegistry.t)
    : result (ref * store * OptionsRegistry.t) :=
  match kw_function kw with
  | Some _ =>
      Raise (TypeError
               "__init__() got multiple values for keyword argument 'function'")
  | None =>
      '(h, σ) ← new_option KHandler option_names
                  {| kw_repeatable := kw_repeatable kw;
                     kw_sortKey := kw_sortKey kw;
                     kw_metavar := kw_metavar kw; kw_help := kw_help kw;
                     kw_group := kw_group kw; kw_value := kw_value kw;
                     kw_type := kw_type kw; kw_function := Some func;
                     kw_other := kw_other kw;
                     kw_function_first := kw_function_first kw |} σ;
      r ← AbstractOption.register (option_at σ) h r None;
      Ok (h, σ, r)
  end.

(** Every entry of the option-string tables of a parser leads to an
    option with property [P] that has the string. *)
Definition tables_sound (P : Option.t → Prop) (p : OptionParser.t) : Prop :=
  ∀ s o,
    (OptionParser._short_opt p !! s = Some o → P o ∧ s ∈ Option._short_opts o) ∧
    (OptionParser._long_opt p !! s = Some o → P o ∧ s ∈ Option._long_opts o).

(** Every string of every option with property [Q] is entered in the
    tables of the parser and leads to that option. *)
Definition tables_complete (Q : Option.t → Prop) (p : OptionParser.t) : Prop :=
  ∀ o, Q o →
    (∀ s, s ∈ Option._short_opts o → OptionParser._short_opt p !! s = Some o) ∧
    (∀ s, s ∈ Option._long_opts o → OptionParser._long_opt p !! s = Some o).

(** The options filed in a list of buckets. *)
Definition in_buckets (buckets : list (option gref * list keyed))
    (o : Option.t) : Prop :=
  ∃ b kp, b ∈ buckets ∧ kp ∈ b.2 ∧ o = kp.2.

(** [converts o vs x]: an option of the descriptor [o] takes the
    arguments [vs] from the command line and [convert] turns them into
    [x]: one argument that the type of the descriptor accepts, or none
    when the descriptor has a constant value. *)
Definition converts (o : AbstractOption.t) (vs : list string) (x : pyval)
    : Prop :=
  match AbstractOption.type o with
  | Some ty =>
      AbstractOption.nargs o = 1 ∧ AbstractOption.value o = None ∧
      ∃ v, vs = [v] ∧ tp_call ty (RawStr v) = Ok x
  | None => vs = [] ∧ AbstractOption.value o = Some x
  end.

(** The arguments at which the scan stops when interspersed arguments
    are not allowed: none, or a first one that is not an option. *)
Definition stops_scan (args : list string) : Prop :=
  match args with
  | [] => True
  | arg :: _ => Py.startswith arg "-" = false ∨ arg = "-"
  end.



(** * Properties *)

(** ** Descriptor construction *)

Lemma find_invalid_name (names : list string) (n : string) :
  n ∈ names → AbstractOption.invalid_name n = true →
  ∃ m, List.find AbstractOption.invalid_name names = Some m.
Proof.
  intros Hin Hbad.
  destruct (List.find AbstractOption.invalid_name names) as [m|] eqn:Hf.
  - by exists m.
  - apply list_elem_of_In in Hin.
    pose proof (find_none _ _ Hf n Hin) as Hn. congruence.
Qed.

(** What the constructor raises is a configuration error, unless all
    its checks pass and reading [__name__] of the type fails. *)
Lemma init_raises_configuration_error k names kw c e :
  AbstractOption.__init__ k names kw c = Raise e →
  ConfigurationError e ∨
  (names ≠ [] ∧ Forall (λ n, AbstractOption.invalid_name n = false) names ∧
   ∃ ty, kw_type kw = Some ty ∧ kw_value kw = None ∧ tp_name ty = Raise e).
Proof.
  unfold AbstractOption.__init__.
  destruct (AbstractOption.bad_keyword k kw); [intros [= <-]; by left|].
  destruct names as [|n names]; [intros [= <-]; by left|].
  destruct (List.find _ _) eqn:Hf; [intros [= <-]; by left|].
  destruct (Bool.eqb _ _) eqn:Hx; [intros [= <-]; by left|].
  assert (Hall : Forall (λ n0, AbstractOption.invalid_name n0 = false) (n :: names)).
  { apply Forall_forall. intros x Hx'. apply list_elem_of_In in Hx'.
    exact (find_none _ _ Hf x Hx'). }
  destruct (kw_type kw) as [ty|], (kw_metavar kw) as [m|]; simpl;
    try done; try (intros [= <-]; by left).
  destruct (tp_name ty) as [name|e'] eqn:Hn; simpl; [done|].
  intros [= <-]. right. split; [done|]. split; [done|].
  exists ty. destruct (kw_value kw); by try done.
Qed.

(** A constructed descriptor has only names that pass the name test, takes
    one argument exactly when it has a converter, and has exactly one of
    a fixed value and a converter. *)
Lemma init_ok_inv k names kw c o c' :
  AbstractOption.__init__ k names kw c = Ok (o, c') →
  AbstractOption.klass o = k ∧
  AbstractOption.option_names o = names ∧ names ≠ [] ∧
  Forall (λ n, AbstractOption.invalid_name n = false) names ∧
  is_NOT_GIVEN (AbstractOption.type o) = negb (is_NOT_GIVEN (AbstractOption.value o)) ∧
  AbstractOption.nargs o = (if is_NOT_GIVEN (AbstractOption.type o) then 0 else 1) ∧
  AbstractOption.repeatable o =
    default (AbstractOption.class_repeatable k) (kw_repeatable kw) ∧
  AbstractOption.sort_stable o = S c ∧ c' = S c.
Proof.
  unfold AbstractOption.__init__.
  destruct (AbstractOption.bad_keyword k kw); [done|].
  destruct names as [|n names]; [done|].
  destruct (List.find _ _) eqn:Hf; [done|].
  destruct (Bool.eqb _ _) eqn:Hx; [done|].
  assert (Hall : Forall (λ n0, AbstractOption.invalid_name n0 = false) (n :: names)).
  { apply Forall_forall. intros x Hx'. apply list_elem_of_In in Hx'.
    exact (find_none _ _ Hf x Hx'). }
  destruct (kw_type kw) as [ty|] eqn:Ht, (kw_metavar kw) as [m|] eqn:Hm;
    simpl; try done; try destruct (tp_name ty); simpl; try done;
    intros [= <- <-]; simpl;
    destruct (kw_value kw); simpl in *; try done.
Qed.

(** C7: a construction that supplies both a fixed value and a type
    converter, or neither, fails with a configuration error; when the
    keywords and the option names are acceptable, the error is the
    [TypeError] of the value-or-type check. *)
Theorem init_value_xor_type (k : optclass) (names : list string)
    (kw : kwargs) (c : nat) :
  (is_Some (kw_value kw) ∧ is_Some (kw_type kw)) ∨
  (kw_value kw = None ∧ kw_type kw = None) →
  ∃ e, AbstractOption.__init__ k names kw c = Raise e ∧
       ConfigurationError e ∧
       (AbstractOption.bad_keyword k kw = None → names ≠ [] →
        Forall (λ n, AbstractOption.invalid_name n = false) names →
        e = TypeError (class_name k +:+
              " options must have a value or a type, not both or neither")).
Proof.
  intros Hboth.
  assert (Heq : Bool.eqb (is_NOT_GIVEN (kw_type kw))
                         (is_NOT_GIVEN (kw_value kw)) = true).
  { destruct Hboth as [[[v Hv] [t Ht]]|[Hv Ht]]; by rewrite Hv, Ht. }
  destruct (AbstractOption.__init__ k names kw c) as [[o c']|e] eqn:Hinit.
  - exfalso. revert Hinit. unfold AbstractOption.__init__.
    destruct (AbstractOption.bad_keyword k kw); [done|].
    destruct names; [done|]. destruct (List.find _ _); [done|].
    by rewrite Heq.
  - exists e. split; [done|]. split.
    + destruct (init_raises_configuration_error _ _ _ _ _ Hinit)
        as [?|(_ & _ & ty & Ht & Hv & _)]; [done|].
      rewrite Ht, Hv in Heq. done.
    + intros Hkw Hne Hall. revert Hinit. unfold AbstractOption.__init__.
      rewrite Hkw. destruct names as [|n names]; [done|].
      destruct (List.find _ _) as [m|] eqn:Hf.
      * apply find_some in Hf as [Hin Hbad].
        apply list_elem_of_In in Hin.
        rewrite Forall_forall in Hall. rewrite (Hall _ Hin) in Hbad. done.
      * rewrite Heq. by intros [= <-].
Qed.

Lemma init_value_xor_type_witness :
  ∃ e, AbstractOption.__init__ KSet ["--db"] no_kw 0 = Raise e ∧
       ConfigurationError e ∧
       (AbstractOption.bad_keyword KSet no_kw = None → ["--db"] ≠ [] →
        Forall (λ n, AbstractOption.invalid_name n = false) ["--db"] →
        e = TypeError (class_name KSet +:+
              " options must have a value or a type, not both or neither")).
Proof.
  apply (init_value_xor_type KSet ["--db"] no_kw 0).
  right. split; reflexivity.
Defined.

(** C8: a construction with no option names, or with a name that does
    not start with a dash or that starts with three dashes, fails with a
    configuration error; when the keywords are acceptable it is the
    [TypeError] for the missing names, respectively a [ValueError]
    naming an offending option name. *)
Theorem init_rejects_names (k : optclass) (names : list string)
    (kw : kwargs) (c : nat) :
  names = [] ∨
  (∃ n, n ∈ names ∧
        (Py.startswith n "-" = false ∨ Py.startswith n "---" = true)) →
  ∃ e, AbstractOption.__init__ k names kw c = Raise e ∧
       ConfigurationError e ∧
       (AbstractOption.bad_keyword k kw = None →
        (names = [] ∧
         e = TypeError (class_name k +:+ " must have at least one option name")) ∨
        (∃ m, m ∈ names ∧ AbstractOption.invalid_name m = true ∧
         e = ValueError ("Invalid option name " +:+ Py.repr m +:+
                         ": option names must begin with '-' or '--'"))).
Proof.
  intros Hbad.
  assert (Hfind : names = [] ∨
            ∃ m, List.find AbstractOption.invalid_name names = Some m).
  { destruct Hbad as [->|(n & Hin & Hn)]; [by left|right].
    apply (find_invalid_name names n Hin).
    unfold AbstractOption.invalid_name. destruct Hn as [-> | ->]; [done|].
    by rewrite orb_true_r. }
  destruct (AbstractOption.__init__ k names kw c) as [[o c']|e] eqn:Hinit.
  - exfalso. apply init_ok_inv in Hinit as (_ & _ & Hne & Hall & _).
    destruct Hfind as [->|[m Hm]]; [done|].
    apply find_some in Hm as [Hin Hm]. apply list_elem_of_In in Hin.
    rewrite Forall_forall in Hall. rewrite (Hall _ Hin) in Hm. done.
  - exists e. split; [done|]. split.
    + destruct (init_raises_configuration_error _ _ _ _ _ Hinit)
        as [?|(Hne & Hall & _)]; [done|].
      destruct Hfind as [->|[m Hm]]; [done|].
      apply find_some in Hm as [Hin Hm]. apply list_elem_of_In in Hin.
      rewrite Forall_forall in Hall. rewrite (Hall _ Hin) in Hm. done.
    + intros Hkw. revert Hinit. unfold AbstractOption.__init__. rewrite Hkw.
      destruct names as [|n names]; [intros [= <-]; by left|].
      destruct Hfind as [|[m Hm]]; [done|]. rewrite Hm. intros [= <-].
      right. exists m. apply find_some in Hm as [Hin Hm].
      apply list_elem_of_In in Hin. done.
Qed.

Lemma init_rejects_names_witness :
  ∃ e, AbstractOption.__init__ KSet ["--ok"; "---bad"]
         (Examples.typed py_str) 0 = Raise e ∧
       ConfigurationError e ∧
       (AbstractOption.bad_keyword KSet (Examples.typed py_str) = None →
        (["--ok"; "---bad"] = [] ∧
         e = TypeError (class_name KSet +:+ " must have at least one option name")) ∨
        (∃ m, m ∈ ["--ok"; "---bad"] ∧ AbstractOption.invalid_name m = true ∧
         e = ValueError ("Invalid option name " +:+ Py.repr m +:+
                         ": option names must begin with '-' or '--'"))).
Proof.
  apply (init_rejects_names KSet ["--ok"; "---bad"] (Examples.typed py_str) 0).
  right. exists "---bad". split.
  - apply list_elem_of_In. simpl. right. left. reflexivity.
  - right. reflexivity.
Defined.

(** ** Strings *)

Lemma string_app_cons (x : ascii) (a b : string) :
  String x a +:+ b = String x (a +:+ b).
Proof. reflexivity. Qed.

Lemma string_app_nil (b : string) : "" +:+ b = b.
Proof. reflexivity. Qed.

Lemma string_app_assoc (a b c : string) : (a +:+ b) +:+ c = a +:+ (b +:+ c).
Proof.
  induction a as [|x a IH]; [done|].
  by rewrite !string_app_cons, IH.
Qed.

Lemma startswith_app (a b : string) : Py.startswith (a +:+ b) a = true.
Proof.
  unfold Py.startswith. induction a as [|x a IH].
  - rewrite string_app_nil. by destruct b.
  - rewrite string_app_cons. simpl.
    destruct (ascii_dec x x); [done|congruence].
Qed.

Lemma drop_length_app (a b : string) : Py.drop (String.length a) (a +:+ b) = b.
Proof.
  induction a as [|x a IH]; [done|].
  rewrite string_app_cons. simpl. exact IH.
Qed.

(** ** The error exit installed by [make_parser] *)


Lemma same_settings_refl p : same_settings p p.
Proof. by repeat split. Qed.

Lemma same_settings_trans p1 p2 p3 :
  same_settings p1 p2 → same_settings p2 p3 → same_settings p1 p3.
Proof.
  intros (?&?&?&?&?) (?&?&?&?&?). repeat split; congruence.
Qed.

Lemma enter_inv p o p' :
  OptionParser._enter p o = Ok p' →
  same_settings p p' ∧
  OptionParser.option_list p' = OptionParser.option_list p ∧
  OptionParser.option_groups p' = OptionParser.option_groups p.
Proof.
  unfold OptionParser._enter.
  destruct (OptionParser._check_conflict p o); simpl; [|done].
  intros [= <-]. by repeat split.
Qed.

Lemma add_option_inv p o p' :
  OptionParser.add_option p o = Ok p' →
  same_settings p p' ∧
  OptionParser.option_list p' = OptionParser.option_list p ++ [o] ∧
  OptionParser.option_groups p' = OptionParser.option_groups p.
Proof.
  unfold OptionParser.add_option.
  destruct (OptionParser._enter p o) as [q|] eqn:He; simpl; [|done].
  apply enter_inv in He as ((?&?&?&?&?) & Hl & Hg).
  intros [= <-]. simpl. rewrite Hl, Hg. by repeat split.
Qed.

Lemma group_add_option_inv p g o p' g' :
  OptionParser.group_add_option p g o = Ok (p', g') →
  same_settings p p' ∧
  OptionParser.option_list p' = OptionParser.option_list p ∧
  OptionParser.option_groups p' = OptionParser.option_groups p ∧
  OptionGroup.title g' = OptionGroup.title g ∧
  OptionGroup.description g' = OptionGroup.description g ∧
  OptionGroup.option_list g' = OptionGroup.option_list g ++ [o].
Proof.
  unfold OptionParser.group_add_option.
  destruct (OptionParser._enter p o) as [q|] eqn:He; simpl; [|done].
  apply enter_inv in He as (? & Hl & Hg).
  intros [= <- <-]. simpl. by split_and!.
Qed.

Section synthesis_frame.

Variable deref : ref → AbstractOption.t.
Variable deref_group : gref → Group.t.

Lemma add_options_inv popts : ∀ p p',
  add_options p popts = Ok p' →
  same_settings p p' ∧
  OptionParser.option_list p' = OptionParser.option_list p ++ popts ∧
  OptionParser.option_groups p' = OptionParser.option_groups p.
Proof.
  induction popts as [|o popts IH]; intros p p'; simpl.
  - intros [= <-]. rewrite app_nil_r. split; [apply same_settings_refl|done].
  - destruct (OptionParser.add_option p o) as [q|] eqn:Ha; simpl; [|done].
    intros Hr. apply add_option_inv in Ha as (Hs & Hl & Hg).
    apply IH in Hr as (Hs' & Hl' & Hg').
    split; [by eapply same_settings_trans|].
    rewrite Hl', Hl, Hg', Hg, <- (assoc_L (++)). done.
Qed.

Lemma group_add_options_inv popts : ∀ p g p' g',
  group_add_options p g popts = Ok (p', g') →
  same_settings p p' ∧
  OptionParser.option_list p' = OptionParser.option_list p ∧
  OptionParser.option_groups p' = OptionParser.option_groups p ∧
  OptionGroup.title g' = OptionGroup.title g ∧
  OptionGroup.description g' = OptionGroup.description g ∧
  OptionGroup.option_list g' = OptionGroup.option_list g ++ popts.
Proof.
  induction popts as [|o popts IH]; intros p g p' g'; simpl.
  - intros [= <- <-]. rewrite app_nil_r.
    split; [apply same_settings_refl|done].
  - destruct (OptionParser.group_add_option p g o) as [[q h]|] eqn:Ha;
      simpl; [|done].
    intros Hr. apply group_add_option_inv in Ha as (Hs & Hl & Hg & Ht & Hd & Ho).
    apply IH in Hr as (Hs' & Hl' & Hg' & Ht' & Hd' & Ho').
    split; [by eapply same_settings_trans|].
    rewrite Hl', Hl, Hg', Hg, Ht', Ht, Hd', Hd, Ho', Ho, <- (assoc_L (++)). done.
Qed.


Lemma fill_inv buckets : ∀ p groups p' groups',
  fill deref_group p buckets groups = Ok (p', groups') →
  same_settings p p' ∧
  OptionParser.option_list p' =
    OptionParser.option_list p ++ direct_options buckets ∧
  OptionParser.option_groups p' = OptionParser.option_groups p ∧
  groups' = groups ++ group_buckets deref_group buckets.
Proof.
  induction buckets as [|[og optlist] buckets IH]; intros p groups p' groups'.
  - simpl. intros [= <- <-]. rewrite !app_nil_r.
    split; [apply same_settings_refl|done].
  - simpl. destruct og as [g|].
    + unfold Group.makeGroup, OptionGroup.__init__.
      destruct (group_add_options _ _ _) as [[q h]|] eqn:Ha; simpl; [|done].
      intros Hr. apply group_add_options_inv in Ha as (Hs & Hl & Hg & Ht & Hd & Ho).
      apply IH in Hr as (Hs' & Hl' & Hg' & ->).
      split; [by eapply same_settings_trans|].
      rewrite Hl', Hl, Hg', Hg, <- (assoc_L (++)). repeat split; try done.
      unfold group_buckets at 2. simpl. fold (group_buckets deref_group buckets).
      unfold bucket_group. simpl in *. destruct h; simpl in *; congruence.
    + destruct (add_options _ _) as [q|] eqn:Ha; simpl; [|done].
      intros Hr. apply add_options_inv in Ha as (Hs & Hl & Hg).
      apply IH in Hr as (Hs' & Hl' & Hg' & ->).
      split; [by eapply same_settings_trans|].
      unfold direct_options. simpl. fold (direct_options buckets).
      rewrite Hl', Hl, Hg', Hg, <- (assoc_L (++)). done.
Qed.

Lemma add_option_groups_inv gs : ∀ p,
  let p' := foldl OptionParser.add_option_group p gs in
  same_settings p p' ∧
  OptionParser.option_list p' = OptionParser.option_list p ∧
  OptionParser.option_groups p' = OptionParser.option_groups p ++ gs.
Proof.
  induction gs as [|g gs IH]; intros p; simpl.
  - rewrite app_nil_r. split; [apply same_settings_refl|done].
  - destruct (IH (OptionParser.add_option_group p g)) as (Hs & Hl & Hg).
    split; [|split].
    + eapply same_settings_trans; [|exact Hs]. by repeat split.
    + rewrite Hl. done.
    + rewrite Hg. simpl. by rewrite <- (assoc_L (++)).
Qed.


(** [make_parser] in stages: the bare parser, the buckets, the options
    added to the parser and the sorted groups. *)
Lemma make_parser_from_inv optinfo kw p :
  make_parser_from deref deref_group optinfo kw = Ok p →
  ∃ p0 optlists,
    bare_parser kw = Ok p0 ∧
    collect deref (make_optmap optinfo) optinfo ∅ ∅ = Ok optlists ∧
    same_settings p0 p ∧
    OptionParser.option_list p =
      OptionParser.option_list p0 ++ direct_options (map_to_list optlists) ∧
    OptionParser.option_groups p =
      OptionParser.option_groups p0 ++
      (sort_keyed (group_buckets deref_group (map_to_list optlists))).*2.
Proof.
  unfold make_parser_from, bare_parser.
  destruct (OptionParser.__init__ _ _ _ _) as [q|] eqn:Hq; simpl; [|done].
  destruct (collect _ _ _ _ _) as [optlists|] eqn:Hc; simpl; [|done].
  destruct (fill _ _ _ _) as [[p1 groups]|] eqn:Hf; simpl; [|done].
  intros [= <-]. eexists _, optlists. split; [done|]. split; [done|].
  apply fill_inv in Hf as (Hs & Hl & Hg & ->). simpl in *.
  destruct (add_option_groups_inv (sort_keyed (group_buckets deref_group (map_to_list optlists))).*2 p1)
    as (Hs' & Hl' & Hg').
  split; [by eapply same_settings_trans|].
  rewrite Hl', Hl, Hg', Hg. done.
Qed.

Lemma bare_parser_inv kw p0 :
  bare_parser kw = Ok p0 →
  OptionParser.exit p0 = _exit_parser (default "" (kw_prog kw) +:+ ":") ∧
  OptionParser.prog p0 = default "" (kw_prog kw) ∧
  OptionParser.allow_interspersed_args p0 =
    default false (kw_allow_interspersed_args kw) ∧
  OptionParser.option_groups p0 = [] ∧
  (OptionParser.option_list p0 = [] ∨
   ∃ h, OptionParser.option_list p0 = [h] ∧
        Option.callback h = None ∧
        Option.opt_strings h = ["-h"; "--help"]).
Proof.
  unfold bare_parser, OptionParser.__init__.
  destruct (default false (kw_add_help_option kw)).
  - vm_compute Option.__init__.
    unfold OptionParser.add_option, OptionParser._enter,
      OptionParser._check_conflict. simpl.
    intros [= <-].
    destruct (default false (kw_allow_interspersed_args kw)); simpl;
      (repeat split; try done); right; eexists; by repeat split.
  - simpl. intros [= <-].
    destruct (default false (kw_allow_interspersed_args kw)); simpl;
      (repeat split; try done); by left.
Qed.

End synthesis_frame.

Lemma make_parser_from_exit deref deref_group optinfo kw p :
  make_parser_from deref deref_group optinfo kw = Ok p →
  OptionParser.exit p = _exit_parser (default "" (kw_prog kw) +:+ ":") ∧
  OptionParser.prog p = default "" (kw_prog kw).
Proof.
  intros Hp. apply make_parser_from_inv in Hp
    as (p0 & optlists & Hb & _ & (He & Hg & _) & _).
  apply bare_parser_inv in Hb as (He0 & Hg0 & _). split; congruence.
Qed.

(** The message of a scanner error always starts with the program name
    and a colon, which [_exit_parser] removes. *)
Lemma exit_parser_error (prog msg : string) (status : Z) :
  _exit_parser (prog +:+ ":") status
    (Some (prog +:+ ": error: " +:+ msg +:+ Py.nl)) =
  Raise (InvocationError (Py.strip (" error: " +:+ msg +:+ Py.nl))).
Proof.
  assert (Hm : prog +:+ ": error: " +:+ msg +:+ Py.nl =
               (prog +:+ ":") +:+ (" error: " +:+ msg +:+ Py.nl)).
  { by rewrite string_app_assoc. }
  rewrite Hm.
  destruct ((prog +:+ ":") +:+ " error: " +:+ msg +:+ Py.nl) as [|c m] eqn:Hs.
  - destruct prog; discriminate Hs.
  - unfold _exit_parser. rewrite <- Hs.
    by rewrite startswith_app, drop_length_app.
Qed.

(** C4, as amended: the parser built by [make_parser] has
    [_exit_parser] as its [exit].  Called with a non-empty message it
    raises [InvocationError] with the message stripped of the program
    prefix and of surrounding whitespace, whatever the status; called
    without a message (or with an empty one) and a non-zero status it
    raises [SystemExit] with that status; called without a message and
    with status zero it raises nothing and returns.  Every error the
    scanner reports therefore becomes an [InvocationError]. *)
Theorem make_parser_exit (deref : ref → AbstractOption.t)
    (deref_group : gref → Group.t) (optinfo : list (string * entry))
    (kw : parser_kw) (p : OptionParser.t) :
  make_parser_from deref deref_group optinfo kw = Ok p →
  let prog := default "" (kw_prog kw) +:+ ":" in
  OptionParser.exit p = _exit_parser prog ∧
  (∀ status c m,
     OptionParser.exit p status (Some (String c m)) =
     Raise (InvocationError
              (Py.strip (if Py.startswith (String c m) prog
                         then Py.drop (String.length prog) (String c m)
                         else String c m)))) ∧
  (∀ status, status ≠ 0%Z →
     OptionParser.exit p status None = Raise (SystemExit status) ∧
     OptionParser.exit p status (Some "") = Raise (SystemExit status)) ∧
  OptionParser.exit p 0 None = Ok tt ∧
  (∀ msg st,
     OptionParser.error p msg st =
     (Raise (InvocationError (Py.strip (" error: " +:+ msg +:+ Py.nl))), st)) ∧
  (∀ invoke st, ∃ st',
     OptionParser.process invoke p
       {| Option._short_opts := ["-h"]; Option._long_opts := ["--help"];
          Option.action := Option.help_action; Option.type := None;
          Option.dest := None; Option.nargs := 0; Option.metavar := None;
          Option.help := None; Option.callback := None;
          Option.callback_args := None |} "--help" RawNone st = (Ok tt, st')).
Proof.
  intros Hp prog. apply make_parser_from_exit in Hp as [He Hg].
  split; [done|]. rewrite He. split; [done|]. split.
  { intros status Hs. unfold _exit_parser.
    by rewrite !bool_decide_eq_false_2. }
  split; [done|]. split.
  - intros msg st. unfold OptionParser.error, lift. rewrite He, Hg.
    by rewrite exit_parser_error.
  - intros invoke st. eexists. unfold OptionParser.process. simpl.
    unfold mbind, M_bind, OptionParser.print_help, modify, lift.
    rewrite He. reflexivity.
Qed.

Lemma make_parser_exit_witness :
  ∃ p, make_parser_from (option_at Examples.name_class.1)
         (group_at Examples.name_class.1)
         (OptionsRegistry.items Examples.name_class.2) default_kw = Ok p ∧
       OptionParser.exit p 2 (Some ": error: no such option: -x") =
         Raise (InvocationError "error: no such option: -x") ∧
       OptionParser.exit p 2 None = Raise (SystemExit 2).
Proof.
  destruct (make_parser_from (option_at Examples.name_class.1)
              (group_at Examples.name_class.1)
              (OptionsRegistry.items Examples.name_class.2) default_kw)
    as [p|e] eqn:Hp; [|by vm_compute in Hp].
  exists p. split; [reflexivity|].
  destruct (make_parser_exit _ _ _ _ p Hp) as (_ & Hmsg & Hstatus & _).
  split.
  - rewrite Hmsg. reflexivity.
  - apply Hstatus. discriminate.
Defined.

(** C4, as stated, fails: reported with status zero and no message, the
    exit installed by [make_parser] raises nothing. *)
Lemma exit_parser_zero_status_returns :
  _exit_parser ":" 0 None = Ok tt ∧
  ¬ (∀ status, _exit_parser ":" status None = Raise (SystemExit status)).
Proof.
  split; [reflexivity|]. intros H. specialize (H 0%Z). discriminate H.
Qed.

(** ** Conversion, repetition and the callbacks *)

(** C6, as amended: [convert] returns the configured fixed value
    whatever the raw text is; without one it returns what the type
    converter returns, and when the converter raises [ValueError] it
    raises [InvocationError] with a message made of the option, the
    [repr] of the raw text and the metavar; any other exception that the
    converter raises reaches the caller unchanged.  Scanning
    [--port notanumber] for a [Set] option with the converter [int]
    raises such an [InvocationError], whose message contains the option
    name and the invalid text. *)
Theorem convert_spec (deref : ref → AbstractOption.t) (self : ref)
    (option : Option.t) (rawText : raw) :
  (∀ v, AbstractOption.value (deref self) = Some v →
        AbstractOption.convert deref self option rawText = Ok v) ∧
  (∀ ty, AbstractOption.value (deref self) = None →
         AbstractOption.type (deref self) = Some ty →
     (∀ v, tp_call ty rawText = Ok v →
           AbstractOption.convert deref self option rawText = Ok v) ∧
     (∀ m, tp_call ty rawText = Raise (ValueError m) →
           AbstractOption.convert deref self option rawText =
           Raise (InvocationError
                    (Option.__str__ option +:+ ": " +:+
                     AbstractOption.repr_raw rawText +:+ " is not a valid " +:+
                     AbstractOption.str_opt
                       (AbstractOption.metavar (deref self))))) ∧
     (∀ e, tp_call ty rawText = Raise e → (∀ m, e ≠ ValueError m) →
           AbstractOption.convert deref self option rawText = Raise e)) ∧
  (let msg := "--port: 'notanumber' is not a valid INT" in
   fst <$> parse (option_at Examples.port_class.1)
             (group_at Examples.port_class.1) 2 Examples.port_class.2
             ∅ ∅ ["--port"; "notanumber"] default_kw =
     Some (Raise (InvocationError msg)) ∧
   Py.contains "--port" msg = true ∧ Py.contains "notanumber" msg = true).
Proof.
  split; [|split].
  - intros v Hv. unfold AbstractOption.convert. by rewrite Hv.
  - intros ty Hv Hty. unfold AbstractOption.convert. rewrite Hv, Hty.
    split; [intros v ->|split; [intros m ->|]]; try done.
    intros e -> Hne. destruct e; try done. by destruct (Hne msg).
  - vm_compute. done.
Qed.

Lemma convert_spec_witness :
  AbstractOption.convert (option_at Examples.port_class.1) 0
    {| Option._short_opts := []; Option._long_opts := ["--port"];
       Option.action := Option.callback_action; Option.type := Some "string";
       Option.dest := Some "port"; Option.nargs := 1;
       Option.metavar := Some "INT"; Option.help := None;
       Option.callback := Some 0; Option.callback_args := Some "port" |}
    (RawStr "4x2") =
  Raise (InvocationError "--port: '4x2' is not a valid INT").
Proof.
  destruct (convert_spec (option_at Examples.port_class.1) 0
              {| Option._short_opts := []; Option._long_opts := ["--port"];
                 Option.action := Option.callback_action;
                 Option.type := Some "string";
                 Option.dest := Some "port"; Option.nargs := 1;
                 Option.metavar := Some "INT"; Option.help := None;
                 Option.callback := Some 0;
                 Option.callback_args := Some "port" |}
              (RawStr "4x2")) as (_ & Hconv & _).
  destruct (Hconv py_int) as (_ & Hfail & _); [reflexivity|reflexivity|].
  rewrite (Hfail "invalid literal for int() with base 10: '4x2'");
    reflexivity.
Defined.

(** C6, as stated, fails: a converter that fails with an exception other
    than [ValueError] makes [convert], and the scan that calls it, fail
    with that exception and not with [InvocationError]. *)
Lemma convert_failure_escapes :
  tp_call Examples.sixth (RawStr "abc") =
    Raise (IndexError "string index out of range") ∧
  fst <$> parse (option_at Examples.mid_class.1)
            (group_at Examples.mid_class.1) 2 Examples.mid_class.2
            ∅ ∅ ["--mid"; "abc"] default_kw =
    Some (Raise (IndexError "string index out of range")) ∧
  ¬ (∀ (deref : ref → AbstractOption.t) self option rawText ty e,
       AbstractOption.value (deref self) = None →
       AbstractOption.type (deref self) = Some ty →
       tp_call ty rawText = Raise e →
       ∃ msg, AbstractOption.convert deref self option rawText =
              Raise (InvocationError msg)).
Proof.
  split; [reflexivity|]. split; [by vm_compute|].
  intros H.
  destruct (H (option_at Examples.mid_class.1) 0
              {| Option._short_opts := []; Option._long_opts := ["--mid"];
                 Option.action := Option.callback_action;
                 Option.type := Some "string"; Option.dest := Some "mid";
                 Option.nargs := 1; Option.metavar := Some "<LAMBDA>";
                 Option.help := None; Option.callback := Some 0;
                 Option.callback_args := Some "mid" |}
              (RawStr "abc") Examples.sixth
              (IndexError "string index out of range"))
    as [msg Hmsg]; try reflexivity.
  by vm_compute in Hmsg.
Qed.

(** [check_repeat] changes nothing but the use counts. *)
Lemma check_repeat_frame deref self option st r st' :
  AbstractOption.check_repeat deref self option st = (r, st') →
  values st' = values st ∧ heap st' = heap st ∧ rargs st' = rargs st ∧
  largs st' = largs st ∧ stdout st' = stdout st.
Proof.
  unfold AbstractOption.check_repeat.
  destruct (AbstractOption.repeatable (deref self)).
  - by intros [= <- <-].
  - unfold mbind, M_bind, get, modify, raise, mret, M_ret. simpl.
    destruct (Nat.ltb 1 _); by intros [= <- <-].
Qed.

Lemma check_repeat_repeatable deref self option st :
  AbstractOption.repeatable (deref self) = true →
  AbstractOption.check_repeat deref self option st = (Ok tt, st).
Proof. intros H. unfold AbstractOption.check_repeat. by rewrite H. Qed.

(** C10: [Append.callback] never assigns an attribute of the target.
    When the target has no attribute of the declared name and the
    repeat check passes, the method [append] is looked up on the raw
    argument value, which fails with [AttributeError], not
    [InvocationError], and leaves the target as it was.  When the
    attribute holds a list, the converted value is appended to that list
    object in place. *)
Theorem append_callback_in_place (deref : ref → AbstractOption.t)
    (self : ref) (option : Option.t) (opt : string) (value : raw)
    (attrname : Datatypes.option string) (st : pstate) :
  let r := Append_callback deref self option opt value attrname st in
  values r.2 = values st ∧
  (∀ a st1, attrname = Some a → values st !! a = None →
     AbstractOption.check_repeat deref self option st = (Ok tt, st1) →
     r = (Raise (AttributeError
                   ("'" +:+ raw_type_name value +:+
                    "' object has no attribute 'append'")), st1) ∧
     heap st1 = heap st) ∧
  (∀ a l st1 v, attrname = Some a → values st !! a = Some (VList l) →
     AbstractOption.check_repeat deref self option st = (Ok tt, st1) →
     AbstractOption.convert deref self option value = Ok v →
     r.1 = Ok tt ∧
     heap r.2 = <[l := default [] (heap st !! l) ++ [v]]> (heap st)).
Proof.
  unfold Append_callback, mbind, M_bind, get.
  destruct (AbstractOption.check_repeat deref self option st) as [c st1] eqn:Hc.
  pose proof (check_repeat_frame _ _ _ _ _ _ Hc) as (Hv & Hh & _).
  simpl. split; [|split].
  - destruct c as [[]|e]; [|done].
    destruct attrname as [a|]; [|done].
    destruct (values st1 !! a) as [[| | | |l]|]; try done.
    unfold lift. destruct (AbstractOption.convert _ _ _ _); done.
  - intros a st2 -> Ha [= -> <-]. rewrite Hv, Ha. done.
  - intros a l st2 v -> Ha [= -> <-] Hconv. rewrite Hv, Ha.
    unfold lift. rewrite Hconv. simpl. by rewrite Hh.
Qed.

Lemma append_callback_in_place_witness :
  Append_callback (option_at Examples.db_append_class.1) 0
    {| Option._short_opts := []; Option._long_opts := ["--db"];
       Option.action := Option.callback_action; Option.type := Some "string";
       Option.dest := Some "db"; Option.nargs := 1;
       Option.metavar := Some "STR"; Option.help := None;
       Option.callback := Some 0; Option.callback_args := Some "db" |}
    "--db" (RawStr "x") (Some "db") (new_scan ∅ ∅) =
  (Raise (AttributeError "'str' object has no attribute 'append'"),
   new_scan ∅ ∅).
Proof.
  destruct (append_callback_in_place (option_at Examples.db_append_class.1) 0
    {| Option._short_opts := []; Option._long_opts := ["--db"];
       Option.action := Option.callback_action; Option.type := Some "string";
       Option.dest := Some "db"; Option.nargs := 1;
       Option.metavar := Some "STR"; Option.help := None;
       Option.callback := Some 0; Option.callback_args := Some "db" |}
    "--db" (RawStr "x") (Some "db") (new_scan ∅ ∅)) as (_ & Hmissing & _).
  destruct (Hmissing "db" (new_scan ∅ ∅)) as [Hr _];
    [reflexivity|reflexivity|reflexivity|].
  exact Hr.
Defined.

(** When the repeat check raises, the callbacks of [Set] and [Handler]
    raise the same exception and do nothing else. *)
Lemma set_callback_repeated deref self option opt value attrname st e st' :
  AbstractOption.check_repeat deref self option st = (Raise e, st') →
  Set_callback deref self option opt value attrname st = (Raise e, st') ∧
  Handler_callback deref self option opt value attrname st = (Raise e, st').
Proof.
  intros Hc. unfold Set_callback, Handler_callback, mbind, M_bind.
  by rewrite Hc.
Qed.

(** C5: for a descriptor that is not repeatable, [check_repeat] counts
    the use on the parser; it passes when the descriptor was not used
    before in this scan and raises [InvocationError] (can only be used
    once) when it was, and so do the callbacks of [Set] and [Handler],
    which are not repeatable unless told otherwise.  Scanning
    [--db x --db y] raises that error for a [Set] option and succeeds for
    an [Append] option, whose list then holds [x] and [y]; the counts
    belong to the parser made for one call of [parse], so a second call
    starts without them. *)
Theorem check_repeat_once (deref : ref → AbstractOption.t) (self : ref)
    (option : Option.t) (st : pstate) :
  AbstractOption.repeatable (deref self) = false →
  let counts := default ∅ (use_counts st) in
  let n := default 0 (counts !! self) in
  let st' := set_use_counts (Some (<[self := n + 1]> counts)) st in
  let once := InvocationError (Option.__str__ option +:+ " can only be used once") in
  AbstractOption.check_repeat deref self option st =
    (if bool_decide (n = 0) then Ok tt else Raise once, st') ∧
  (n ≠ 0 → ∀ opt value attrname,
     Set_callback deref self option opt value attrname st = (Raise once, st') ∧
     Handler_callback deref self option opt value attrname st = (Raise once, st')) ∧
  (∀ k names kw c o c',
     k = KSet ∨ k = KHandler → kw_repeatable kw = None →
     AbstractOption.__init__ k names kw c = Ok (o, c') →
     AbstractOption.repeatable o = false) ∧
  (fst <$> parse (option_at Examples.db_set_class.1)
             (group_at Examples.db_set_class.1) 3 Examples.db_set_class.2
             ∅ ∅ ["--db"; "x"; "--db"; "y"] default_kw =
     Some (Raise (InvocationError "--db can only be used once"))) ∧
  (∃ st1, parse (option_at Examples.db_append_class.1)
            (group_at Examples.db_append_class.1) 3 Examples.db_append_class.2
            {["db" := VList 0]} {[0 := []]} ["--db"; "x"; "--db"; "y"]
            default_kw = Some (Ok [], st1) ∧
          values st1 !! "db" = Some (VList 0) ∧
          heap st1 !! 0 = Some [VStr "x"; VStr "y"]) ∧
  (∃ st1 st2,
     parse (option_at Examples.db_set_class.1)
       (group_at Examples.db_set_class.1) 3 Examples.db_set_class.2
       ∅ ∅ ["--db"; "x"] default_kw = Some (Ok [], st1) ∧
     parse (option_at Examples.db_set_class.1)
       (group_at Examples.db_set_class.1) 3 Examples.db_set_class.2
       (values st1) (heap st1) ["--db"; "y"] default_kw = Some (Ok [], st2) ∧
     values st2 !! "db" = Some (VStr "y")).
Proof.
  intros Hrep counts n st' once.
  assert (Hcheck : AbstractOption.check_repeat deref self option st =
            (if bool_decide (n = 0) then Ok tt else Raise once, st')).
  { unfold AbstractOption.check_repeat. rewrite Hrep.
    unfold mbind, M_bind, get, modify, raise, mret, M_ret. simpl.
    fold counts. fold n. subst st'.
    destruct n as [|m]; simpl; [done|].
    assert (Hlt : Nat.ltb 1 (S (m + 1)) = true) by (apply Nat.ltb_lt; lia).
    by rewrite Hlt. }
  split; [exact Hcheck|]. split; [|split; [|split; [|split]]].
  - intros Hn opt value attrname. apply set_callback_repeated.
    rewrite Hcheck. by rewrite bool_decide_eq_false_2.
  - intros k names kw c o c' Hk Hkw Hinit.
    apply init_ok_inv in Hinit as (_ & _ & _ & _ & _ & _ & -> & _).
    rewrite Hkw. by destruct Hk as [-> | ->].
  - vm_compute. done.
  - eexists. vm_compute. done.
  - eexists _, _. split; [vm_compute; reflexivity|].
    split; [vm_compute; reflexivity|]. vm_compute. done.
Qed.

Lemma check_repeat_once_witness :
  AbstractOption.check_repeat (option_at Examples.db_set_class.1) 0
    {| Option._short_opts := []; Option._long_opts := ["--db"];
       Option.action := Option.callback_action; Option.type := Some "string";
       Option.dest := Some "db"; Option.nargs := 1;
       Option.metavar := Some "STR"; Option.help := None;
       Option.callback := Some 0; Option.callback_args := Some "db" |}
    (set_use_counts (Some {[0 := 1]}) (new_scan ∅ ∅)) =
  (Raise (InvocationError "--db can only be used once"),
   set_use_counts (Some (<[0 := 2]> {[0 := 1]})) (new_scan ∅ ∅)).
Proof.
  destruct (check_repeat_once (option_at Examples.db_set_class.1) 0
    {| Option._short_opts := []; Option._long_opts := ["--db"];
       Option.action := Option.callback_action; Option.type := Some "string";
       Option.dest := Some "db"; Option.nargs := 1;
       Option.metavar := Some "STR"; Option.help := None;
       Option.callback := Some 0; Option.callback_args := Some "db" |}
    (set_use_counts (Some {[0 := 1]}) (new_scan ∅ ∅)))
    as [Hcheck _]; [reflexivity|].
  exact Hcheck.
Defined.

(** The scan gives the same result with more fuel. *)
Lemma process_args_fuel_mono invoke p fuel : ∀ st r,
  OptionParser._process_args invoke p fuel st = Some r →
  ∀ fuel', fuel ≤ fuel' →
  OptionParser._process_args invoke p fuel' st = Some r.
Proof.
  induction fuel as [|fuel IH]; intros st r; [done|].
  intros Hr [|fuel'] Hle; [lia|]. revert Hr. simpl.
  destruct (rargs st) as [|arg rest]; [done|].
  destruct (String.eqb arg "--"); [done|].
  destruct (Py.startswith arg "--").
  { destruct (OptionParser._process_long_opt invoke p st) as [[[]|e] st'];
      [|done]. intros Hr. apply (IH _ _ Hr). lia. }
  destruct (Py.startswith arg "-" && Nat.ltb 1 (String.length arg))%bool.
  { destruct (OptionParser._process_short_opts invoke p st) as [[[]|e] st'];
      [|done]. intros Hr. apply (IH _ _ Hr). lia. }
  destruct (OptionParser.allow_interspersed_args p); [|done].
  intros Hr. apply (IH _ _ Hr). lia.
Qed.

Lemma parse_fuel_mono deref deref_group fuel registry vals h args kw r :
  parse deref deref_group fuel registry vals h args kw = Some r →
  ∀ fuel', fuel ≤ fuel' →
  parse deref deref_group fuel' registry vals h args kw = Some r.
Proof.
  unfold parse. destruct (make_parser _ _ _ _) as [p|e]; [|done].
  unfold OptionParser.parse_args. intros Hr fuel' Hle.
  destruct (OptionParser._process_args _ p fuel _) as [r0|] eqn:H0; [|done].
  by rewrite (process_args_fuel_mono _ _ _ _ _ H0 fuel' Hle).
Qed.

(** C9: for a class with a [Set] option [--name] whose converter is
    [str], and with the default configuration, [parse] applied to
    [--name Bob extra] returns [extra] as the only leftover argument
    and leaves the attribute [name] of the target equal to [Bob],
    whatever attributes the target had before. *)
Theorem parse_name_round_trip (vals : gmap string pyval)
    (h : gmap loc (list pyval)) (fuel : nat) :
  ∃ st,
    parse (option_at Examples.name_class.1) (group_at Examples.name_class.1)
      (2 + fuel) Examples.name_class.2 vals h ["--name"; "Bob"; "extra"]
      default_kw = Some (Ok ["extra"], st) ∧
    values st = <["name" := VStr "Bob"]> vals ∧
    heap st = h ∧
    values st !! "name" = Some (VStr "Bob").
Proof.
  exists {| values := <["name" := VStr "Bob"]> vals; heap := h;
            rargs := ["extra"]; largs := [];
            use_counts := Some {[0 := 1]}; stdout := [] |}.
  split.
  - apply (parse_fuel_mono _ _ 2); [|lia]. vm_compute. reflexivity.
  - simpl. split; [reflexivity|]. split; [reflexivity|].
    apply lookup_insert_eq.
Qed.

(** ** Parser synthesis *)

Lemma set_opt_strings_elem opts : ∀ short long short' long',
  Option._set_opt_strings opts short long = Ok (short', long') →
  ∀ x, x ∈ short' ++ long' ↔ x ∈ short ++ long ∨ x ∈ opts.
Proof.
  induction opts as [|opt opts IH]; intros short long short' long'; simpl.
  - intros [= <- <-] x. rewrite elem_of_nil. tauto.
  - destruct opt as [|a [|b [|c s]]]; try done.
    + destruct (Ascii.eqb a "-" && negb (Ascii.eqb b "-"))%bool; [|done].
      intros H x. rewrite (IH _ _ _ _ H x).
      rewrite !elem_of_app, !elem_of_cons, elem_of_nil. tauto.
    + destruct (Ascii.eqb a "-" && Ascii.eqb b "-" && negb (Ascii.eqb c "-"))%bool;
        [|done].
      intros H x. rewrite (IH _ _ _ _ H x).
      rewrite !elem_of_app, !elem_of_cons, elem_of_nil. tauto.
Qed.

Lemma option_init_inv opts act ty n mv hp cb args o :
  Option.__init__ opts act ty n mv hp cb args = Ok o →
  Option.callback o = cb ∧ Option.callback_args o = args ∧
  Option.action o = act ∧ Option.type o = ty ∧ Option.nargs o = n ∧
  Option.metavar o = mv ∧ Option.help o = hp ∧
  ∀ x, x ∈ Option.opt_strings o ↔ x ≠ "" ∧ x ∈ opts.
Proof.
  unfold Option.__init__.
  set (opts' := List.filter _ opts).
  assert (Hf : ∀ x, x ∈ opts' ↔ x ≠ "" ∧ x ∈ opts).
  { intros x. subst opts'. rewrite !list_elem_of_In, filter_In.
    rewrite negb_true_iff, String.eqb_neq. tauto. }
  destruct opts' as [|o1 opts1] eqn:Ho; [done|]. rewrite <- Ho in *.
  destruct (Option._set_opt_strings opts' [] []) as [[short long]|] eqn:Hs;
    simpl; [|done].
  pose proof (set_opt_strings_elem _ _ _ _ _ Hs) as He.
  assert (Hx : ∀ x, x ∈ short ++ long ↔ x ≠ "" ∧ x ∈ opts).
  { intros x. rewrite He, <- Hf. simpl. rewrite elem_of_nil. tauto. }
  destruct act, cb; try done; intros [= <-]; simpl; by split_and!.
Qed.

Section synthesis_facts.

Variable deref : ref → AbstractOption.t.
Variable deref_group : gref → Group.t.

Lemma makeOption_inv d a optmap key popt :
  AbstractOption.makeOption deref d a (Some optmap) = Ok (key, popt) →
  key = popt_key deref popt ∧
  Option.callback popt = Some d ∧ Option.callback_args popt = a ∧
  Option.action popt = Option.callback_action ∧
  ∀ name, name ∈ Option.opt_strings popt ↔
          name ≠ "" ∧ name ∈ AbstractOption.option_names (deref d) ∧
          optmap !! name = Some d.
Proof.
  clear deref_group. unfold AbstractOption.makeOption.
  destruct (Option.__init__ _ _ _ _ _ _ _ _) as [o|] eqn:Ho; simpl; [|done].
  intros [= <- <-].
  apply option_init_inv in Ho as (Hcb & Hargs & Hact & _ & _ & _ & _ & Hx).
  unfold popt_key. rewrite Hcb. split_and!; try done.
  intros name. rewrite Hx, list_elem_of_filter. tauto.
Qed.

Lemma make_optmap_acc optinfo : ∀ (m : gmap string ref) k d,
  NoDup optinfo.*1 → (∀ k', k' ∈ optinfo.*1 → m !! k' = None) →
  foldl (λ (m : gmap string ref) '((k, (a, opt)) : string * entry),
           match opt with
           | Some o => <[k := o]> m
           | None => m
           end) m optinfo !! k = Some d ↔
  m !! k = Some d ∨ ∃ a, (k, (a, Some d)) ∈ optinfo.
Proof.
  induction optinfo as [|[k0 [a0 o0]] optinfo IH]; intros m k d Hnd Hm; simpl.
  - split; [by left|]. intros [?|[a Ha]]; [done|]. by apply elem_of_nil in Ha.
  - simpl in Hnd. apply NoDup_cons in Hnd as [Hk0 Hnd].
    rewrite IH; [|done|].
    + destruct o0 as [o|].
      * rewrite lookup_insert. case_decide as Hk.
        -- subst k0. split.
           ++ intros [[= ->]|[a Ha]]; [right; exists a0; left|].
              exfalso. apply Hk0. apply list_elem_of_fmap.
              by exists (k, (a, Some d)).
           ++ intros [Hmk|[a Ha]].
              ** rewrite Hm in Hmk; [done|]. simpl. left.
              ** apply elem_of_cons in Ha as [[= -> ->]|Ha]; [by left|].
                 exfalso. apply Hk0. apply list_elem_of_fmap.
                 by exists (k, (a, Some d)).
        -- split.
           ++ intros [?|[a Ha]]; [by left|right; exists a; by right].
           ++ intros [?|[a Ha]]; [by left|].
              apply elem_of_cons in Ha as [[= -> _]|Ha]; [done|].
              right. by exists a.
      * split.
        -- intros [?|[a Ha]]; [by left|right; exists a; by right].
        -- intros [?|[a Ha]]; [by left|].
           apply elem_of_cons in Ha as [[=]|Ha]. right. by exists a.
    + intros k' Hk'. destruct o0 as [o|].
      * rewrite lookup_insert_ne; [apply Hm; simpl; by right|].
        intros ->. done.
      * apply Hm. simpl. by right.
Qed.

Lemma make_optmap_lookup optinfo k d :
  NoDup optinfo.*1 →
  make_optmap optinfo !! k = Some d ↔ ∃ a, (k, (a, Some d)) ∈ optinfo.
Proof.
  intros Hnd. unfold make_optmap. rewrite make_optmap_acc; [|done|done].
  rewrite lookup_empty. split; [intros [?|?]; done|by right].
Qed.

Lemma first_seen_spec optinfo : ∀ used,
  NoDup (first_seen optinfo used).*2 ∧
  (∀ d, d ∈ (first_seen optinfo used).*2 ↔
        (d ∉ used) ∧ (∃ k a, (k, (a, Some d)) ∈ optinfo)) ∧
  (∀ a d, (a, d) ∈ first_seen optinfo used →
          ∃ k, (k, (a, Some d)) ∈ optinfo).
Proof.
  clear deref deref_group.
  induction optinfo as [|[k0 [a0 [o|]]] optinfo IH]; intros used; simpl.
  - split; [constructor|]. split.
    + intros d. rewrite elem_of_nil. split; [done|].
      intros [_ (k & a & H)]. by apply elem_of_nil in H.
    + intros a d H. by apply elem_of_nil in H.
  - case_bool_decide as Hin.
    + destruct (IH used) as (Hnd & Hd & Ha). split; [done|]. split.
      * intros d. rewrite Hd. split.
        -- intros [? (k & a & H)]. split; [done|]. exists k, a. by right.
        -- intros [Hu (k & a & H)]. split; [done|].
           apply elem_of_cons in H as [[= -> -> ->]|H]; [done|]. by exists k, a.
      * intros a d H. destruct (Ha a d H) as [k Hk]. exists k. by right.
    + destruct (IH ({[o]} ∪ used)) as (Hnd & Hd & Ha). split; [|split].
      * simpl. apply NoDup_cons. split; [|done].
        rewrite Hd. intros [Hn _]. apply Hn.
        apply elem_of_union. left. by apply elem_of_singleton.
      * intros d. simpl. rewrite elem_of_cons, Hd. split.
        -- intros [->|[Hn (k & a & H)]].
           ++ split; [done|]. exists k0, a0. by left.
           ++ split; [|exists k, a; by right].
              intros Hu. apply Hn. apply elem_of_union. by right.
        -- intros [Hu (k & a & H)].
           destruct (decide (d = o)) as [->|Hne]; [by left|right].
           split.
           { rewrite elem_of_union, elem_of_singleton. tauto. }
           apply elem_of_cons in H as [[= -> -> ->]|H]; [done|]. by exists k, a.
      * intros a d H. apply elem_of_cons in H as [[= -> ->]|H].
        -- exists k0. by left.
        -- destruct (Ha a d H) as [k Hk]. exists k. by right.
  - destruct (IH used) as (Hnd & Hd & Ha). split; [done|]. split.
    + intros d. rewrite Hd. split.
      * intros [? (k & a & H)]. split; [done|]. exists k, a. by right.
      * intros [Hu (k & a & H)]. split; [done|].
        apply elem_of_cons in H as [[=]|H]. by exists k, a.
    + intros a d H. destruct (Ha a d H) as [k Hk]. exists k. by right.
Qed.

Lemma made_empty : made ∅ = [].
Proof. unfold made. by rewrite map_to_list_empty. Qed.

Lemma made_insert (lists : gmap (option gref) (list keyed)) g kp :
  made (<[g := default [] (lists !! g) ++ [kp]]> lists) ≡ₚ made lists ++ [kp].
Proof.
  unfold made. destruct (lists !! g) as [l|] eqn:Hg; simpl.
  - rewrite <- insert_delete_eq.
    etrans; [apply Permutation_flat_map, map_to_list_insert,
             lookup_delete_eq|].
    etrans; [|apply Permutation_app; [|reflexivity];
              apply Permutation_flat_map, (map_to_list_delete lists g l Hg)].
    simpl. rewrite <- !(assoc_L (++)). apply Permutation_app_head.
    apply Permutation_app_comm.
  - etrans; [apply Permutation_flat_map, map_to_list_insert, Hg|].
    simpl. apply Permutation_cons_append.
Qed.

Lemma collect_made optmap optinfo : ∀ used lists lists',
  collect deref optmap optinfo used lists = Ok lists' →
  (∃ new,
     Forall2 (λ ad kp, AbstractOption.makeOption deref ad.2 ad.1 (Some optmap)
                       = Ok kp)
             (first_seen optinfo used) new ∧
     made lists' ≡ₚ made lists ++ new) ∧
  (well_filed deref lists → well_filed deref lists').
Proof.
  clear deref_group.
  induction optinfo as [|[k0 [a0 [o|]]] optinfo IH]; intros used lists lists';
    simpl.
  - intros [= <-]. split; [|done]. exists []. split; [constructor|].
    by rewrite app_nil_r.
  - case_bool_decide as Hin; [apply IH|].
    destruct (AbstractOption.makeOption deref o a0 (Some optmap))
      as [[key popt]|] eqn:Hm; simpl; [|done].
    intros Hc. apply IH in Hc as [(new & Hf & Hp) Hw]. split.
    + exists ((key, popt) :: new). split; [by constructor|].
      rewrite Hp, made_insert, <- (assoc_L (++)). done.
    + intros Hl. apply Hw. intros g l.
      rewrite lookup_insert. case_decide as Hg.
      * intros [= <-]. apply Forall_app. split.
        -- destruct (lists !! AbstractOption.group (deref o)) as [l0|] eqn:Hl0;
             simpl; [|constructor].
           rewrite Hg in Hl0. by apply (Hl _ _ Hl0).
        -- apply Forall_singleton.
           apply makeOption_inv in Hm as (-> & Hcb & _). simpl.
           split; [done|]. by exists o.
      * apply Hl.
  - apply IH.
Qed.

Lemma buckets_options (bs : list (option gref * list keyed)) :
  direct_options bs ++
    flat_map OptionGroup.option_list (group_buckets deref_group bs).*2
  ≡ₚ (flat_map snd bs).*2.
Proof.
  induction bs as [|[[g|] l] bs IH]; [done| |].
  - unfold direct_options, group_buckets. simpl.
    fold (direct_options bs). fold (group_buckets deref_group bs).
    rewrite fmap_app, <- IH.
    unfold sort_keyed. rewrite (merge_sort_Permutation _ l).
    rewrite !(assoc (++)). apply Permutation_app_tail.
    apply Permutation_app_comm.
  - unfold direct_options, group_buckets. simpl.
    fold (direct_options bs). fold (group_buckets deref_group bs).
    rewrite fmap_app, <- IH.
    unfold sort_keyed. rewrite (merge_sort_Permutation _ l).
    by rewrite (assoc (++)).
Qed.

(** The options of the synthesized parser are those of the bare parser
    and one option for each descriptor of the registry. *)
Lemma make_parser_from_options optinfo kw p :
  make_parser_from deref deref_group optinfo kw = Ok p →
  ∃ p0 new,
    bare_parser kw = Ok p0 ∧
    Forall2 (λ ad kp, AbstractOption.makeOption deref ad.2 ad.1
                        (Some (make_optmap optinfo)) = Ok kp)
            (first_seen optinfo ∅) new ∧
    OptionParser.all_options p ≡ₚ OptionParser.option_list p0 ++ new.*2.
Proof.
  intros Hp. apply make_parser_from_inv in Hp
    as (p0 & optlists & Hb & Hc & _ & Hl & Hg).
  apply collect_made in Hc as [(new & Hf & Hm) _].
  exists p0, new. split; [done|]. split; [done|].
  apply bare_parser_inv in Hb as (_ & _ & _ & Hg0 & _).
  unfold OptionParser.all_options. rewrite Hl, Hg, Hg0. simpl.
  rewrite made_empty in Hm. simpl in Hm.
  rewrite <- (assoc (++)). apply Permutation_app_head.
  rewrite <- Hm. unfold made. rewrite <- buckets_options.
  apply Permutation_app_head. apply Permutation_flat_map.
  apply fmap_Permutation. unfold sort_keyed. apply merge_sort_Permutation.
Qed.

End synthesis_facts.

Lemma Forall2_elem_of_r {A B} (R : A → B → Prop) l k y :
  Forall2 R l k → y ∈ k → ∃ x, x ∈ l ∧ R x y.
Proof.
  induction 1 as [|x y' l k HR _ IH]; intros Hy.
  - by apply elem_of_nil in Hy.
  - apply elem_of_cons in Hy as [->|Hy].
    + exists x. split; [by left|done].
    + destruct (IH Hy) as (x' & Hx' & HR'). exists x'. split; [by right|done].
Qed.

Lemma Forall2_elem_of_l {A B} (R : A → B → Prop) l k x :
  Forall2 R l k → x ∈ l → ∃ y, y ∈ k ∧ R x y.
Proof.
  induction 1 as [|x' y l k HR _ IH]; intros Hx.
  - by apply elem_of_nil in Hx.
  - apply elem_of_cons in Hx as [->|Hx].
    + exists y. split; [by left|done].
    + destruct (IH Hx) as (y' & Hy' & HR'). exists y'. split; [by right|done].
Qed.

Lemma items_permutation registry optinfo :
  optinfo ≡ₚ OptionsRegistry.items registry →
  NoDup optinfo.*1 ∧
  ∀ k e, (k, e) ∈ optinfo ↔ OptionsRegistry.data registry !! k = Some e.
Proof.
  intros Hp. unfold OptionsRegistry.items in Hp. split.
  - rewrite Hp. apply NoDup_fst_map_to_list.
  - intros k e. rewrite Hp. apply elem_of_map_to_list.
Qed.

Section descriptors_of_parser.

Variable deref : ref → AbstractOption.t.
Variable deref_group : gref → Group.t.

Lemma new_callbacks optmap fs (new : list keyed) :
  Forall2 (λ ad kp, AbstractOption.makeOption deref ad.2 ad.1 (Some optmap)
                    = Ok kp) fs new →
  Option.callback <$> new.*2 = Some <$> fs.*2.
Proof.
  induction 1 as [|[a d] [key popt] fs new Hm _ IH]; [done|].
  rewrite !fmap_cons. simpl in Hm.
  apply makeOption_inv in Hm as (_ & Hcb & _). simpl. rewrite Hcb.
  f_equal. exact IH.
Qed.

(** The options of a synthesized parser, one by one: an option is the
    help option of the bare parser or was made by [makeOption] for a
    descriptor that has an entry in the registry. *)
Lemma parser_option_origin registry optinfo kw p popt :
  optinfo ≡ₚ OptionsRegistry.items registry →
  make_parser_from deref deref_group optinfo kw = Ok p →
  popt ∈ OptionParser.all_options p →
  (Option.callback popt = None ∧
   Option.opt_strings popt = ["-h"; "--help"]) ∨
  (∃ d, Option.callback popt = Some d ∧
        Option.action popt = Option.callback_action ∧
        (∃ k a, OptionsRegistry.data registry !! k = Some (a, Some d)) ∧
        ∀ name, name ∈ Option.opt_strings popt ↔
                name ≠ "" ∧ name ∈ AbstractOption.option_names (deref d) ∧
                ∃ a, OptionsRegistry.data registry !! name = Some (a, Some d)).
Proof.
  intros Hperm Hp Hin. apply items_permutation in Hperm as [Hnd Hitems].
  apply make_parser_from_options in Hp as (p0 & new & Hb & Hf & Hall).
  rewrite Hall in Hin. apply elem_of_app in Hin as [Hin|Hin].
  - left. apply bare_parser_inv in Hb as (_ & _ & _ & _ & [Hl|(h & Hl & ? & ?)]);
      rewrite Hl in Hin; [by apply elem_of_nil in Hin|].
    apply list_elem_of_singleton in Hin as ->. done.
  - right. apply list_elem_of_fmap in Hin as ([key popt'] & -> & Hin).
    destruct (Forall2_elem_of_r _ _ _ _ Hf Hin) as ([a d] & Hfs & Hm).
    simpl in *. apply makeOption_inv in Hm as (_ & Hcb & _ & Hact & Hnames).
    exists d. split; [done|]. split; [done|]. split.
    + destruct (first_seen_spec optinfo ∅) as (_ & _ & Ha).
      destruct (Ha _ _ Hfs) as [k Hk]. exists k, a. by apply Hitems.
    + intros name. rewrite Hnames, (make_optmap_lookup _ _ _ Hnd).
      by setoid_rewrite Hitems.
Qed.

End descriptors_of_parser.

(** ** Registries *)

Lemma merged_bases_is_Some (bases : list (gmap string entry)) : ∀ m k,
  is_Some (foldl (λ data base, base ∪ data) m bases !! k) ↔
  is_Some (m !! k) ∨ ∃ b, b ∈ bases ∧ is_Some (b !! k).
Proof.
  induction bases as [|b bases IH]; intros m k; simpl.
  - split; [by left|]. intros [?|(b & Hb & _)]; [done|].
    by apply elem_of_nil in Hb.
  - rewrite IH, lookup_union_is_Some. split.
    + intros [[?|?]|(b' & Hb' & ?)].
      * right. exists b. split; [by left|done].
      * by left.
      * right. exists b'. split; [by right|done].
    + intros [?|(b' & Hb' & ?)]; [left; by right|].
      apply elem_of_cons in Hb' as [->|Hb'].
      * left. by left.
      * right. by exists b'.
Qed.

(** The entries a class declares itself survive the merge with the
    registries of its bases; other names are looked up in the bases. *)
Lemma registry_created_for_lookup self bases k :
  Registry.created_for self bases !! k =
  match self !! k with
  | Some e => Some e
  | None => foldl (λ data base, base ∪ data) ∅ bases !! k
  end.
Proof.
  unfold Registry.created_for. rewrite !lookup_union.
  destruct (self !! k) as [e|]; simpl.
  - by destruct (foldl _ _ _ !! k).
  - by destruct (foldl _ _ _ !! k).
Qed.

Lemma reject_loop_lookup old keys : ∀ m k,
  OptionsRegistry.reject_loop old keys m !! k =
  if bool_decide (k ∈ keys ∧ old !! k = None) then Some (None, None)
  else m !! k.
Proof.
  unfold OptionsRegistry.reject_loop.
  induction keys as [|key keys IH]; intros m k; cbn [foldl].
  - case_bool_decide as H; [|done]. destruct H as [H _].
    by apply elem_of_nil in H.
  - rewrite IH. case_bool_decide as H1; case_bool_decide as H2; try done.
    + exfalso. apply H2. destruct H1. split; [by right|done].
    + destruct H2 as [Hin Ho]. apply elem_of_cons in Hin as [->|Hin].
      * by rewrite Ho, lookup_insert_eq.
      * exfalso. by apply H1.
    + destruct (old !! key) eqn:Ho; [done|].
      rewrite lookup_insert_ne; [done|]. intros ->. apply H2.
      split; [by left|done].
Qed.

(** The merged view of a class: what it declares itself; for another
    name, the suppression mark when the class rejects all inheritance
    and some base has the name, or else what the bases have. *)
Lemma options_registry_created_for_lookup self bases k :
  OptionsRegistry.data (OptionsRegistry.created_for self bases) !! k =
  view_entry (OptionsRegistry.data self !! k) (inherited_from bases !! k)
             (OptionsRegistry.reject_all_inheritance self).
Proof.
  unfold OptionsRegistry.created_for, view_entry, inherited_from. simpl.
  destruct (OptionsRegistry.reject_all_inheritance self).
  - rewrite reject_loop_lookup, registry_created_for_lookup.
    destruct (OptionsRegistry.data self !! k) as [e|] eqn:Hs.
    + rewrite bool_decide_eq_false_2; [done|]. by intros [_ ?].
    + simpl. destruct (foldl _ _ _ !! k) as [e|] eqn:Hi; simpl.
      * rewrite bool_decide_eq_true_2; [done|]. split; [|done].
        apply list_elem_of_fmap. exists (k, e). split; [done|].
        apply elem_of_map_to_list. by rewrite registry_created_for_lookup, Hs.
      * rewrite bool_decide_eq_false_2; [done|]. intros [Hin _].
        apply list_elem_of_fmap in Hin as ([k' e] & -> & Hin).
        apply elem_of_map_to_list in Hin.
        rewrite registry_created_for_lookup in Hin. simpl in *.
        by rewrite Hs, Hi in Hin.
  - apply registry_created_for_lookup.
Qed.

Lemma inherited_from_is_Some bases k :
  is_Some (inherited_from bases !! k) ↔ ∃ b, b ∈ bases ∧ is_Some (b !! k).
Proof.
  unfold inherited_from. rewrite merged_bases_is_Some, lookup_empty.
  split; [intros [[? [=]]|?]; done|by right].
Qed.

Lemma registry_set_inv (r r' : gmap string entry) key value :
  Registry.set r key value = Ok r' → r' = <[key := value]> r.
Proof.
  unfold Registry.set. destruct (r !! key) as [old|].
  - case_bool_decide; [|done]. by intros [= <-].
  - by intros [= <-].
Qed.

(** After [reject_inheritance] with names, each of the names is marked
    as suppressed in the registry of the class body. *)
Lemma reject_inheritance_names names : ∀ r r' name,
  names ≠ [] → reject_inheritance names r = Ok r' → name ∈ names →
  OptionsRegistry.data r' !! name = Some (None, None).
Proof.
  intros r r' name Hne. unfold reject_inheritance.
  destruct names as [|n0 names0] eqn:Hn; [done|]. rewrite <- Hn. clear Hn Hne.
  revert r r'. induction names as [|n names IH] using rev_ind; intros r r'.
  - intros _ H. by apply elem_of_nil in H.
  - rewrite foldl_app. simpl.
    destruct (foldl _ (Ok r) names) as [r1|] eqn:H1; simpl; [|done].
    unfold OptionsRegistry.set.
    destruct (Registry.set _ n _) as [d|] eqn:Hs; simpl; [|done].
    intros [= <-] Hin. simpl. apply registry_set_inv in Hs as ->.
    destruct (decide (name = n)) as [->|Hnn]; [by rewrite lookup_insert_eq|].
    rewrite lookup_insert_ne; [|done].
    apply elem_of_app in Hin as [Hin|Hin].
    + by apply (IH r r1).
    + apply list_elem_of_singleton in Hin. done.
Qed.

Section suppressed_items.

Variable deref : ref → AbstractOption.t.
Variable deref_group : gref → Group.t.

Lemma make_optmap_filter optinfo :
  make_optmap (filter has_descriptor optinfo) = make_optmap optinfo.
Proof.
  unfold make_optmap. generalize (∅ : gmap string ref).
  induction optinfo as [|[k [a [o|]]] optinfo IH]; intros m; [done| |].
  - rewrite filter_cons_True; [|by eexists]. simpl. apply IH.
  - rewrite filter_cons_False; [|by intros [? [=]]]. simpl. apply IH.
Qed.

Lemma collect_filter optmap optinfo : ∀ used lists,
  collect deref optmap (filter has_descriptor optinfo) used lists =
  collect deref optmap optinfo used lists.
Proof.
  induction optinfo as [|[k [a [o|]]] optinfo IH]; intros used lists; [done| |].
  - rewrite filter_cons_True; [|by eexists]. simpl.
    case_bool_decide; [apply IH|].
    destruct (AbstractOption.makeOption _ _ _ _); simpl; [apply IH|done].
  - rewrite filter_cons_False; [|by intros [? [=]]]. simpl. apply IH.
Qed.

(** Suppressed names do not influence the synthesized parser. *)
Lemma make_parser_from_filter optinfo kw :
  make_parser_from deref deref_group (filter has_descriptor optinfo) kw =
  make_parser_from deref deref_group optinfo kw.
Proof.
  unfold make_parser_from. by rewrite make_optmap_filter, collect_filter.
Qed.

End suppressed_items.

Lemma list_singleton_of_elem {A} (l : list A) (e : A) :
  NoDup l → (∀ x, x ∈ l ↔ x = e) → l = [e].
Proof.
  intros Hnd Hx. destruct l as [|a l].
  - exfalso. assert (He : e ∈ @nil A) by by apply Hx.
    by apply elem_of_nil in He.
  - assert (a = e) as -> by (apply Hx; by left).
    destruct l as [|b l]; [done|].
    assert (b = e) as -> by (apply Hx; right; by left).
    apply NoDup_cons in Hnd as [Hn _]. exfalso. apply Hn. by left.
Qed.

(** C1: in the parser built from the merged registry view of a class,
    no two options belong to the same descriptor; a descriptor has an
    option exactly when some name of the view refers to it; and the
    option strings of that option are exactly those names of the
    descriptor that the view maps to it, so that suppressed and
    overridden names are left out.  In particular a name that the class
    suppresses occurs in no option of a descriptor, while a name that
    the view maps to a descriptor declaring it occurs in one.  For the
    classes [A] (declaring [-v] and [--verbose]) and [B] (a subclass
    suppressing [--verbose]) the help text of [A] mentions [--verbose]
    and that of [B] does not. *)
Theorem parser_option_per_descriptor (deref : ref → AbstractOption.t)
    (deref_group : gref → Group.t) (registry : OptionsRegistry.t)
    (optinfo : list (string * entry)) (kw : parser_kw) (p : OptionParser.t) :
  optinfo ≡ₚ OptionsRegistry.items registry →
  make_parser_from deref deref_group optinfo kw = Ok p →
  NoDup (Option.callback <$> OptionParser.all_options p) ∧
  (∀ d, (∃ popt, popt ∈ OptionParser.all_options p ∧
                 Option.callback popt = Some d) ↔
        (∃ name a, OptionsRegistry.data registry !! name = Some (a, Some d))) ∧
  (∀ popt d, popt ∈ OptionParser.all_options p →
     Option.callback popt = Some d →
     ∀ name, name ∈ Option.opt_strings popt ↔
             name ≠ "" ∧ name ∈ AbstractOption.option_names (deref d) ∧
             ∃ a, OptionsRegistry.data registry !! name = Some (a, Some d)) ∧
  (∀ name, OptionsRegistry.data registry !! name = Some (None, None) →
     ∀ popt, popt ∈ OptionParser.all_options p →
             name ∈ Option.opt_strings popt →
             Option.callback popt = None ∧ (name = "-h" ∨ name = "--help")) ∧
  (∀ name a d, OptionsRegistry.data registry !! name = Some (a, Some d) →
     name ≠ "" → name ∈ AbstractOption.option_names (deref d) →
     ∃ popt, popt ∈ OptionParser.all_options p ∧
             name ∈ Option.opt_strings popt) ∧
  (∀ body bases name,
     OptionsRegistry.data body !! name = Some (None, None) →
     OptionsRegistry.data (OptionsRegistry.created_for body bases) !! name
       = Some (None, None)) ∧
  (Examples.lines <$> Examples.help_of Examples.abc_store
                        (Examples.class_registry "A")
     = Ok ["Options:"; "  -v, --verbose  Be verbose"] ∧
   Examples.lines <$> Examples.help_of Examples.abc_store
                        (Examples.class_registry "B")
     = Ok ["Options:"; "  -v  Be verbose"] ∧
   Py.contains "--verbose" <$> Examples.help_of Examples.abc_store
                                 (Examples.class_registry "A") = Ok true ∧
   Py.contains "--verbose" <$> Examples.help_of Examples.abc_store
                                 (Examples.class_registry "B") = Ok false).
Proof.
  intros Hperm Hp.
  pose proof (parser_option_origin deref deref_group registry optinfo kw p)
    as Horigin.
  assert (Hexists : ∀ d,
    (∃ name a, OptionsRegistry.data registry !! name = Some (a, Some d)) →
    ∃ popt, popt ∈ OptionParser.all_options p ∧ Option.callback popt = Some d).
  { intros d (name & a & Hname).
    pose proof Hperm as [Hnd Hitems]%items_permutation.
    pose proof Hp as (p0 & new & Hb & Hf & Hall)%make_parser_from_options.
    destruct (first_seen_spec optinfo ∅) as (_ & Hfs & _).
    assert (Hd : d ∈ (first_seen optinfo ∅).*2).
    { apply Hfs. split; [apply not_elem_of_empty|].
      exists name, a. by apply Hitems. }
    apply list_elem_of_fmap in Hd as ([a' d'] & -> & Hd).
    destruct (Forall2_elem_of_l _ _ _ _ Hf Hd) as ([key popt] & Hin & Hm).
    simpl in Hm. apply (makeOption_inv deref) in Hm as (_ & Hcb & _).
    exists popt. split; [|done]. rewrite Hall. apply elem_of_app. right.
    apply list_elem_of_fmap. by exists (key, popt). }
  split; [|split; [|split; [|split; [|split; [|split]]]]].
  - pose proof Hp as (p0 & new & Hb & Hf & Hall)%make_parser_from_options.
    rewrite Hall, fmap_app, (new_callbacks deref _ _ _ Hf).
    destruct (first_seen_spec optinfo ∅) as (Hnd & _ & _).
    apply NoDup_app. split; [|split].
    + apply bare_parser_inv in Hb as (_ & _ & _ & _ & [->|(h & -> & _)]).
      * constructor.
      * apply NoDup_singleton.
    + intros x Hx Hx'.
      apply list_elem_of_fmap in Hx' as (d & -> & _).
      apply bare_parser_inv in Hb as (_ & _ & _ & _ & [Hl|(h & Hl & Hh & _)]);
        rewrite Hl in Hx.
      * by apply elem_of_nil in Hx.
      * apply list_elem_of_singleton in Hx. simpl in Hx. congruence.
    + apply NoDup_fmap; [|done]. by intros ?? [=].
  - intros d. split; [|apply Hexists].
    intros (popt & Hin & Hcb).
    destruct (Horigin popt Hperm Hp Hin) as [[Hn _]|(d' & Hd' & _ & He & _)];
      [congruence|].
    by replace d with d' by congruence.
  - intros popt d Hin Hcb.
    destruct (Horigin popt Hperm Hp Hin) as [[Hn _]|(d' & Hd' & _ & _ & Hnames)];
      [congruence|].
    by replace d with d' by congruence.
  - intros name Hname popt Hin Hopt.
    destruct (Horigin popt Hperm Hp Hin) as [[Hn Hs]|(d' & Hd' & _ & _ & Hnames)].
    + split; [done|]. rewrite Hs, !elem_of_cons, elem_of_nil in Hopt.
      tauto.
    + destruct (proj1 (Hnames name) Hopt) as (_ & _ & a & Ha). congruence.
  - intros name a d Hname Hne Hnames.
    destruct (Hexists d) as (popt & Hin & Hcb); [by exists name, a|].
    exists popt. split; [done|].
    destruct (Horigin popt Hperm Hp Hin) as [[Hn _]|(d' & Hd' & _ & _ & Hx)];
      [congruence|].
    apply Hx. replace d' with d by congruence. split_and!; [done..|].
    by exists a.
  - intros body bases name Hb.
    rewrite options_registry_created_for_lookup. unfold entry in *.
    by rewrite Hb.
  - vm_compute. done.
Qed.

Lemma parser_option_per_descriptor_witness :
  ∃ p, make_parser_from (option_at Examples.abc_store)
         (group_at Examples.abc_store)
         (OptionsRegistry.items (Examples.class_registry "B")) default_kw
       = Ok p ∧
       NoDup (Option.callback <$> OptionParser.all_options p) ∧
       (∀ popt, popt ∈ OptionParser.all_options p →
                "--verbose" ∈ Option.opt_strings popt →
                Option.callback popt = None ∧
                ("--verbose" = "-h" ∨ "--verbose" = "--help")).
Proof.
  destruct (make_parser_from (option_at Examples.abc_store)
              (group_at Examples.abc_store)
              (OptionsRegistry.items (Examples.class_registry "B")) default_kw)
    as [p|e] eqn:Hp; [|by vm_compute in Hp].
  exists p. split; [reflexivity|].
  destruct (parser_option_per_descriptor (option_at Examples.abc_store)
              (group_at Examples.abc_store) (Examples.class_registry "B")
              (OptionsRegistry.items (Examples.class_registry "B"))
              default_kw p) as (Hnd & _ & _ & Hsup & _);
    [reflexivity|exact Hp|].
  split; [exact Hnd|]. apply Hsup. vm_compute. reflexivity.
Defined.

(** C2: the merged view of a class that rejects all inheritance keeps
    every entry the class declares itself and maps every other name that
    some base class has to the suppression mark [(None, None)]; a name
    that neither has stays absent.  The parser for such a class
    therefore has options only for the descriptors the class declares,
    under names the class declares; when the class declares a single
    option name, the help text is the one of that option alone, whatever
    the bases are.  For the class [C], which declares [--fast] only, the
    help lists [--fast] only. *)
Theorem blanket_rejection (deref : ref → AbstractOption.t)
    (deref_group : gref → Group.t) (own : gmap string entry)
    (bases : list (gmap string entry)) :
  let C := OptionsRegistry.created_for
             {| OptionsRegistry.data := own;
                OptionsRegistry.reject_all_inheritance := true |} bases in
  (∀ k e, own !! k = Some e → OptionsRegistry.data C !! k = Some e) ∧
  (∀ k, own !! k = None → (∃ b, b ∈ bases ∧ is_Some (b !! k)) →
        OptionsRegistry.data C !! k = Some (None, None)) ∧
  (∀ k, own !! k = None → (∀ b, b ∈ bases → b !! k = None) →
        OptionsRegistry.data C !! k = None) ∧
  (∀ kw p popt d name,
     make_parser deref deref_group C kw = Ok p →
     popt ∈ OptionParser.all_options p → Option.callback popt = Some d →
     name ∈ Option.opt_strings popt →
     name ∈ AbstractOption.option_names (deref d) ∧
     ∃ a, own !! name = Some (a, Some d)) ∧
  (∀ name a d kw,
     own = {[name := (a, Some d)]} →
     get_help deref deref_group C kw =
     (parser ← make_parser_from deref deref_group [(name, (a, Some d))] kw;
      Ok (Py.strip (OptionParser.format_help parser)))) ∧
  (Examples.lines <$> Examples.help_of Examples.abc_store
                        (Examples.class_registry "C")
     = Ok ["Options:"; "  --fast  Go fast"]).
Proof.
  intros C.
  assert (Hlookup : ∀ k, OptionsRegistry.data C !! k =
            view_entry (own !! k) (inherited_from bases !! k) true).
  { intros k. subst C. by rewrite options_registry_created_for_lookup. }
  assert (Hsome : ∀ k a d, OptionsRegistry.data C !! k = Some (a, Some d) →
                           own !! k = Some (a, Some d)).
  { intros k a d. rewrite Hlookup. unfold view_entry.
    destruct (own !! k); [done|]. by destruct (inherited_from bases !! k). }
  split; [|split; [|split; [|split; [|split]]]].
  - intros k e Hk. by rewrite Hlookup, Hk.
  - intros k Hk Hb. rewrite Hlookup, Hk. simpl.
    apply inherited_from_is_Some in Hb as [e ->]. done.
  - intros k Hk Hb. rewrite Hlookup, Hk. simpl.
    destruct (inherited_from bases !! k) as [e|] eqn:Hf; [|done].
    destruct (proj1 (inherited_from_is_Some bases k)) as (b & Hin & [? He]).
    + by rewrite Hf.
    + rewrite (Hb b Hin) in He. done.
  - intros kw p popt d name Hp Hin Hcb Hname.
    destruct (parser_option_origin deref deref_group C
                (OptionsRegistry.items C) kw p popt)
      as [[Hnone _]|(d' & Hd' & _ & _ & Hnames)]; [done|exact Hp|done| |].
    { congruence. }
    destruct (proj1 (Hnames name) Hname) as (_ & Hn & a & Ha).
    replace d with d' by congruence.
    split; [done|]. exists a. by apply Hsome.
  - intros name a d kw Hown. unfold get_help, make_parser.
    rewrite <- (make_parser_from_filter deref deref_group (OptionsRegistry.items C)).
    replace (filter has_descriptor (OptionsRegistry.items C))
      with [(name, (a, Some d))]; [done|].
    symmetry. apply list_singleton_of_elem.
    + apply NoDup_filter. apply NoDup_map_to_list.
    + intros [k [a' o]]. rewrite list_elem_of_filter.
      unfold OptionsRegistry.items. rewrite elem_of_map_to_list. split.
      * intros [[d' Hd'] Hk]. simpl in Hd'. subst o.
        apply Hsome in Hk. rewrite Hown in Hk.
        apply lookup_singleton_Some in Hk as [<- [= <- <-]]. done.
      * intros [= -> -> ->]. split; [by eexists|].
        rewrite Hlookup, Hown. by rewrite lookup_singleton_eq.
  - vm_compute. done.
Qed.

Lemma blanket_rejection_witness :
  Examples.lines <$>
    get_help (option_at Examples.abc_store) (group_at Examples.abc_store)
      (OptionsRegistry.created_for
         {| OptionsRegistry.data := {["--fast" := (Some "fast", Some 1)]};
            OptionsRegistry.reject_all_inheritance := true |}
         [{["--fast" := (Some "verbose", Some 0);
            "--verbose" := (Some "verbose", Some 0)]}])
      default_kw
  = Ok ["Options:"; "  --fast  Go fast"].
Proof.
  destruct (blanket_rejection (option_at Examples.abc_store)
              (group_at Examples.abc_store)
              {["--fast" := (Some "fast", Some 1)]}
              [{["--fast" := (Some "verbose", Some 0);
                 "--verbose" := (Some "verbose", Some 0)]}])
    as (_ & _ & _ & _ & Hhelp & _).
  rewrite (Hhelp "--fast" (Some "fast") 1 default_kw); [|reflexivity].
  vm_compute. reflexivity.
Defined.

(** ** Order of options and groups *)

Global Instance key_le_total : Total key_le.
Proof.
  intros [a1 a2] [b1 b2]. unfold key_le. simpl.
  destruct (Z.lt_total a1 b1) as [?|[?|?]]; [by left; left| |by right; left].
  destruct (Nat.le_ge_cases a2 b2); [left|right]; right; by split.
Qed.

Global Instance key_le_trans : Transitive key_le.
Proof.
  intros [a1 a2] [b1 b2] [c1 c2]. unfold key_le. simpl.
  intros [?|[-> ?]] [?|[-> ?]]; [left; lia|by left|by left|right; split; [done|lia]].
Qed.

Global Instance keyed_le_total {A} : Total (λ x y : (Z * nat) * A, key_le x.1 y.1).
Proof. intros x y. apply key_le_total. Qed.

Lemma sort_keyed_sorted {A} (l : list ((Z * nat) * A)) :
  Sorted (λ x y, key_le x.1 y.1) (sort_keyed l).
Proof. unfold sort_keyed. apply (Sorted_merge_sort _). Qed.

Lemma sort_keyed_perm {A} (l : list ((Z * nat) * A)) : sort_keyed l ≡ₚ l.
Proof. unfold sort_keyed. apply merge_sort_Permutation. Qed.

Lemma sorted_keyed_snd {A} (key : A → Z * nat) (l : list ((Z * nat) * A)) :
  Forall (λ kp, kp.1 = key kp.2) l →
  Sorted (λ x y, key_le x.1 y.1) l →
  Sorted (λ a b, key_le (key a) (key b)) l.*2.
Proof.
  intros Hk Hs. induction Hs as [|x l Hs IH Hhd]; [constructor|].
  apply Forall_cons in Hk as [Hx Hk]. rewrite fmap_cons. constructor.
  - by apply IH.
  - destruct Hhd as [|y l' Hxy]; [constructor|]. rewrite fmap_cons.
    constructor. apply Forall_cons in Hk as [Hy _].
    by rewrite <- Hx, <- Hy.
Qed.

Lemma direct_options_absent (bs : list (option gref * list keyed)) :
  None ∉ bs.*1 → direct_options bs = [].
Proof.
  induction bs as [|[[g|] l] bs IH]; intros Hn; [done| |].
  - unfold direct_options in *. simpl. apply IH. intros H. apply Hn.
    simpl. by right.
  - exfalso. apply Hn. simpl. by left.
Qed.

Lemma direct_options_present (bs : list (option gref * list keyed)) l :
  NoDup bs.*1 → (None, l) ∈ bs → direct_options bs = (sort_keyed l).*2.
Proof.
  induction bs as [|[[g|] l'] bs IH]; intros Hnd Hin.
  - by apply elem_of_nil in Hin.
  - simpl in Hnd. apply NoDup_cons in Hnd as [_ Hnd].
    apply elem_of_cons in Hin as [[=]|Hin].
    unfold direct_options in *. simpl. by apply IH.
  - simpl in Hnd. apply NoDup_cons in Hnd as [Hn Hnd].
    apply elem_of_cons in Hin as [[= ->]|Hin].
    + unfold direct_options. simpl. fold (direct_options bs).
      by rewrite (direct_options_absent bs Hn), app_nil_r.
    + exfalso. apply Hn. apply list_elem_of_fmap. by exists (None, l).
Qed.

Lemma direct_options_map (optlists : gmap (option gref) (list keyed)) :
  direct_options (map_to_list optlists) =
  (sort_keyed (default [] (optlists !! None))).*2.
Proof.
  destruct (optlists !! None) as [l|] eqn:Hl; simpl.
  - apply direct_options_present; [apply NoDup_fst_map_to_list|].
    by apply elem_of_map_to_list.
  - rewrite direct_options_absent; [done|]. intros Hin.
    apply list_elem_of_fmap in Hin as ([g l] & Hg & Hin). simpl in Hg. subst g.
    apply elem_of_map_to_list in Hin. unfold keyed in *. congruence.
Qed.

Lemma group_buckets_elem deref_group (bs : list (option gref * list keyed)) kg :
  kg ∈ group_buckets deref_group bs ↔
  ∃ g l, (Some g, l) ∈ bs ∧ kg = bucket_group deref_group g l.
Proof.
  unfold group_buckets. rewrite list_elem_of_omap. split.
  - intros ([[g|] l] & Hin & Hkg); simpl in Hkg; [|done].
    exists g, l. split; [done|]. congruence.
  - intros (g & l & Hin & ->). by exists (Some g, l).
Qed.

(** C3: in the parser built by [make_parser], the options added to the
    parser itself come after those of the bare parser, belong to
    descriptors without a group and are in ascending order of
    [(sortKey, sort_stable)]; the groups are in ascending order of their
    [(sortKey, sort_stable)], and each holds, in ascending order, options
    of descriptors of that group; every option of a descriptor is in the
    place its group assigns.  For two groups with sort keys 5 and 1 and
    two ungrouped options, the help lists the ungrouped options under
    no group heading, then the group with sort key 1, then the group
    with sort key 5. *)
Theorem parser_order (deref : ref → AbstractOption.t)
    (deref_group : gref → Group.t) (optinfo : list (string * entry))
    (kw : parser_kw) (p : OptionParser.t) :
  make_parser_from deref deref_group optinfo kw = Ok p →
  (∃ p0 direct keyed_groups,
    bare_parser kw = Ok p0 ∧
    OptionParser.option_list p = OptionParser.option_list p0 ++ direct ∧
    Sorted (λ a b, key_le (popt_key deref a) (popt_key deref b)) direct ∧
    Forall (λ popt, ∃ d, Option.callback popt = Some d ∧
                         AbstractOption.group (deref d) = None) direct ∧
    OptionParser.option_groups p = keyed_groups.*2 ∧
    Sorted (λ x y, key_le x.1 y.1) keyed_groups ∧
    Forall (λ kg, ∃ g,
              kg.1 = group_key deref_group g ∧
              OptionGroup.title kg.2 = Group.title (deref_group g) ∧
              OptionGroup.description kg.2 = Group.description (deref_group g) ∧
              Sorted (λ a b, key_le (popt_key deref a) (popt_key deref b))
                     (OptionGroup.option_list kg.2) ∧
              Forall (λ popt, ∃ d, Option.callback popt = Some d ∧
                                   AbstractOption.group (deref d) = Some g)
                     (OptionGroup.option_list kg.2))
           keyed_groups ∧
    (∀ popt d, popt ∈ OptionParser.all_options p →
       Option.callback popt = Some d →
       match AbstractOption.group (deref d) with
       | None => popt ∈ direct
       | Some g => ∃ kg, kg ∈ keyed_groups ∧
                         kg.1 = group_key deref_group g ∧
                         popt ∈ OptionGroup.option_list kg.2
       end)) ∧
  (Examples.lines <$> Examples.help_of Examples.grouped_class.1
                        Examples.grouped_class.2
   = Ok ["Options:"; "  -q         "; "  --plain    "; "";
         "  First:"; "    --beta   "; "    --delta  "; "";
         "  Second:"; "    --gamma  "; "    --alpha"]).
Proof.
  intros Hp. split; [|vm_compute; done].
  apply make_parser_from_inv in Hp as (p0 & optlists & Hb & Hc & _ & Hl & Hg).
  apply (collect_made deref) in Hc as [_ Hw].
  assert (Hwf : well_filed deref optlists).
  { apply Hw. intros g l. by rewrite lookup_empty. }
  clear Hw.
  pose proof (bare_parser_inv _ _ Hb) as (_ & _ & _ & Hg0 & Hl0).
  rewrite Hg0 in Hg. simpl in Hg. rewrite direct_options_map in Hl.
  set (direct := (sort_keyed (default [] (optlists !! None))).*2) in *.
  set (keyed_groups := sort_keyed (group_buckets deref_group (map_to_list optlists))) in *.
  assert (Hnone : Forall (λ kp : keyed, kp.1 = popt_key deref kp.2 ∧
                     ∃ d, Option.callback kp.2 = Some d ∧
                          AbstractOption.group (deref d) = None)
                    (sort_keyed (default [] (optlists !! None)))).
  { rewrite sort_keyed_perm. destruct (optlists !! None) as [l|] eqn:Hn;
      simpl; [|constructor]. by apply (Hwf None). }
  assert (Hdirect : Forall (λ popt, ∃ d, Option.callback popt = Some d ∧
                         AbstractOption.group (deref d) = None) direct).
  { subst direct. apply Forall_fmap. eapply Forall_impl; [exact Hnone|].
    by intros kp [_ ?]. }
  assert (Hgroups : Forall (λ kg, ∃ g l,
              optlists !! Some g = Some l ∧
              kg = bucket_group deref_group g l) keyed_groups).
  { subst keyed_groups. rewrite sort_keyed_perm. apply Forall_forall.
    intros kg (g & l & Hin & ->)%group_buckets_elem.
    exists g, l. split; [|done]. by apply elem_of_map_to_list. }
  assert (Hbucket : ∀ g l, optlists !! Some g = Some l →
            Sorted (λ a b, key_le (popt_key deref a) (popt_key deref b))
                   (sort_keyed l).*2 ∧
            Forall (λ popt, ∃ d, Option.callback popt = Some d ∧
                                 AbstractOption.group (deref d) = Some g)
                   (sort_keyed l).*2).
  { intros g l Hgl. pose proof (Hwf _ _ Hgl) as Hf.
    rewrite <- (sort_keyed_perm l) in Hf. split.
    - apply sorted_keyed_snd; [|apply sort_keyed_sorted].
      eapply Forall_impl; [exact Hf|]. by intros kp [? _].
    - apply Forall_fmap. eapply Forall_impl; [exact Hf|]. by intros kp [_ ?]. }
  exists p0, direct, keyed_groups. split_and!; try done.
  - subst direct. apply sorted_keyed_snd; [|apply sort_keyed_sorted].
    eapply Forall_impl; [exact Hnone|]. by intros kp [? _].
  - apply sort_keyed_sorted.
  - eapply Forall_impl; [exact Hgroups|].
    intros kg (g & l & Hgl & ->). exists g.
    destruct (Hbucket g l Hgl) as [Hs Hf]. by split_and!.
  - intros popt d Hin Hcb. unfold OptionParser.all_options in Hin.
    rewrite Hl, Hg in Hin.
    apply elem_of_app in Hin as [[Hin|Hin]%elem_of_app|Hin].
    + exfalso. destruct Hl0 as [Hl0|(h & Hl0 & Hh & _)]; rewrite Hl0 in Hin.
      * by apply elem_of_nil in Hin.
      * apply list_elem_of_singleton in Hin. congruence.
    + rewrite Forall_forall in Hdirect.
      destruct (Hdirect popt Hin) as (d' & Hd' & Hgd).
      replace d with d' by congruence. by rewrite Hgd.
    + apply list_elem_of_In, in_flat_map in Hin as (og & Hog & Hin).
      apply list_elem_of_In, list_elem_of_fmap in Hog as (kg & -> & Hkg).
      apply list_elem_of_In in Hin.
      rewrite Forall_forall in Hgroups.
      destruct (Hgroups kg Hkg) as (g & l & Hgl & ->).
      destruct (Hbucket g l Hgl) as [_ Hf]. rewrite Forall_forall in Hf.
      destruct (Hf popt Hin) as (d' & Hd' & Hgd).
      replace d with d' by congruence. rewrite Hgd.
      exists (bucket_group deref_group g l). by split_and!.
Qed.

Lemma parser_order_witness :
  ∃ p, make_parser_from (option_at Examples.grouped_class.1)
         (group_at Examples.grouped_class.1)
         (OptionsRegistry.items Examples.grouped_class.2) default_kw = Ok p ∧
       ∃ keyed_groups,
         OptionParser.option_groups p = keyed_groups.*2 ∧
         Sorted (λ x y, key_le x.1 y.1) keyed_groups.
Proof.
  destruct (make_parser_from (option_at Examples.grouped_class.1)
              (group_at Examples.grouped_class.1)
              (OptionsRegistry.items Examples.grouped_class.2) default_kw)
    as [p|e] eqn:Hp; [|by vm_compute in Hp].
  exists p. split; [reflexivity|].
  destruct (parser_order _ _ _ _ p Hp)
    as [(p0 & direct & keyed_groups & _ & _ & _ & _ & Hg & Hs & _) _].
  exists keyed_groups. split; [exact Hg|exact Hs].
Defined.

(** * Further properties *)

(** ** Construction of descriptors and groups *)

(** X1: a descriptor construction succeeds exactly when every keyword
    names an attribute of the class, there is at least one option name,
    every name starts with a dash but not with three, exactly one of a
    fixed value and a type converter is given, no metavar is given
    without a converter, and, when a converter is given without a
    metavar, reading [__name__] of the converter succeeds.  The
    descriptor then takes one argument if it has a converter and none
    otherwise, its metavar is the one given or else the upper-cased
    name of the converter, and it gets the next creation key.  When all
    the other conditions hold and reading [__name__] raises an
    exception, the construction raises that exception. *)
Theorem init_succeeds_iff (k : optclass) (names : list string) (kw : kwargs)
    (c : nat) (o : AbstractOption.t) (c' : nat) :
  (AbstractOption.__init__ k names kw c = Ok (o, c') ↔
   AbstractOption.bad_keyword k kw = None ∧ names ≠ [] ∧
   Forall (λ n, Py.startswith n "-" = true ∧ Py.startswith n "---" = false)
          names ∧
   (is_Some (kw_type kw) ↔ kw_value kw = None) ∧
   (kw_type kw = None → kw_metavar kw = None) ∧
   c' = S c ∧
   ∃ mv,
     match kw_type kw, kw_metavar kw with
     | Some ty, None => ∃ name, tp_name ty = Ok name ∧ mv = Some (Py.upper name)
     | _, m => mv = m
     end ∧
     o = {| AbstractOption.klass := k;
            AbstractOption.option_names := names;
            AbstractOption.repeatable :=
              default (AbstractOption.class_repeatable k) (kw_repeatable kw);
            AbstractOption.sortKey := default 0%Z (kw_sortKey kw);
            AbstractOption.metavar := mv;
            AbstractOption.help := kw_help kw;
            AbstractOption.group := kw_group kw;
            AbstractOption.value := kw_value kw;
            AbstractOption.type := kw_type kw;
            AbstractOption.function := kw_function kw;
            AbstractOption.nargs := if kw_type kw is Some _ then 1 else 0;
            AbstractOption.sort_stable := S c |}) ∧
  (∀ ty e,
     AbstractOption.bad_keyword k kw = None → names ≠ [] →
     Forall (λ n, Py.startswith n "-" = true ∧ Py.startswith n "---" = false)
            names →
     kw_type kw = Some ty → kw_value kw = None → kw_metavar kw = None →
     tp_name ty = Raise e →
     AbstractOption.__init__ k names kw c = Raise e).
Proof.
  unfold AbstractOption.__init__. split; [split|].
  - destruct (AbstractOption.bad_keyword k kw); [done|].
    destruct names as [|n names]; [done|].
    destruct (List.find _ _) eqn:Hf; [done|].
    assert (Hall : Forall (λ n0, Py.startswith n0 "-" = true ∧
                            Py.startswith n0 "---" = false) (n :: names)).
    { apply Forall_forall. intros x Hx. apply list_elem_of_In in Hx.
      pose proof (find_none _ _ Hf x Hx) as Hn.
      unfold AbstractOption.invalid_name in Hn.
      apply orb_false_iff in Hn as [Hn1 Hn2].
      by apply negb_false_iff in Hn1. }
    destruct (kw_type kw) as [ty|], (kw_value kw) as [v|],
      (kw_metavar kw) as [m|]; simpl; try done;
      try (destruct (tp_name ty) as [name|]; simpl; [|done]);
      intros [= <- <-]; split_and!; try done;
      try (split; [by intros _|by eexists]);
      try (split; [by intros []|done]);
      eexists; (split; [|reflexivity]); try done; by eexists.
  - intros (Hkw & Hne & Hall & Hxor & Hmv & -> & mv & Hm & ->). rewrite Hkw.
    destruct names as [|n names]; [done|].
    destruct (List.find _ _) as [m|] eqn:Hf.
    { apply find_some in Hf as [Hin Hbad]. apply list_elem_of_In in Hin.
      rewrite Forall_forall in Hall. destruct (Hall _ Hin) as [H1 H2].
      unfold AbstractOption.invalid_name in Hbad. by rewrite H1, H2 in Hbad. }
    destruct (kw_type kw) as [ty|], (kw_value kw) as [v|]; simpl.
    + destruct Hxor as [Hx _]. by specialize (Hx (ltac:(by eexists))).
    + destruct (kw_metavar kw); [by subst mv|].
      destruct Hm as (name & -> & ->). done.
    + rewrite (Hmv eq_refl) in *. by subst mv.
    + destruct Hxor as [_ Hx]. by destruct (Hx eq_refl).
  - intros ty e Hkw Hne Hall Ht Hv Hm He. rewrite Hkw.
    destruct names as [|n names]; [done|].
    destruct (List.find _ _) as [m|] eqn:Hf.
    { apply find_some in Hf as [Hin Hbad]. apply list_elem_of_In in Hin.
      rewrite Forall_forall in Hall. destruct (Hall _ Hin) as [H1 H2].
      unfold AbstractOption.invalid_name in Hbad. by rewrite H1, H2 in Hbad. }
    rewrite Ht, Hv, Hm. simpl. by rewrite He.
Qed.

Lemma init_succeeds_iff_witness :
  AbstractOption.__init__ KSet ["--mid"]
    {| kw_repeatable := None; kw_sortKey := None; kw_metavar := None;
       kw_help := None; kw_group := None; kw_value := None;
       kw_type := Some {| tp_name :=
                            Raise (AttributeError
                                     "'functools.partial' object has no attribute '__name__'");
                          tp_call := tp_call py_int |};
       kw_function := None; kw_other := []; kw_function_first := true |} 3 =
  Raise (AttributeError
           "'functools.partial' object has no attribute '__name__'").
Proof.
  eapply (proj2 (init_succeeds_iff KSet ["--mid"] _ 3 null_option 0));
    try reflexivity.
  - discriminate.
  - by repeat constructor.
Defined.

(** X2: a metavar given to a descriptor that has a fixed value and no
    converter makes the construction fail with a [TypeError], when the
    keywords and the option names are acceptable. *)
Theorem init_metavar_needs_type (k : optclass) (names : list string)
    (kw : kwargs) (c : nat) (v : pyval) (m : string) :
  AbstractOption.bad_keyword k kw = None → names ≠ [] →
  Forall (λ n, AbstractOption.invalid_name n = false) names →
  kw_type kw = None → kw_value kw = Some v → kw_metavar kw = Some m →
  AbstractOption.__init__ k names kw c =
  Raise (TypeError "'metavar' is meaningless for options without a type").
Proof.
  intros Hkw Hne Hall Ht Hv Hm. unfold AbstractOption.__init__. rewrite Hkw.
  destruct names as [|n names]; [done|].
  destruct (List.find _ _) as [x|] eqn:Hf.
  { apply find_some in Hf as [Hin Hbad]. apply list_elem_of_In in Hin.
    rewrite Forall_forall in Hall. by rewrite (Hall _ Hin) in Hbad. }
  by rewrite Ht, Hv, Hm.
Qed.

Lemma init_metavar_needs_type_witness :
  AbstractOption.__init__ KSet ["-v"]
    {| kw_repeatable := None; kw_sortKey := None; kw_metavar := Some "LEVEL";
       kw_help := None; kw_group := None; kw_value := Some (VBool true);
       kw_type := None; kw_function := None; kw_other := [];
       kw_function_first := true |} 0 =
  Raise (TypeError "'metavar' is meaningless for options without a type").
Proof.
  apply (init_metavar_needs_type KSet ["-v"] _ 0 (VBool true) "LEVEL");
    try reflexivity.
  - discriminate.
  - repeat constructor.
Defined.

(** X3: a keyword that names no attribute of the class makes the
    construction fail with a [TypeError] that names the class and the
    first such keyword that the dictionary of keywords yields, before
    the option names are looked at.  [function] is such a keyword for
    every class but [Handler]: when it is passed to another class and
    the dictionary yields it before the other unknown keywords, or
    there is no other, the error names [function]; when the class is
    [Handler], or [function] is not passed, or the dictionary yields
    another unknown keyword first, the error names the first of the
    other unknown keywords. *)
Theorem init_unknown_keyword (k : optclass) (names : list string)
    (kw : kwargs) (c : nat) :
  (k ≠ KHandler → is_Some (kw_function kw) →
   kw_function_first kw = true ∨ kw_other kw = [] →
   AbstractOption.__init__ k names kw c =
   Raise (TypeError ("peak.cli.options." +:+ class_name k +:+
                     " constructor has no keyword argument function"))) ∧
  (∀ key rest, kw_other kw = key :: rest →
     k = KHandler ∨ kw_function kw = None ∨ kw_function_first kw = false →
     AbstractOption.__init__ k names kw c =
     Raise (TypeError ("peak.cli.options." +:+ class_name k +:+
                       " constructor has no keyword argument " +:+ key))).
Proof.
  unfold AbstractOption.__init__, AbstractOption.bad_keyword. split.
  - intros Hk [f Hf] Hfirst. rewrite Hf.
    destruct Hfirst as [-> | ->]; destruct k; try done;
      by destruct (kw_function_first kw).
  - intros key rest Ho [-> | [Hf | Hfirst]].
    + by rewrite Ho.
    + rewrite Hf, Ho. by destruct k.
    + rewrite Hfirst, Ho. by destruct k, (kw_function kw).
Qed.

Lemma init_unknown_keyword_witness :
  AbstractOption.__init__ KAdd []
    {| kw_repeatable := None; kw_sortKey := None; kw_metavar := None;
       kw_help := None; kw_group := None; kw_value := None;
       kw_type := None; kw_function := Some (λ _ _, mret tt);
       kw_other := ["default"]; kw_function_first := false |} 7 =
  Raise (TypeError
           "peak.cli.options.Add constructor has no keyword argument default").
Proof.
  destruct (init_unknown_keyword KAdd []
    {| kw_repeatable := None; kw_sortKey := None; kw_metavar := None;
       kw_help := None; kw_group := None; kw_value := None;
       kw_type := None; kw_function := Some (λ _ _, mret tt);
       kw_other := ["default"]; kw_function_first := false |} 7)
    as [_ H].
  apply (H "default" []); [reflexivity|right; right; reflexivity].
Defined.

Lemma nth_lookup_lt {A} (l : list A) (i : nat) (d : A) :
  i < List.length l → l !! i = Some (nth i l d).
Proof.
  revert i. induction l as [|x l IH]; intros [|i] Hi; simpl in *;
    [lia|lia|done|]. apply IH. lia.
Qed.

(** X4: in a store built by the constructors, the creation keys of all
    descriptors and groups are pairwise distinct and lie between 1 and
    the counter, so two different descriptors, or two different groups,
    never have the same pair [(sortKey, sort_stable)]. *)
Theorem creation_keys_distinct (σ : store) :
  built σ →
  NoDup (creation_keys σ) ∧
  Forall (λ key, 1 ≤ key ≤ _optcount σ) (creation_keys σ) ∧
  (∀ r1 r2, r1 < List.length (options σ) → r2 < List.length (options σ) →
     r1 ≠ r2 →
     AbstractOption.sort_stable (option_at σ r1) ≠
     AbstractOption.sort_stable (option_at σ r2)) ∧
  (∀ g1 g2, g1 < List.length (groups σ) → g2 < List.length (groups σ) →
     g1 ≠ g2 →
     Group.sort_stable (group_at σ g1) ≠ Group.sort_stable (group_at σ g2)).
Proof.
  intros Hb.
  assert (Hkeys : NoDup (creation_keys σ) ∧
                  Forall (λ key, 1 ≤ key ≤ _optcount σ) (creation_keys σ)).
  { induction Hb as [|σ k names kw r σ' Hb [Hnd Hle] Hnew
                     |σ title description sortKey g σ' Hb [Hnd Hle] Hnew].
    - split; [constructor|constructor].
    - unfold new_option in Hnew.
      destruct (AbstractOption.__init__ _ _ _ _) as [[o c]|] eqn:Hi;
        simpl in Hnew; [|done].
      injection Hnew as <- <-.
      apply init_ok_inv in Hi as (_ & _ & _ & _ & _ & _ & _ & Hs & ->).
      unfold creation_keys in *. simpl. rewrite fmap_app. simpl. rewrite Hs.
      split.
      + rewrite <- (assoc_L (++)). simpl.
        apply (NoDup_Permutation_proper _ _ (Permutation_middle _ _ _)).
        apply NoDup_cons. split; [|done]. intros Hin.
        rewrite Forall_forall in Hle. specialize (Hle _ Hin). lia.
      + rewrite <- (assoc_L (++)). simpl.
        apply Forall_app. apply Forall_app in Hle as [Hl1 Hl2]. split.
        * eapply Forall_impl; [exact Hl1|]. simpl. lia.
        * apply Forall_cons. split; [lia|].
          eapply Forall_impl; [exact Hl2|]. simpl. lia.
    - unfold new_group, Group.__init__ in Hnew. simpl in Hnew.
      injection Hnew as <- <-.
      unfold creation_keys in *. simpl. rewrite fmap_app. simpl. split.
      + rewrite (assoc_L (++)). apply NoDup_app. split; [done|]. split.
        * intros x Hx Hx'. apply list_elem_of_singleton in Hx'. subst x.
          rewrite Forall_forall in Hle. specialize (Hle _ Hx). lia.
        * apply NoDup_singleton.
      + rewrite (assoc_L (++)). apply Forall_app. split.
        * eapply Forall_impl; [exact Hle|]. simpl. lia.
        * apply Forall_singleton. lia. }
  destruct Hkeys as [Hnd Hle]. split; [done|]. split; [done|].
  unfold creation_keys in Hnd. apply NoDup_app in Hnd as (Ho & _ & Hg).
  split.
  - intros r1 r2 H1 H2 Hne Heq. apply Hne.
    eapply NoDup_lookup; [exact Ho|..];
      unfold option_at in Heq; rewrite list_lookup_fmap.
    + by rewrite (nth_lookup_lt _ _ null_option H1).
    + rewrite (nth_lookup_lt _ _ null_option H2). simpl. by rewrite Heq.
  - intros g1 g2 H1 H2 Hne Heq. apply Hne.
    eapply NoDup_lookup; [exact Hg|..];
      unfold group_at in Heq; rewrite list_lookup_fmap.
    + by rewrite (nth_lookup_lt _ _ null_group H1).
    + rewrite (nth_lookup_lt _ _ null_group H2). simpl. by rewrite Heq.
Qed.

Lemma creation_keys_distinct_witness :
  NoDup (creation_keys (new_group "Second" None 5
                          (new_group "First" None 1 empty_store).2).2) ∧
  Forall (λ key, 1 ≤ key ≤ 2)
         (creation_keys (new_group "Second" None 5
                           (new_group "First" None 1 empty_store).2).2).
Proof.
  destruct (creation_keys_distinct
              (new_group "Second" None 5
                 (new_group "First" None 1 empty_store).2).2)
    as (H1 & H2 & _); [|by split].
  apply (built_group (new_group "First" None 1 empty_store).2
           "Second" None 5 1); [|reflexivity].
  apply (built_group empty_store "First" None 1 0); [|reflexivity].
  apply built_empty.
Defined.

(** ** Registration and inheritance *)

Lemma set_all_raise (v : entry) names e :
  foldl (λ acc name, r ← acc; OptionsRegistry.set r name v) (Raise e) names
  = Raise e.
Proof. induction names as [|n names IH]; [done|]. simpl. exact IH. Qed.

Lemma options_registry_set_inv r key v r' :
  OptionsRegistry.set r key v = Ok r' →
  OptionsRegistry.data r' = <[key := v]> (OptionsRegistry.data r) ∧
  OptionsRegistry.reject_all_inheritance r' =
    OptionsRegistry.reject_all_inheritance r.
Proof.
  unfold OptionsRegistry.set.
  destruct (Registry.set _ _ _) as [d|] eqn:Hs; simpl; [|done].
  apply registry_set_inv in Hs as ->. by intros [= <-].
Qed.

Lemma options_registry_set_ok r key v :
  OptionsRegistry.data r !! key = None ∨
  OptionsRegistry.data r !! key = Some v →
  ∃ r', OptionsRegistry.set r key v = Ok r'.
Proof.
  unfold OptionsRegistry.set, Registry.set. intros [-> | ->].
  - by eexists.
  - rewrite bool_decide_eq_true_2; [|done]. by eexists.
Qed.

(** Entering one value under several names, one after the other. *)
Lemma set_all_inv (v : entry) names : ∀ r r',
  foldl (λ acc name, r ← acc; OptionsRegistry.set r name v) (Ok r) names
  = Ok r' →
  (∀ n, n ∈ names → OptionsRegistry.data r' !! n = Some v) ∧
  (∀ n, n ∉ names →
        OptionsRegistry.data r' !! n = OptionsRegistry.data r !! n) ∧
  OptionsRegistry.reject_all_inheritance r' =
    OptionsRegistry.reject_all_inheritance r.
Proof.
  induction names as [|m names IH]; intros r r'; simpl.
  - intros [= <-]. split; [|done]. intros n Hn. by apply elem_of_nil in Hn.
  - change (mbind (λ r0, OptionsRegistry.set r0 m v) (Ok r))
      with (OptionsRegistry.set r m v).
    destruct (OptionsRegistry.set r m v) as [r1|e] eqn:Hs.
    + intros Hf. apply IH in Hf as (Hin & Hout & Hflag).
      apply options_registry_set_inv in Hs as [Hd Hfl]. split; [|split].
      * intros n Hn. destruct (decide (n ∈ names)) as [?|Hnn]; [by apply Hin|].
        rewrite (Hout n Hnn), Hd.
        apply elem_of_cons in Hn as [->|?]; [|done]. apply lookup_insert_eq.
      * intros n Hn. apply not_elem_of_cons in Hn as [Hne Hn].
        rewrite (Hout n Hn), Hd. by apply lookup_insert_ne.
      * congruence.
    + by rewrite set_all_raise.
Qed.

Lemma set_all_ok (v : entry) names : ∀ r,
  Forall (λ n, OptionsRegistry.data r !! n = None ∨
               OptionsRegistry.data r !! n = Some v) names →
  ∃ r', foldl (λ acc name, r ← acc; OptionsRegistry.set r name v) (Ok r) names
        = Ok r'.
Proof.
  induction names as [|m names IH]; intros r Hall; simpl; [by eexists|].
  apply Forall_cons in Hall as [Hm Hall].
  change (mbind (λ r0, OptionsRegistry.set r0 m v) (Ok r))
    with (OptionsRegistry.set r m v).
  destruct (options_registry_set_ok r m v Hm) as [r1 Hs]. rewrite Hs.
  apply IH. apply options_registry_set_inv in Hs as [Hd _].
  eapply Forall_impl; [exact Hall|]. intros n Hn. simpl in Hn. rewrite Hd.
  destruct (decide (m = n)) as [->|Hne].
  - right. apply lookup_insert_eq.
  - by rewrite lookup_insert_ne.
Qed.

(** X5: registering a descriptor enters the pair of the attribute name
    and the descriptor under every one of its option names, leaves every
    other name and the inheritance flag alone, and succeeds whenever
    none of its names is taken by another entry in that registry. *)
Theorem register_spec (deref : ref → AbstractOption.t) (self : ref)
    (registry : OptionsRegistry.t) (attrname : option string) :
  let names := AbstractOption.option_names (deref self) in
  (Forall (λ n, OptionsRegistry.data registry !! n = None ∨
                OptionsRegistry.data registry !! n = Some (attrname, Some self))
          names →
   ∃ r', AbstractOption.register deref self registry attrname = Ok r') ∧
  (∀ r', AbstractOption.register deref self registry attrname = Ok r' →
     (∀ n, n ∈ names →
           OptionsRegistry.data r' !! n = Some (attrname, Some self)) ∧
     (∀ n, n ∉ names →
           OptionsRegistry.data r' !! n = OptionsRegistry.data registry !! n) ∧
     OptionsRegistry.reject_all_inheritance r' =
       OptionsRegistry.reject_all_inheritance registry).
Proof.
  intros names. unfold AbstractOption.register. fold names. split.
  - apply set_all_ok.
  - intros r'. apply set_all_inv.
Qed.

Lemma register_spec_witness :
  ∃ r', AbstractOption.register (option_at Examples.abc_store) 0
          OptionsRegistry.empty (Some "verbose") = Ok r' ∧
        OptionsRegistry.data r' !! "--verbose" = Some (Some "verbose", Some 0).
Proof.
  destruct (register_spec (option_at Examples.abc_store) 0
              OptionsRegistry.empty (Some "verbose")) as [Hok Hinv].
  destruct Hok as [r' Hr'].
  { repeat constructor. }
  exists r'. split; [exact Hr'|].
  destruct (Hinv r' Hr') as (Hin & _). apply Hin.
  apply list_elem_of_In. right. left. reflexivity.
Defined.

Lemma inherited_from_snoc bases b k :
  inherited_from (bases ++ [b]) !! k =
  match b !! k with
  | Some e => Some e
  | None => inherited_from bases !! k
  end.
Proof.
  unfold inherited_from. rewrite foldl_app. simpl. rewrite lookup_union.
  by destruct (b !! k), (foldl _ _ _ !! k).
Qed.

(** X6: the merged view of a class that does not reject all inheritance
    has, under each name, the entry the class declares itself, or else
    the entry of the most derived base class that has one.  A
    suppression mark in a base class is such an entry: it stays in
    force for every subclass that does not declare the name again,
    whether or not the subclass rejects all inheritance. *)
Theorem registry_inheritance (self : OptionsRegistry.t)
    (bases : list (gmap string entry)) (b : gmap string entry) (k : string) :
  (OptionsRegistry.reject_all_inheritance self = false →
   OptionsRegistry.data (OptionsRegistry.created_for self (bases ++ [b])) !! k
   = match OptionsRegistry.data self !! k with
     | Some e => Some e
     | None =>
         match b !! k with
         | Some e => Some e
         | None =>
             OptionsRegistry.data
               (OptionsRegistry.created_for
                  {| OptionsRegistry.data := ∅;
                     OptionsRegistry.reject_all_inheritance := false |}
                  bases) !! k
         end
     end) ∧
  (OptionsRegistry.reject_all_inheritance self = false →
   OptionsRegistry.data (OptionsRegistry.created_for self []) !! k
   = OptionsRegistry.data self !! k) ∧
  (OptionsRegistry.data self !! k = None → b !! k = Some (None, None) →
   OptionsRegistry.data (OptionsRegistry.created_for self (bases ++ [b])) !! k
   = Some (None, None)).
Proof.
  split; [|split].
  - intros Hr.
    rewrite !options_registry_created_for_lookup, Hr, inherited_from_snoc.
    simpl. rewrite lookup_empty. unfold view_entry.
    destruct (OptionsRegistry.data self !! k); [done|].
    by destruct (b !! k).
  - intros Hr. rewrite options_registry_created_for_lookup, Hr.
    unfold view_entry, inherited_from. simpl. rewrite lookup_empty.
    by destruct (OptionsRegistry.data self !! k).
  - intros Hs Hb.
    rewrite options_registry_created_for_lookup, inherited_from_snoc.
    unfold entry in *. rewrite Hs, Hb. unfold view_entry.
    by destruct (OptionsRegistry.reject_all_inheritance self).
Qed.

Lemma registry_inheritance_witness :
  OptionsRegistry.data
    (OptionsRegistry.created_for OptionsRegistry.empty
       ([OptionsRegistry.data (Examples.class_registry "A")] ++
        [OptionsRegistry.data (Examples.class_registry "B")])) !! "--verbose"
  = Some (None, None).
Proof.
  destruct (registry_inheritance OptionsRegistry.empty
              [OptionsRegistry.data (Examples.class_registry "A")]
              (OptionsRegistry.data (Examples.class_registry "B"))
              "--verbose") as (_ & _ & H).
  apply H; reflexivity.
Defined.

(** X7: [reject_inheritance] without names only raises the flag
    [reject_all_inheritance] and never fails; with names it marks each
    of them as suppressed, touches no other name and not the flag, and
    it succeeds whenever the class body has not declared an option under
    one of the names. *)
Theorem reject_inheritance_spec (names : list string) (r : OptionsRegistry.t) :
  (names = [] →
   reject_inheritance names r =
   Ok {| OptionsRegistry.data := OptionsRegistry.data r;
         OptionsRegistry.reject_all_inheritance := true |}) ∧
  (names ≠ [] →
   Forall (λ n, OptionsRegistry.data r !! n = None ∨
                OptionsRegistry.data r !! n = Some (None, None)) names →
   ∃ r', reject_inheritance names r = Ok r') ∧
  (names ≠ [] → ∀ r', reject_inheritance names r = Ok r' →
     (∀ n, n ∈ names → OptionsRegistry.data r' !! n = Some (None, None)) ∧
     (∀ n, n ∉ names →
           OptionsRegistry.data r' !! n = OptionsRegistry.data r !! n) ∧
     OptionsRegistry.reject_all_inheritance r' =
       OptionsRegistry.reject_all_inheritance r).
Proof.
  unfold reject_inheritance. split; [by intros ->|]. split.
  - intros Hne Hall. destruct names as [|n0 names0] eqn:Hn; [done|].
    rewrite <- Hn in *. by apply set_all_ok.
  - intros Hne r'. destruct names as [|n0 names0] eqn:Hn; [done|].
    rewrite <- Hn in *. apply set_all_inv.
Qed.

Lemma reject_inheritance_spec_witness :
  ∃ r', reject_inheritance ["-v"; "--verbose"] OptionsRegistry.empty = Ok r' ∧
        OptionsRegistry.data r' !! "-v" = Some (None, None).
Proof.
  destruct (reject_inheritance_spec ["-v"; "--verbose"] OptionsRegistry.empty)
    as (_ & Hok & Hinv).
  destruct Hok as [r' Hr'].
  { discriminate. }
  { repeat constructor. }
  exists r'. split; [exact Hr'|].
  destruct (Hinv ltac:(discriminate) r' Hr') as (Hin & _). apply Hin.
  apply list_elem_of_In. left. reflexivity.
Defined.

(** ** Conversion and the callbacks *)

(** X8: [convert] turns only a [ValueError] of the converter into an
    [InvocationError]; any other exception the converter raises reaches
    the caller unchanged. *)
Theorem convert_propagates (deref : ref → AbstractOption.t) (self : ref)
    (option : Option.t) (value : raw) (ty : pytype) (e : exn) :
  AbstractOption.value (deref self) = None →
  AbstractOption.type (deref self) = Some ty →
  tp_call ty value = Raise e →
  (∀ m, e ≠ ValueError m) →
  AbstractOption.convert deref self option value = Raise e.
Proof.
  intros Hv Ht Hc Hne. unfold AbstractOption.convert. rewrite Hv, Ht, Hc.
  destruct e; try done. by destruct (Hne msg).
Qed.

Lemma convert_propagates_witness :
  AbstractOption.convert (option_at Examples.port_class.1) 0
    {| Option._short_opts := []; Option._long_opts := ["--port"];
       Option.action := Option.callback_action; Option.type := Some "string";
       Option.dest := Some "port"; Option.nargs := 1;
       Option.metavar := Some "INT"; Option.help := None;
       Option.callback := Some 0; Option.callback_args := Some "port" |}
    RawNone =
  Raise (TypeError
           "int() argument must be a string or a number, not 'NoneType'").
Proof.
  apply (convert_propagates (option_at Examples.port_class.1) 0 _ RawNone
           py_int); try reflexivity.
  intros m. discriminate.
Defined.

(** X9: the repeat check of a repeatable descriptor does nothing at all,
    and [Add] and [Append] descriptors are repeatable unless the keyword
    [repeatable] says otherwise; the check of any descriptor touches
    neither the target nor the use count of another descriptor. *)
Theorem check_repeat_frame_rule (deref : ref → AbstractOption.t) (self : ref)
    (option : Option.t) (st : pstate) :
  (AbstractOption.repeatable (deref self) = true →
   AbstractOption.check_repeat deref self option st = (Ok tt, st)) ∧
  (∀ k names kw c o c',
     k = KAdd ∨ k = KAppend → kw_repeatable kw = None →
     AbstractOption.__init__ k names kw c = Ok (o, c') →
     AbstractOption.repeatable o = true) ∧
  (∀ r st', AbstractOption.check_repeat deref self option st = (r, st') →
     values st' = values st ∧ heap st' = heap st ∧ rargs st' = rargs st ∧
     ∀ other, other ≠ self →
       default ∅ (use_counts st') !! other = default ∅ (use_counts st) !! other).
Proof.
  split; [apply check_repeat_repeatable|]. split.
  - intros k names kw c o c' Hk Hkw Hinit.
    apply init_ok_inv in Hinit as (_ & _ & _ & _ & _ & _ & -> & _).
    rewrite Hkw. by destruct Hk as [-> | ->].
  - intros r st' Hc.
    pose proof (check_repeat_frame _ _ _ _ _ _ Hc) as (Hv & Hh & Hr & _).
    split_and!; try done. intros other Hne. revert Hc.
    unfold AbstractOption.check_repeat.
    destruct (AbstractOption.repeatable (deref self)); [by intros [= <- <-]|].
    unfold mbind, M_bind, get, modify, raise, mret, M_ret. simpl.
    destruct (Nat.ltb 1 _); intros [= <- <-]; simpl;
      by rewrite lookup_insert_ne.
Qed.

Lemma check_repeat_frame_rule_witness :
  AbstractOption.check_repeat (option_at Examples.db_append_class.1) 0
    {| Option._short_opts := []; Option._long_opts := ["--db"];
       Option.action := Option.callback_action; Option.type := Some "string";
       Option.dest := Some "db"; Option.nargs := 1;
       Option.metavar := Some "STR"; Option.help := None;
       Option.callback := Some 0; Option.callback_args := Some "db" |}
    (new_scan ∅ ∅) = (Ok tt, new_scan ∅ ∅).
Proof.
  destruct (check_repeat_frame_rule (option_at Examples.db_append_class.1) 0
    {| Option._short_opts := []; Option._long_opts := ["--db"];
       Option.action := Option.callback_action; Option.type := Some "string";
       Option.dest := Some "db"; Option.nargs := 1;
       Option.metavar := Some "STR"; Option.help := None;
       Option.callback := Some 0; Option.callback_args := Some "db" |}
    (new_scan ∅ ∅)) as [H _].
  apply H. reflexivity.
Defined.

(** X10: once the repeat check has passed, [Set.callback] assigns the
    converted value to the named attribute and touches nothing else;
    when the conversion fails it raises that error and assigns nothing,
    although the use has already been counted. *)
Theorem set_callback_spec (deref : ref → AbstractOption.t) (self : ref)
    (option : Option.t) (opt : string) (value : raw) (a : string)
    (st st1 : pstate) :
  AbstractOption.check_repeat deref self option st = (Ok tt, st1) →
  (∀ v, AbstractOption.convert deref self option value = Ok v →
     ∃ st', Set_callback deref self option opt value (Some a) st = (Ok tt, st') ∧
            values st' = <[a := v]> (values st) ∧ heap st' = heap st ∧
            rargs st' = rargs st ∧ use_counts st' = use_counts st1) ∧
  (∀ e, AbstractOption.convert deref self option value = Raise e →
     Set_callback deref self option opt value (Some a) st = (Raise e, st1) ∧
     values st1 = values st).
Proof.
  intros Hc. pose proof (check_repeat_frame _ _ _ _ _ _ Hc) as (Hv & Hh & Hr & _).
  unfold Set_callback, mbind, M_bind, lift. rewrite Hc. split.
  - intros v ->. eexists. split; [reflexivity|]. simpl.
    by rewrite Hv, Hh, Hr.
  - intros e ->. done.
Qed.

Lemma set_callback_spec_witness :
  Set_callback (option_at Examples.port_class.1) 0
    {| Option._short_opts := []; Option._long_opts := ["--port"];
       Option.action := Option.callback_action; Option.type := Some "string";
       Option.dest := Some "port"; Option.nargs := 1;
       Option.metavar := Some "INT"; Option.help := None;
       Option.callback := Some 0; Option.callback_args := Some "port" |}
    "--port" (RawStr "http") (Some "port") (new_scan ∅ ∅) =
  (Raise (InvocationError "--port: 'http' is not a valid INT"),
   set_use_counts (Some {[0 := 1]}) (new_scan ∅ ∅)).
Proof.
  destruct (set_callback_spec (option_at Examples.port_class.1) 0
    {| Option._short_opts := []; Option._long_opts := ["--port"];
       Option.action := Option.callback_action; Option.type := Some "string";
       Option.dest := Some "port"; Option.nargs := 1;
       Option.metavar := Some "INT"; Option.help := None;
       Option.callback := Some 0; Option.callback_args := Some "port" |}
    "--port" (RawStr "http") "port" (new_scan ∅ ∅)
    (set_use_counts (Some {[0 := 1]}) (new_scan ∅ ∅))) as [_ Hfail];
    [reflexivity|].
  destruct (Hfail (InvocationError "--port: 'http' is not a valid INT"))
    as [H _]; [reflexivity|exact H].
Defined.

(** X11: once the repeat check has passed, [Add.callback] on a target
    without the attribute raises [AttributeError] and assigns nothing;
    on an integer attribute and an integer value it assigns their sum,
    on two strings their concatenation; a string attribute and an
    integer value give a [TypeError] and the attribute stays as it
    was. *)
Theorem add_callback_spec (deref : ref → AbstractOption.t) (self : ref)
    (option : Option.t) (opt : string) (value : raw) (a : string)
    (st st1 : pstate) :
  AbstractOption.check_repeat deref self option st = (Ok tt, st1) →
  (values st !! a = None →
   ∃ msg, Add_callback deref self option opt value (Some a) st =
          (Raise (AttributeError msg), st1)) ∧
  (∀ x y, values st !! a = Some (VInt x) →
     AbstractOption.convert deref self option value = Ok (VInt y) →
     Add_callback deref self option opt value (Some a) st =
     (Ok tt, set_values (λ vals, <[a := VInt (x + y)]> vals) st1)) ∧
  (∀ s t, values st !! a = Some (VStr s) →
     AbstractOption.convert deref self option value = Ok (VStr t) →
     Add_callback deref self option opt value (Some a) st =
     (Ok tt, set_values (λ vals, <[a := VStr (s +:+ t)]> vals) st1)) ∧
  (∀ s y, values st !! a = Some (VStr s) →
     AbstractOption.convert deref self option value = Ok (VInt y) →
     ∃ msg, Add_callback deref self option opt value (Some a) st =
            (Raise (TypeError msg), st1)) ∧
  values st1 = values st.
Proof.
  intros Hc. pose proof (check_repeat_frame _ _ _ _ _ _ Hc) as (Hv & _).
  unfold Add_callback, getattr, mbind, M_bind, get, lift, raise, mret, M_ret,
    no_attribute.
  rewrite Hc. simpl. rewrite Hv. split_and!; try done.
  - intros ->. by eexists.
  - by intros x y -> ->.
  - by intros s t -> ->.
  - intros s y -> ->. by eexists.
Qed.

Lemma add_callback_spec_witness :
  Add_callback
    (λ _, {| AbstractOption.klass := KAdd;
             AbstractOption.option_names := ["-v"];
             AbstractOption.repeatable := true; AbstractOption.sortKey := 0%Z;
             AbstractOption.metavar := None; AbstractOption.help := None;
             AbstractOption.group := None;
             AbstractOption.value := Some (VInt 1);
             AbstractOption.type := None; AbstractOption.function := None;
             AbstractOption.nargs := 0; AbstractOption.sort_stable := 1 |}) 0
    {| Option._short_opts := ["-v"]; Option._long_opts := [];
       Option.action := Option.callback_action; Option.type := None;
       Option.dest := None; Option.nargs := 0;
       Option.metavar := None; Option.help := None;
       Option.callback := Some 0; Option.callback_args := Some "verbosity" |}
    "-v" RawNone (Some "verbosity") (new_scan {["verbosity" := VInt 2]} ∅) =
  (Ok tt, new_scan (<["verbosity" := VInt 3]> {["verbosity" := VInt 2]}) ∅).
Proof.
  destruct (add_callback_spec
    (λ _, {| AbstractOption.klass := KAdd;
             AbstractOption.option_names := ["-v"];
             AbstractOption.repeatable := true; AbstractOption.sortKey := 0%Z;
             AbstractOption.metavar := None; AbstractOption.help := None;
             AbstractOption.group := None;
             AbstractOption.value := Some (VInt 1);
             AbstractOption.type := None; AbstractOption.function := None;
             AbstractOption.nargs := 0; AbstractOption.sort_stable := 1 |}) 0
    {| Option._short_opts := ["-v"]; Option._long_opts := [];
       Option.action := Option.callback_action; Option.type := None;
       Option.dest := None; Option.nargs := 0;
       Option.metavar := None; Option.help := None;
       Option.callback := Some 0; Option.callback_args := Some "verbosity" |}
    "-v" RawNone "verbosity" (new_scan {["verbosity" := VInt 2]} ∅)
    (new_scan {["verbosity" := VInt 2]} ∅)) as (_ & Hint & _);
    [reflexivity|].
  apply (Hint 2%Z 1%Z); reflexivity.
Defined.

(** X12: once the repeat check has passed, [Handler.callback] calls the
    handler function with the option string used and the converted
    value; when the conversion fails the function is not called, and a
    handler without a function fails with a [TypeError] after the
    conversion. *)
Theorem handler_callback_spec (deref : ref → AbstractOption.t) (self : ref)
    (option : Option.t) (opt : string) (value : raw)
    (attrname : Datatypes.option string) (st st1 : pstate) :
  AbstractOption.check_repeat deref self option st = (Ok tt, st1) →
  (∀ v function,
     AbstractOption.convert deref self option value = Ok v →
     AbstractOption.function (deref self) = Some function →
     Handler_callback deref self option opt value attrname st =
     function opt v st1) ∧
  (∀ e, AbstractOption.convert deref self option value = Raise e →
     Handler_callback deref self option opt value attrname st = (Raise e, st1)) ∧
  (∀ v, AbstractOption.convert deref self option value = Ok v →
     AbstractOption.function (deref self) = None →
     Handler_callback deref self option opt value attrname st =
     (Raise (TypeError "'NoneType' object is not callable"), st1)).
Proof.
  intros Hc. unfold Handler_callback, mbind, M_bind, lift. rewrite Hc.
  split_and!.
  - by intros v f -> ->.
  - by intros e ->.
  - by intros v -> ->.
Qed.

Lemma handler_callback_spec_witness :
  Handler_callback
    (λ _, {| AbstractOption.klass := KHandler;
             AbstractOption.option_names := ["-z"];
             AbstractOption.repeatable := false; AbstractOption.sortKey := 0%Z;
             AbstractOption.metavar := Some "INT"; AbstractOption.help := None;
             AbstractOption.group := None; AbstractOption.value := None;
             AbstractOption.type := Some py_int;
             AbstractOption.function :=
               Some (λ opt v, modify (print opt));
             AbstractOption.nargs := 1; AbstractOption.sort_stable := 1 |}) 0
    {| Option._short_opts := ["-z"]; Option._long_opts := [];
       Option.action := Option.callback_action; Option.type := Some "string";
       Option.dest := Some "z"; Option.nargs := 1;
       Option.metavar := Some "INT"; Option.help := None;
       Option.callback := Some 0; Option.callback_args := None |}
    "-z" (RawStr "zap") None (new_scan ∅ ∅) =
  (Raise (InvocationError "-z: 'zap' is not a valid INT"),
   set_use_counts (Some {[0 := 1]}) (new_scan ∅ ∅)).
Proof.
  destruct (handler_callback_spec
    (λ _, {| AbstractOption.klass := KHandler;
             AbstractOption.option_names := ["-z"];
             AbstractOption.repeatable := false; AbstractOption.sortKey := 0%Z;
             AbstractOption.metavar := Some "INT"; AbstractOption.help := None;
             AbstractOption.group := None; AbstractOption.value := None;
             AbstractOption.type := Some py_int;
             AbstractOption.function :=
               Some (λ opt v, modify (print opt));
             AbstractOption.nargs := 1; AbstractOption.sort_stable := 1 |}) 0
    {| Option._short_opts := ["-z"]; Option._long_opts := [];
       Option.action := Option.callback_action; Option.type := Some "string";
       Option.dest := Some "z"; Option.nargs := 1;
       Option.metavar := Some "INT"; Option.help := None;
       Option.callback := Some 0; Option.callback_args := None |}
    "-z" (RawStr "zap") None (new_scan ∅ ∅)
    (set_use_counts (Some {[0 := 1]}) (new_scan ∅ ∅))) as (_ & Hfail & _);
    [reflexivity|].
  apply Hfail. reflexivity.
Defined.

(** ** The option-string tables of the synthesized parser *)

Lemma insert_all_lookup (o : Option.t) l : ∀ (m : gmap string Option.t) s,
  foldl (λ m opt, <[opt := o]> m) m l !! s =
  if bool_decide (s ∈ l) then Some o else m !! s.
Proof.
  induction l as [|x l IH]; intros m s; cbn [foldl].
  - by rewrite bool_decide_eq_false_2 by apply not_elem_of_nil.
  - rewrite IH. case_bool_decide as H1; case_bool_decide as H2; try done.
    + exfalso. apply H2. by right.
    + apply elem_of_cons in H2 as [->|?]; [|done]. apply lookup_insert_eq.
    + rewrite lookup_insert_ne; [done|]. intros ->. apply H2. by left.
Qed.

Lemma filter_nil_iff {A} (f : A → bool) l :
  List.filter f l = [] ↔ ∀ x, x ∈ l → f x = false.
Proof.
  induction l as [|a l IH]; simpl.
  - split; [|done]. intros _ x Hx. by apply elem_of_nil in Hx.
  - destruct (f a) eqn:Hfa.
    + split; [done|]. intros H. specialize (H a (ltac:(by left))). congruence.
    + rewrite IH. split.
      * intros H x Hx. apply elem_of_cons in Hx as [->|?]; [done|by apply H].
      * intros H x Hx. apply H. by right.
Qed.

Lemma check_conflict_ok p o :
  OptionParser._check_conflict p o = Ok tt ↔
  (∀ s, s ∈ Option._short_opts o → OptionParser._short_opt p !! s = None) ∧
  (∀ s, s ∈ Option._long_opts o → OptionParser._long_opt p !! s = None).
Proof.
  unfold OptionParser._check_conflict.
  destruct (List.filter _ (Option._short_opts o) ++
            List.filter _ (Option._long_opts o)) as [|c cs] eqn:Hc.
  - apply app_eq_nil in Hc as [H1 H2].
    rewrite filter_nil_iff in H1. rewrite filter_nil_iff in H2.
    split; [|done]. intros _. split; intros s Hs.
    + specialize (H1 s Hs). apply bool_decide_eq_false in H1.
      by apply eq_None_not_Some.
    + specialize (H2 s Hs). apply bool_decide_eq_false in H2.
      by apply eq_None_not_Some.
  - split; [done|]. intros [H1 H2]. exfalso.
    assert (Hin : c ∈ List.filter
                    (λ opt, bool_decide (is_Some (OptionParser._short_opt p !! opt)))
                    (Option._short_opts o) ++
                  List.filter
                    (λ opt, bool_decide (is_Some (OptionParser._long_opt p !! opt)))
                    (Option._long_opts o)).
    { rewrite Hc. by left. }
    apply elem_of_app in Hin as [Hin|Hin];
      apply list_elem_of_In, filter_In in Hin as [Hin Hb];
      apply list_elem_of_In in Hin; apply bool_decide_eq_true in Hb.
    + rewrite (H1 c Hin) in Hb. by destruct Hb.
    + rewrite (H2 c Hin) in Hb. by destruct Hb.
Qed.

Lemma enter_tables p o p' :
  OptionParser._enter p o = Ok p' →
  ((∀ s, s ∈ Option._short_opts o → OptionParser._short_opt p !! s = None) ∧
   (∀ s, s ∈ Option._long_opts o → OptionParser._long_opt p !! s = None)) ∧
  (∀ s, OptionParser._short_opt p' !! s =
        if bool_decide (s ∈ Option._short_opts o) then Some o
        else OptionParser._short_opt p !! s) ∧
  (∀ s, OptionParser._long_opt p' !! s =
        if bool_decide (s ∈ Option._long_opts o) then Some o
        else OptionParser._long_opt p !! s).
Proof.
  unfold OptionParser._enter.
  destruct (OptionParser._check_conflict p o) as [[]|] eqn:Hc; simpl; [|done].
  apply check_conflict_ok in Hc. intros [= <-]. simpl.
  split; [done|]. split; intros s; apply insert_all_lookup.
Qed.

Lemma enter_ok p o :
  (∀ s, s ∈ Option._short_opts o → OptionParser._short_opt p !! s = None) →
  (∀ s, s ∈ Option._long_opts o → OptionParser._long_opt p !! s = None) →
  ∃ p', OptionParser._enter p o = Ok p'.
Proof.
  intros H1 H2. unfold OptionParser._enter.
  rewrite (proj2 (check_conflict_ok p o)); [|done]. simpl. by eexists.
Qed.

Lemma enter_sound P p o p' :
  OptionParser._enter p o = Ok p' → P o →
  tables_sound P p → tables_sound P p'.
Proof.
  intros (_ & Hs & Hl)%enter_tables HP Hsound s o'. rewrite Hs, Hl.
  split; case_bool_decide; try apply Hsound; by intros [= <-].
Qed.

Lemma enter_complete Q p o p' :
  OptionParser._enter p o = Ok p' →
  tables_complete Q p → tables_complete (λ o', Q o' ∨ o' = o) p'.
Proof.
  intros ([Hn1 Hn2] & Hs & Hl)%enter_tables Hc o' [HQ| ->]; split; intros s Hin.
  - rewrite Hs. case_bool_decide as Ho; [|by apply Hc].
    destruct (Hc o' HQ) as [Hc1 _]. pose proof (Hn1 s Ho) as Hnone.
    by rewrite (Hc1 s Hin) in Hnone.
  - rewrite Hl. case_bool_decide as Ho; [|by apply Hc].
    destruct (Hc o' HQ) as [_ Hc2]. pose proof (Hn2 s Ho) as Hnone.
    by rewrite (Hc2 s Hin) in Hnone.
  - rewrite Hs. by rewrite bool_decide_eq_true_2.
  - rewrite Hl. by rewrite bool_decide_eq_true_2.
Qed.

Lemma tables_complete_impl (Q Q' : Option.t → Prop) p :
  (∀ o, Q' o → Q o) → tables_complete Q p → tables_complete Q' p.
Proof. intros HQ Hc o Ho. apply Hc. by apply HQ. Qed.

Lemma add_options_tables P Q popts : ∀ p p',
  add_options p popts = Ok p' →
  (Forall P popts → tables_sound P p → tables_sound P p') ∧
  (tables_complete Q p → tables_complete (λ o, Q o ∨ o ∈ popts) p').
Proof.
  revert Q. induction popts as [|o popts IH]; intros Q p p'; simpl.
  - intros [= <-]. split; [done|]. apply tables_complete_impl.
    intros o [?|Ho]; [done|]. by apply elem_of_nil in Ho.
  - unfold OptionParser.add_option.
    destruct (OptionParser._enter p o) as [q|] eqn:He; simpl; [|done].
    intros Hr.
    destruct (IH (λ o', Q o' ∨ o' = o)
                 (OptionParser.set_option_list
                    (OptionParser.option_list q ++ [o]) q) p' Hr) as [Hs Hc].
    split.
    + intros [HP Hall]%Forall_cons Hsound. apply Hs; [done|].
      by apply (enter_sound P p o q He HP).
    + intros Hcomp. eapply tables_complete_impl; [|apply Hc].
      * intros o' [?|[->|?]%elem_of_cons]; [left; by left|left; by right|by right].
      * by apply (enter_complete Q p o q He).
Qed.

Lemma group_add_options_tables P Q popts : ∀ p g p' g',
  group_add_options p g popts = Ok (p', g') →
  (Forall P popts → tables_sound P p → tables_sound P p') ∧
  (tables_complete Q p → tables_complete (λ o, Q o ∨ o ∈ popts) p').
Proof.
  revert Q. induction popts as [|o popts IH]; intros Q p g p' g'; simpl.
  - intros [= <- <-]. split; [done|]. apply tables_complete_impl.
    intros o [?|Ho]; [done|]. by apply elem_of_nil in Ho.
  - unfold OptionParser.group_add_option.
    destruct (OptionParser._enter p o) as [q|] eqn:He; simpl; [|done].
    intros Hr.
    destruct (IH (λ o', Q o' ∨ o' = o) _ _ _ _ Hr) as [Hs Hc].
    split.
    + intros [HP Hall]%Forall_cons Hsound. apply Hs; [done|].
      by apply (enter_sound P p o q He HP).
    + intros Hcomp. eapply tables_complete_impl; [|apply Hc].
      * intros o' [?|[->|?]%elem_of_cons]; [left; by left|left; by right|by right].
      * by apply (enter_complete Q p o q He).
Qed.

Lemma sort_keyed_snd_elem (l : list keyed) o :
  o ∈ (sort_keyed l).*2 ↔ ∃ kp, kp ∈ l ∧ o = kp.2.
Proof.
  rewrite (sort_keyed_perm l), list_elem_of_fmap. split.
  - intros (kp & -> & Hkp). by exists kp.
  - intros (kp & Hkp & ->). by exists kp.
Qed.

Lemma fill_tables deref_group P buckets : ∀ Q p groups p' groups',
  fill deref_group p buckets groups = Ok (p', groups') →
  ((∀ o, in_buckets buckets o → P o) → tables_sound P p → tables_sound P p') ∧
  (tables_complete Q p →
   tables_complete (λ o, Q o ∨ in_buckets buckets o) p').
Proof.
  induction buckets as [|[og optlist] buckets IH]; intros Q p groups p' groups'.
  - simpl. intros [= <- <-]. split; [done|]. apply tables_complete_impl.
    intros o [?|(b & kp & Hb & _)]; [done|]. by apply elem_of_nil in Hb.
  - assert (Hhere : ∀ o, o ∈ (sort_keyed optlist).*2 →
                         in_buckets ((og, optlist) :: buckets) o).
    { intros o (kp & Hkp & ->)%sort_keyed_snd_elem.
      exists (og, optlist), kp. split; [by left|done]. }
    assert (Hrest : ∀ o, in_buckets buckets o →
                         in_buckets ((og, optlist) :: buckets) o).
    { intros o (b & kp & Hb & Hkp & ->). exists b, kp. split; [by right|done]. }
    assert (Hsplit : ∀ o, in_buckets ((og, optlist) :: buckets) o →
                          o ∈ (sort_keyed optlist).*2 ∨ in_buckets buckets o).
    { intros o (b & kp & Hb & Hkp & ->).
      apply elem_of_cons in Hb as [->|Hb].
      - left. apply sort_keyed_snd_elem. by exists kp.
      - right. by exists b, kp. }
    simpl. destruct og as [g|].
    + unfold Group.makeGroup.
      destruct (group_add_options _ _ _) as [[q h]|] eqn:Ha; simpl; [|done].
      intros Hr.
      destruct (group_add_options_tables P Q _ _ _ _ _ Ha) as [Hs1 Hc1].
      destruct (IH (λ o, Q o ∨ o ∈ (sort_keyed optlist).*2) _ _ _ _ Hr)
        as [Hs2 Hc2].
      split.
      * intros HP Hsound. apply Hs2; [by intros o Ho; apply HP, Hrest|].
        apply Hs1; [|done]. apply Forall_forall. intros o Ho. by apply HP, Hhere.
      * intros Hcomp. eapply tables_complete_impl; [|apply Hc2, Hc1, Hcomp].
        intros o [?|Ho]; [left; by left|].
        destruct (Hsplit o Ho); [left; by right|by right].
    + destruct (add_options _ _) as [q|] eqn:Ha; simpl; [|done].
      intros Hr.
      destruct (add_options_tables P Q _ _ _ Ha) as [Hs1 Hc1].
      destruct (IH (λ o, Q o ∨ o ∈ (sort_keyed optlist).*2) _ _ _ _ Hr)
        as [Hs2 Hc2].
      split.
      * intros HP Hsound. apply Hs2; [by intros o Ho; apply HP, Hrest|].
        apply Hs1; [|done]. apply Forall_forall. intros o Ho. by apply HP, Hhere.
      * intros Hcomp. eapply tables_complete_impl; [|apply Hc2, Hc1, Hcomp].
        intros o [?|Ho]; [left; by left|].
        destruct (Hsplit o Ho); [left; by right|by right].
Qed.

Lemma add_option_groups_tables gs : ∀ p,
  OptionParser._short_opt (foldl OptionParser.add_option_group p gs) =
    OptionParser._short_opt p ∧
  OptionParser._long_opt (foldl OptionParser.add_option_group p gs) =
    OptionParser._long_opt p.
Proof.
  induction gs as [|g gs IH]; intros p; simpl; [done|].
  by destruct (IH (OptionParser.add_option_group p g)) as [-> ->].
Qed.

Section parser_tables.

Variable deref : ref → AbstractOption.t.
Variable deref_group : gref → Group.t.

Lemma bare_parser_tables kw p0 :
  bare_parser kw = Ok p0 →
  tables_sound (λ o, o ∈ OptionParser.option_list p0) p0 ∧
  tables_complete (λ o, o ∈ OptionParser.option_list p0) p0.
Proof.
  unfold bare_parser, OptionParser.__init__.
  destruct (default false (kw_add_help_option kw)).
  - destruct (Option.__init__ _ _ _ _ _ _ _ _) as [h|]; simpl; [|done].
    unfold OptionParser.add_option.
    destruct (OptionParser._enter _ h) as [q|] eqn:He; simpl; [|done].
    intros [= <-].
    assert (Hs : tables_sound (λ o, o ∈ [h]) q).
    { apply (enter_sound _ _ _ _ He); [by apply list_elem_of_singleton|].
      intros s o. simpl. by rewrite !lookup_empty. }
    assert (Hc : tables_complete (λ o, False ∨ o = h) q).
    { by apply (enter_complete (λ _, False) _ _ _ He). }
    destruct (enter_inv _ _ _ He) as (_ & Hl & _). simpl in Hl.
    unfold tables_sound, tables_complete in *.
    destruct (default false (kw_allow_interspersed_args kw)); simpl.
    all: rewrite Hl; simpl.
    all: split; [exact Hs|].
    all: intros o ->%list_elem_of_singleton; apply Hc; by right.
  - simpl. intros [= <-]. unfold tables_sound, tables_complete.
    destruct (default false (kw_allow_interspersed_args kw)); simpl.
    all: split; [intros s o; split; by rewrite lookup_empty
                |by intros o Ho%elem_of_nil].
Qed.

Lemma in_buckets_elem (bs : list (option gref * list keyed)) o :
  in_buckets bs o ↔ o ∈ (flat_map snd bs).*2.
Proof.
  clear deref deref_group.
  unfold in_buckets. rewrite list_elem_of_fmap. split.
  - intros (b & kp & Hb & Hkp & ->). exists kp. split; [done|].
    apply list_elem_of_In, in_flat_map. exists b.
    split; by apply list_elem_of_In.
  - intros (kp & -> & Hkp). apply list_elem_of_In, in_flat_map in Hkp
      as (b & Hb & Hkp). exists b, kp. split_and!; by try apply list_elem_of_In.
Qed.

Lemma make_parser_from_all_options optinfo kw p :
  make_parser_from deref deref_group optinfo kw = Ok p →
  ∃ p0 optlists,
    bare_parser kw = Ok p0 ∧
    collect deref (make_optmap optinfo) optinfo ∅ ∅ = Ok optlists ∧
    ∀ o, o ∈ OptionParser.all_options p ↔
         o ∈ OptionParser.option_list p0 ∨
         in_buckets (map_to_list optlists) o.
Proof.
  intros Hp. apply make_parser_from_inv in Hp
    as (p0 & optlists & Hb & Hc & _ & Hl & Hg).
  exists p0, optlists. split; [done|]. split; [done|].
  apply bare_parser_inv in Hb as (_ & _ & _ & Hg0 & _).
  intros o. unfold OptionParser.all_options. rewrite Hl, Hg, Hg0. simpl.
  rewrite <- (assoc (++)), elem_of_app, in_buckets_elem.
  rewrite <- (buckets_options deref_group).
  assert (Hperm : flat_map OptionGroup.option_list
            (sort_keyed (group_buckets deref_group (map_to_list optlists))).*2
          ≡ₚ flat_map OptionGroup.option_list
               (group_buckets deref_group (map_to_list optlists)).*2).
  { apply Permutation_flat_map, fmap_Permutation.
    unfold sort_keyed. apply merge_sort_Permutation. }
  by rewrite Hperm.
Qed.

Lemma make_parser_from_tables optinfo kw p :
  make_parser_from deref deref_group optinfo kw = Ok p →
  tables_sound (λ o, o ∈ OptionParser.all_options p) p ∧
  tables_complete (λ o, o ∈ OptionParser.all_options p) p.
Proof.
  intros Hp.
  destruct (make_parser_from_all_options _ _ _ Hp)
    as (p0 & optlists & Hb & Hc & Hall).
  revert Hp. unfold make_parser_from.
  pose proof Hb as Hb'. unfold bare_parser in Hb'.
  destruct (OptionParser.__init__ _ _ _ _) as [q|] eqn:Hq; simpl in *; [|done].
  injection Hb' as Hp0. rewrite Hp0, Hc. simpl.
  destruct (fill _ _ _ _) as [[p1 groups]|] eqn:Hf; simpl; [|done].
  intros [= <-].
  destruct (bare_parser_tables _ _ Hb) as [Hs0 Hc0].
  destruct (fill_tables deref_group
              (λ o, o ∈ OptionParser.option_list p0 ∨
                    in_buckets (map_to_list optlists) o)
              _ (λ o, o ∈ OptionParser.option_list p0) _ _ _ _ Hf)
    as [Hs Hcm].
  destruct (add_option_groups_tables (sort_keyed groups).*2 p1) as [E1 E2].
  split.
  - intros s o. rewrite E1, E2. setoid_rewrite Hall. apply Hs.
    + intros o' Ho'. by right.
    + intros s' o'. destruct (Hs0 s' o') as [H1 H2].
      split; intros H; [destruct (H1 H)|destruct (H2 H)]; split; auto.
  - intros o Ho%Hall. rewrite E1, E2. by apply Hcm.
Qed.

End parser_tables.

(** X13: in the parser synthesized for a registry, an option string
    leads, in the table of short or of long option strings, to an option
    exactly when that option belongs to the parser or to one of its
    groups and has the string among its short, respectively long, option
    strings.  So no two options of the parser share an option string. *)
Theorem parser_tables (deref : ref → AbstractOption.t)
    (deref_group : gref → Group.t) (optinfo : list (string * entry))
    (kw : parser_kw) (p : OptionParser.t) :
  make_parser_from deref deref_group optinfo kw = Ok p →
  (∀ s o, OptionParser._short_opt p !! s = Some o ↔
          o ∈ OptionParser.all_options p ∧ s ∈ Option._short_opts o) ∧
  (∀ s o, OptionParser._long_opt p !! s = Some o ↔
          o ∈ OptionParser.all_options p ∧ s ∈ Option._long_opts o) ∧
  (∀ s o o', o ∈ OptionParser.all_options p →
             o' ∈ OptionParser.all_options p →
             (s ∈ Option._short_opts o ∧ s ∈ Option._short_opts o') ∨
             (s ∈ Option._long_opts o ∧ s ∈ Option._long_opts o') →
             o = o').
Proof.
  intros Hp. destruct (make_parser_from_tables _ _ _ _ _ Hp) as [Hs Hc].
  assert (H1 : ∀ s o, OptionParser._short_opt p !! s = Some o ↔
          o ∈ OptionParser.all_options p ∧ s ∈ Option._short_opts o).
  { intros s o. split; [apply Hs|]. intros [Ho Hin]. by apply (Hc o Ho). }
  assert (H2 : ∀ s o, OptionParser._long_opt p !! s = Some o ↔
          o ∈ OptionParser.all_options p ∧ s ∈ Option._long_opts o).
  { intros s o. split; [apply Hs|]. intros [Ho Hin]. by apply (Hc o Ho). }
  split; [done|]. split; [done|].
  intros s o o' Ho Ho' [[Hin Hin']|[Hin Hin']].
  - pose proof (proj2 (H1 s o) (conj Ho Hin)) as E.
    pose proof (proj2 (H1 s o') (conj Ho' Hin')) as E'. congruence.
  - pose proof (proj2 (H2 s o) (conj Ho Hin)) as E.
    pose proof (proj2 (H2 s o') (conj Ho' Hin')) as E'. congruence.
Qed.

Lemma parser_tables_witness :
  ∃ p o,
    make_parser_from (option_at Examples.grouped_class.1)
      (group_at Examples.grouped_class.1)
      (OptionsRegistry.items Examples.grouped_class.2) default_kw = Ok p ∧
    OptionParser._short_opt p !! "-q" = Some o ∧
    o ∈ OptionParser.all_options p ∧ "-q" ∈ Option._short_opts o.
Proof.
  destruct (make_parser_from (option_at Examples.grouped_class.1)
              (group_at Examples.grouped_class.1)
              (OptionsRegistry.items Examples.grouped_class.2) default_kw)
    as [p|e] eqn:Hp; [|by vm_compute in Hp].
  destruct (OptionParser._short_opt p !! "-q") as [o|] eqn:Ho;
    [|revert Hp; vm_compute; intros [= <-]; by vm_compute in Ho].
  exists p, o. split; [reflexivity|]. split; [exact Ho|].
  by apply (proj1 (parser_tables _ _ _ _ p Hp)).
Defined.

Lemma bare_parser_settings kw p0 :
  bare_parser kw = Ok p0 →
  OptionParser.usage p0 = OptionParser.set_usage (default "" (kw_usage kw)) ∧
  OptionParser.description p0 = kw_description kw ∧
  if default false (kw_add_help_option kw)
  then ∃ h, OptionParser.option_list p0 = [h] ∧
            Option.action h = Option.help_action
  else OptionParser.option_list p0 = [].
Proof.
  unfold bare_parser, OptionParser.__init__.
  destruct (default false (kw_add_help_option kw)).
  - destruct (Option.__init__ _ _ _ _ _ _ _ _) as [h|] eqn:Hh; simpl; [|done].
    apply option_init_inv in Hh as (_ & _ & Hact & _).
    unfold OptionParser.add_option.
    destruct (OptionParser._enter _ h) as [q|] eqn:He; simpl; [|done].
    destruct (enter_inv _ _ _ He) as ((_ & _ & Hu & Hd & _) & Hl & _).
    simpl in *. intros [= <-].
    destruct (default false (kw_allow_interspersed_args kw)); simpl;
      rewrite Hl; (split; [done|]); (split; [done|]); by exists h.
  - simpl. intros [= <-].
    by destruct (default false (kw_allow_interspersed_args kw)).
Qed.

(** X14: the parser that [make_parser] returns has the settings that
    the keywords ask for, with the defaults of [make_parser] for those
    not passed: an empty usage string, an empty program name, no
    interspersed arguments; adding the registered options changes none
    of them.  It has an option that shows the help exactly when
    [add_help_option] was passed as true. *)
Theorem make_parser_settings (deref : ref → AbstractOption.t)
    (deref_group : gref → Group.t) (optinfo : list (string * entry))
    (kw : parser_kw) (p : OptionParser.t) :
  make_parser_from deref deref_group optinfo kw = Ok p →
  OptionParser.allow_interspersed_args p =
    default false (kw_allow_interspersed_args kw) ∧
  OptionParser.prog p = default "" (kw_prog kw) ∧
  OptionParser.usage p = OptionParser.set_usage (default "" (kw_usage kw)) ∧
  OptionParser.description p = kw_description kw ∧
  ((∃ o, o ∈ OptionParser.all_options p ∧
         Option.action o = Option.help_action) ↔
   kw_add_help_option kw = Some true).
Proof.
  intros Hp.
  destruct (make_parser_from_inv _ _ _ _ _ Hp)
    as (p0 & optlists & Hb & _ & (_ & Hg & Hu & Hd & Hi) & _).
  destruct (bare_parser_inv _ _ Hb) as (_ & Hg0 & Hi0 & _).
  destruct (bare_parser_settings _ _ Hb) as (Hu0 & Hd0 & Hh).
  split; [congruence|]. split; [congruence|]. split; [congruence|].
  split; [congruence|].
  destruct (make_parser_from_options _ _ _ _ _ Hp) as (p0' & new & Hb' & Hf & Hall).
  assert (p0' = p0) as -> by congruence.
  assert (Hnew : ∀ o, o ∈ new.*2 → Option.action o = Option.callback_action).
  { intros o ([key popt] & -> & Hin)%list_elem_of_fmap.
    destruct (Forall2_elem_of_r _ _ _ _ Hf Hin) as ([a d] & _ & Hm).
    by apply makeOption_inv in Hm as (_ & _ & _ & Hact & _). }
  split.
  - intros (o & Ho & Hact). rewrite Hall in Ho.
    apply elem_of_app in Ho as [Ho|Ho].
    + destruct (kw_add_help_option kw) as [[]|]; simpl in Hh; try done;
        rewrite Hh in Ho; by apply elem_of_nil in Ho.
    + rewrite (Hnew o Ho) in Hact. discriminate.
  - intros E. rewrite E in Hh. simpl in Hh. destruct Hh as (h0 & Hl & Hact).
    exists h0. split; [|done]. rewrite Hall, Hl. by left.
Qed.

Lemma make_parser_settings_witness :
  ∃ p, make_parser_from (option_at Examples.name_class.1)
         (group_at Examples.name_class.1)
         (OptionsRegistry.items Examples.name_class.2) default_kw = Ok p ∧
       OptionParser.allow_interspersed_args p = false ∧
       OptionParser.usage p = "".
Proof.
  destruct (make_parser_from (option_at Examples.name_class.1)
              (group_at Examples.name_class.1)
              (OptionsRegistry.items Examples.name_class.2) default_kw)
    as [p|e] eqn:Hp; [|by vm_compute in Hp].
  exists p. split; [reflexivity|].
  destruct (make_parser_settings _ _ _ _ p Hp) as (Hi & _ & Hu & _).
  split; [exact Hi|exact Hu].
Defined.

Lemma startswith_cons a p b s :
  Py.startswith (String b s) (String a p) =
  if ascii_dec a b then Py.startswith s p else false.
Proof. reflexivity. Qed.

Lemma startswith_dash_dash arg :
  Py.startswith arg "-" = false → Py.startswith arg "--" = false.
Proof.
  destruct arg as [|a arg]; [done|]. rewrite !startswith_cons.
  destruct (ascii_dec "-" a); [|done]. by destruct arg.
Qed.

(** X15: when the parser can be made and interspersed arguments are not
    asked for, [parse] stops at the first argument that is not an
    option: applied to no arguments, or to arguments of which the first
    does not begin with a dash or is a single dash, it returns all of
    them and leaves the target as it was; applied to arguments that
    begin with a double dash alone, it returns those after it. *)
Theorem parse_stops_at_positional (deref : ref → AbstractOption.t)
    (deref_group : gref → Group.t) (registry : OptionsRegistry.t)
    (kw : parser_kw) (p : OptionParser.t) (vals : gmap string pyval)
    (h : gmap loc (list pyval)) (fuel : nat) :
  make_parser deref deref_group registry kw = Ok p →
  default false (kw_allow_interspersed_args kw) = false →
  (∀ args,
     match args with
     | [] => True
     | arg :: _ => Py.startswith arg "-" = false ∨ arg = "-"
     end →
     parse deref deref_group (S fuel) registry vals h args kw =
     Some (Ok args,
           {| values := vals; heap := h; rargs := args; largs := [];
              use_counts := None; stdout := [] |})) ∧
  (∀ rest,
     parse deref deref_group (S fuel) registry vals h ("--" :: rest) kw =
     Some (Ok rest,
           {| values := vals; heap := h; rargs := rest; largs := [];
              use_counts := None; stdout := [] |})).
Proof.
  intros Hp Hkw. unfold parse. rewrite Hp.
  destruct (make_parser_from_inv _ _ _ _ _ Hp)
    as (p0 & optlists & Hb & _ & (_ & _ & _ & _ & Hi) & _).
  destruct (bare_parser_inv _ _ Hb) as (_ & _ & Hi0 & _).
  rewrite Hi0, Hkw in Hi.
  unfold OptionParser.parse_args. split.
  - intros [|arg rest] Harg; [done|]. simpl.
    destruct Harg as [Hd| ->]; [|by rewrite Hi].
    destruct (String.eqb arg "--") eqn:E.
    { apply String.eqb_eq in E as ->. by vm_compute in Hd. }
    assert (Py.startswith arg "--" = false) as ->.
    { by apply startswith_dash_dash. }
    rewrite Hd. simpl. by rewrite Hi.
  - intros rest. reflexivity.
Qed.

Lemma parse_stops_at_positional_witness :
  parse (option_at Examples.name_class.1) (group_at Examples.name_class.1)
    1 Examples.name_class.2 ∅ ∅ ["file"; "--name"; "Bob"] default_kw =
  Some (Ok ["file"; "--name"; "Bob"],
        {| values := ∅; heap := ∅; rargs := ["file"; "--name"; "Bob"];
           largs := []; use_counts := None; stdout := [] |}).
Proof.
  destruct (make_parser (option_at Examples.name_class.1)
              (group_at Examples.name_class.1) Examples.name_class.2
              default_kw) as [p|e] eqn:Hp; [|by vm_compute in Hp].
  apply (proj1 (parse_stops_at_positional _ _ _ _ p ∅ ∅ 0 Hp eq_refl)).
  by left.
Defined.

(** ** Scanning with the synthesized parser *)


Section scanning.

Variable deref : ref → AbstractOption.t.
Variable deref_group : gref → Group.t.



End scanning.



(** ** Options met on the command line *)

Lemma set_opt_strings_forms opts : ∀ short long short' long',
  Option._set_opt_strings opts short long = Ok (short', long') →
  Forall (λ s, valid_opt_string s = true ∧ String.length s = 2) short →
  Forall (λ s, valid_opt_string s = true ∧ Py.startswith s "--" = true) long →
  Forall (λ s, valid_opt_string s = true ∧ String.length s = 2) short' ∧
  Forall (λ s, valid_opt_string s = true ∧ Py.startswith s "--" = true) long'.
Proof.
  induction opts as [|opt opts IH]; intros short long short' long'; simpl.
  - by intros [= <- <-].
  - destruct opt as [|a [|b [|c s]]]; try done.
    + destruct (Ascii.eqb a "-" && negb (Ascii.eqb b "-"))%bool eqn:E; [|done].
      intros H Hs Hl. apply (IH _ _ _ _ H); [|done].
      apply Forall_app. split; [done|]. by repeat constructor.
    + destruct (Ascii.eqb a "-" && Ascii.eqb b "-" && negb (Ascii.eqb c "-"))%bool
        eqn:E; [|done].
      intros H Hs Hl. apply (IH _ _ _ _ H); [done|].
      apply Forall_app. split; [done|]. repeat constructor; [done|].
      apply andb_prop in E as [[Ea%Ascii.eqb_eq Eb%Ascii.eqb_eq]%andb_prop _].
      subst. rewrite !startswith_cons.
      by destruct (ascii_dec "-" "-").
Qed.

Lemma option_init_forms opts act ty n mv hp cb args o :
  Option.__init__ opts act ty n mv hp cb args = Ok o →
  Forall (λ s, valid_opt_string s = true ∧ String.length s = 2)
         (Option._short_opts o) ∧
  Forall (λ s, valid_opt_string s = true ∧ Py.startswith s "--" = true)
         (Option._long_opts o).
Proof.
  unfold Option.__init__.
  destruct (List.filter _ opts) as [|o1 opts1]; [done|].
  destruct (Option._set_opt_strings _ [] []) as [[short long]|] eqn:Hs;
    simpl; [|done].
  apply set_opt_strings_forms in Hs; [|done..].
  destruct act, cb; try done; by intros [= <-].
Qed.

Lemma short_not_long s :
  valid_opt_string s = true → String.length s = 2 →
  Py.startswith s "--" = false.
Proof.
  destruct s as [|a [|b [|c s]]]; try done. intros Hv _. simpl in Hv.
  rewrite !startswith_cons. destruct (ascii_dec "-" a); [|done].
  destruct (ascii_dec "-" b) as [<-|]; [|done].
  by rewrite andb_comm in Hv.
Qed.

Section options_met.

Variable deref : ref → AbstractOption.t.
Variable deref_group : gref → Group.t.

Lemma makeOption_shape d a optmap key popt :
  AbstractOption.makeOption deref d a optmap = Ok (key, popt) →
  Option.type popt =
    (if is_NOT_GIVEN (AbstractOption.type (deref d)) then None
     else Some "string") ∧
  Option.nargs popt = AbstractOption.nargs (deref d) ∧
  Forall (λ s, valid_opt_string s = true ∧ String.length s = 2)
         (Option._short_opts popt) ∧
  Forall (λ s, valid_opt_string s = true ∧ Py.startswith s "--" = true)
         (Option._long_opts popt).
Proof.
  clear deref_group. unfold AbstractOption.makeOption.
  destruct (Option.__init__ _ _ _ _ _ _ _ _) as [o|] eqn:Ho; simpl; [|done].
  intros [= <- <-].
  destruct (option_init_forms _ _ _ _ _ _ _ _ _ Ho) as [Hs Hl].
  apply option_init_inv in Ho as (_ & _ & _ & Hty & Hn & _).
  by split_and!.
Qed.

(** The option that the parser has for a registered descriptor. *)
Lemma descriptor_option registry kw p name a d :
  make_parser deref deref_group registry kw = Ok p →
  OptionsRegistry.data registry !! name = Some (a, Some d) →
  ∃ popt,
    popt ∈ OptionParser.all_options p ∧
    Option.callback popt = Some d ∧
    Option.action popt = Option.callback_action ∧
    (∃ k, OptionsRegistry.data registry !! k =
          Some (Option.callback_args popt, Some d)) ∧
    Option.type popt =
      (if is_NOT_GIVEN (AbstractOption.type (deref d)) then None
       else Some "string") ∧
    Option.nargs popt = AbstractOption.nargs (deref d) ∧
    Forall (λ s, valid_opt_string s = true ∧ String.length s = 2)
           (Option._short_opts popt) ∧
    Forall (λ s, valid_opt_string s = true ∧ Py.startswith s "--" = true)
           (Option._long_opts popt) ∧
    ∀ s, s ∈ Option.opt_strings popt ↔
         s ≠ "" ∧ s ∈ AbstractOption.option_names (deref d) ∧
         ∃ a, OptionsRegistry.data registry !! s = Some (a, Some d).
Proof.
  intros Hp Hname. unfold make_parser in Hp.
  destruct (items_permutation registry (OptionsRegistry.items registry)
              (reflexivity _)) as [Hnd Hitems].
  pose proof Hp as (p0 & new & Hb & Hf & Hall)%make_parser_from_options.
  destruct (first_seen_spec (OptionsRegistry.items registry) ∅)
    as (_ & Hfs & Hattr).
  assert (Hd : d ∈ (first_seen (OptionsRegistry.items registry) ∅).*2).
  { apply Hfs. split; [apply not_elem_of_empty|].
    exists name, a. by apply Hitems. }
  apply list_elem_of_fmap in Hd as ([a' d'] & -> & Hd).
  destruct (Forall2_elem_of_l _ _ _ _ Hf Hd) as ([key popt] & Hin & Hm).
  simpl in Hm.
  destruct (makeOption_shape _ _ _ _ _ Hm) as (Hty & Hn & Hs & Hl).
  apply (makeOption_inv deref) in Hm as (_ & Hcb & Hargs & Hact & Hnames).
  exists popt. split_and!; try done.
  - rewrite Hall. apply elem_of_app. right.
    apply list_elem_of_fmap. by exists (key, popt).
  - destruct (Hattr _ _ Hd) as [k Hk]. exists k. rewrite Hargs.
    by apply Hitems.
  - intros s. rewrite Hnames, (make_optmap_lookup _ _ _ Hnd).
    by setoid_rewrite Hitems.
Qed.

(** The entry of a registered, valid name in the tables of the
    parser. *)
Lemma descriptor_lookup registry kw p name a d :
  make_parser deref deref_group registry kw = Ok p →
  OptionsRegistry.data registry !! name = Some (a, Some d) →
  name ∈ AbstractOption.option_names (deref d) → name ≠ "" →
  ∃ popt,
    (if Py.startswith name "--"
     then OptionParser._long_opt p !! name = Some popt
     else OptionParser._short_opt p !! name = Some popt ∧
          String.length name = 2) ∧
    valid_opt_string name = true ∧
    Option.callback popt = Some d ∧
    Option.action popt = Option.callback_action ∧
    (∃ k, OptionsRegistry.data registry !! k =
          Some (Option.callback_args popt, Some d)) ∧
    Option.type popt =
      (if is_NOT_GIVEN (AbstractOption.type (deref d)) then None
       else Some "string") ∧
    Option.nargs popt = AbstractOption.nargs (deref d).
Proof.
  intros Hp Hname Hin Hne.
  destruct (descriptor_option _ _ _ _ _ _ Hp Hname)
    as (popt & Ho & Hcb & Hact & Hk & Hty & Hn & Hs & Hl & Hnames).
  destruct (make_parser_from_tables _ _ _ _ _ Hp) as [_ Hc].
  destruct (Hc popt Ho) as [Hc1 Hc2].
  exists popt.
  assert (Hopt : name ∈ Option.opt_strings popt).
  { apply Hnames. split_and!; [done..|]. by exists a. }
  apply elem_of_app in Hopt as [Hopt|Hopt].
  - rewrite Forall_forall in Hs. destruct (Hs _ Hopt) as [Hv Hlen].
    rewrite (short_not_long _ Hv Hlen). by split_and!; auto.
  - rewrite Forall_forall in Hl. destruct (Hl _ Hopt) as [Hv ->].
    by split_and!; auto.
Qed.

Lemma converts_convert d popt vs x :
  converts (deref d) vs x →
  AbstractOption.convert deref d popt
    (match vs with [v] => RawStr v | _ => RawNone end) = Ok x.
Proof.
  clear deref_group. unfold converts, AbstractOption.convert.
  destruct (AbstractOption.type (deref d)) as [ty|].
  - intros (_ & -> & v & -> & ->). done.
  - by intros [-> ->].
Qed.

Lemma process_set p popt d opt raw attr x st :
  Option.callback popt = Some d →
  Option.action popt = Option.callback_action →
  Option.callback_args popt = Some attr →
  AbstractOption.klass (deref d) = KSet →
  AbstractOption.convert deref d popt raw = Ok x →
  use_counts st = None →
  ∃ st',
    OptionParser.process (callback deref) p popt opt raw st = (Ok tt, st') ∧
    values st' = <[attr := x]> (values st) ∧ heap st' = heap st ∧
    rargs st' = rargs st ∧ largs st' = largs st.
Proof.
  clear deref_group. intros Hcb Hact Hargs Hk Hconv Hu.
  unfold OptionParser.process. rewrite Hact, Hcb, Hargs.
  unfold callback. rewrite Hk. unfold Set_callback.
  unfold AbstractOption.check_repeat.
  destruct (AbstractOption.repeatable (deref d)).
  - unfold mbind, M_bind, mret, M_ret, lift. rewrite Hconv.
    unfold setattr, modify. by eexists.
  - unfold mbind, M_bind, mret, M_ret, lift, get, modify. rewrite Hu.
    cbn [default]. rewrite lookup_empty. cbn [default Nat.add Nat.ltb Nat.leb].
    rewrite Hconv. unfold setattr, modify. by eexists.
Qed.

Lemma take_value_one p popt opt v rest st :
  Option.nargs popt = 1 → rargs st = v :: rest →
  OptionParser.take_value p popt opt st =
  (Ok (RawStr v), set_rargs (λ _, rest) st).
Proof.
  intros Hn Hr. unfold OptionParser.take_value.
  unfold mbind, M_bind, get, modify, mret, M_ret. rewrite Hn, Hr. done.
Qed.

Lemma long_opt_step p popt d name attr vs x rest st :
  OptionParser._long_opt p !! name = Some popt →
  Py.has_char "=" name = false →
  Option.callback popt = Some d →
  Option.action popt = Option.callback_action →
  Option.callback_args popt = Some attr →
  Option.type popt =
    (if is_NOT_GIVEN (AbstractOption.type (deref d)) then None
     else Some "string") →
  Option.nargs popt = AbstractOption.nargs (deref d) →
  AbstractOption.klass (deref d) = KSet →
  converts (deref d) vs x →
  use_counts st = None →
  rargs st = name :: vs ++ rest →
  ∃ st',
    OptionParser._process_long_opt (callback deref) p st = (Ok tt, st') ∧
    values st' = <[attr := x]> (values st) ∧ heap st' = heap st ∧
    rargs st' = rest ∧ largs st' = largs st.
Proof.
  clear deref_group.
  intros Hlook Heq Hcb Hact Hargs Hty Hn Hk Hconv Hu Hr.
  pose proof (converts_convert d popt vs x Hconv) as Hc.
  unfold OptionParser._process_long_opt.
  unfold mbind at 1, M_bind at 1, get at 1. rewrite Hr.
  unfold mbind at 1, M_bind at 1, modify at 1.
  rewrite Heq.
  unfold mbind at 1, M_bind at 1, mret at 1, M_ret at 1.
  unfold mbind at 1, M_bind at 1, lift at 1.
  unfold OptionParser._match_abbrev.
  rewrite bool_decide_eq_true_2 by by eexists.
  rewrite Hlook. unfold Option.takes_value. rewrite Hty.
  unfold converts in Hconv.
  destruct (AbstractOption.type (deref d)) as [ty|]; cbn [is_NOT_GIVEN].
  - destruct Hconv as (Hn1 & _ & v & -> & _).
    unfold mbind at 1, M_bind at 1.
    rewrite (take_value_one _ _ _ v rest); [|congruence|done].
    destruct (process_set p popt d name (RawStr v) attr x
                (set_rargs (λ _, rest) (set_rargs (λ _, [v] ++ rest) st))
                Hcb Hact Hargs Hk Hc Hu)
      as (st' & -> & Hv & Hh & Hr' & Hl).
    by exists st'.
  - destruct Hconv as [-> _].
    unfold mbind at 1, M_bind at 1, mret at 1, M_ret at 1.
    destruct (process_set p popt d name RawNone attr x
                (set_rargs (λ _, [] ++ rest) st)
                Hcb Hact Hargs Hk Hc Hu)
      as (st' & -> & Hv & Hh & Hr' & Hl).
    by exists st'.
Qed.

Lemma short_opt_step p popt d name attr vs x rest st :
  OptionParser._short_opt p !! name = Some popt →
  valid_opt_string name = true → String.length name = 2 →
  Option.callback popt = Some d →
  Option.action popt = Option.callback_action →
  Option.callback_args popt = Some attr →
  Option.type popt =
    (if is_NOT_GIVEN (AbstractOption.type (deref d)) then None
     else Some "string") →
  Option.nargs popt = AbstractOption.nargs (deref d) →
  AbstractOption.klass (deref d) = KSet →
  converts (deref d) vs x →
  use_counts st = None →
  rargs st = name :: vs ++ rest →
  ∃ st',
    OptionParser._process_short_opts (callback deref) p st = (Ok tt, st') ∧
    values st' = <[attr := x]> (values st) ∧ heap st' = heap st ∧
    rargs st' = rest ∧ largs st' = largs st.
Proof.
  clear deref_group.
  intros Hlook Hv Hlen Hcb Hact Hargs Hty Hn Hk Hconv Hu Hr.
  pose proof (converts_convert d popt vs x Hconv) as Hc.
  destruct name as [|a [|b [|c name]]]; try done.
  simpl in Hv. apply andb_prop in Hv as [->%Ascii.eqb_eq _].
  unfold OptionParser._process_short_opts.
  unfold mbind at 1, M_bind at 1, get at 1. rewrite Hr.
  unfold mbind at 1, M_bind at 1, modify at 1.
  cbn [Py.drop OptionParser.short_opts_loop].
  rewrite Hlook. unfold Option.takes_value. rewrite Hty.
  unfold converts in Hconv.
  destruct (AbstractOption.type (deref d)) as [ty|]; cbn [is_NOT_GIVEN].
  - destruct Hconv as (Hn1 & _ & v & -> & _).
    cbn [String.length Nat.ltb Nat.leb].
    unfold mbind at 1, M_bind at 1, mret at 1, M_ret at 1.
    unfold mbind at 1, M_bind at 1.
    rewrite (take_value_one _ _ _ v rest); [|congruence|done].
    unfold mbind at 1, M_bind at 1.
    destruct (process_set p popt d (String "-" (String b "")) (RawStr v)
                attr x
                (set_rargs (λ _, rest) (set_rargs (λ _, [v] ++ rest) st))
                Hcb Hact Hargs Hk Hc Hu)
      as (st' & -> & Hv & Hh & Hr' & Hl).
    by exists st'.
  - destruct Hconv as [-> _].
    unfold mbind at 1, M_bind at 1.
    destruct (process_set p popt d (String "-" (String b "")) RawNone attr x
                (set_rargs (λ _, [] ++ rest) st)
                Hcb Hact Hargs Hk Hc Hu)
      as (st' & -> & Hv & Hh & Hr' & Hl).
    by exists st'.
Qed.

Lemma process_args_stops invoke p fuel st :
  OptionParser.allow_interspersed_args p = false →
  stops_scan (rargs st) →
  OptionParser._process_args invoke p (S fuel) st = Some (Ok tt, st).
Proof.
  clear deref deref_group.
  intros Hi Hs. simpl. destruct (rargs st) as [|arg rest]; [done|].
  destruct Hs as [Hd| ->]; [|by rewrite Hi].
  destruct (String.eqb arg "--") eqn:E.
  { apply String.eqb_eq in E as ->. by vm_compute in Hd. }
  rewrite (startswith_dash_dash _ Hd), Hd. simpl. by rewrite Hi.
Qed.

Lemma process_args_long invoke p fuel st arg rest st' :
  rargs st = arg :: rest → arg ≠ "--" → Py.startswith arg "--" = true →
  OptionParser._process_long_opt invoke p st = (Ok tt, st') →
  OptionParser._process_args invoke p (S fuel) st =
  OptionParser._process_args invoke p fuel st'.
Proof.
  clear deref deref_group.
  intros Hr Hne%String.eqb_neq Hdd Hstep. cbn [OptionParser._process_args].
  by rewrite Hr, Hne, Hdd, Hstep.
Qed.

Lemma process_args_short invoke p fuel st arg rest st' :
  rargs st = arg :: rest → arg ≠ "--" → Py.startswith arg "--" = false →
  Py.startswith arg "-" = true → 1 < String.length arg →
  OptionParser._process_short_opts invoke p st = (Ok tt, st') →
  OptionParser._process_args invoke p (S fuel) st =
  OptionParser._process_args invoke p fuel st'.
Proof.
  clear deref deref_group.
  intros Hr Hne%String.eqb_neq Hdd Hd Hlen%Nat.ltb_lt Hstep.
  cbn [OptionParser._process_args].
  by rewrite Hr, Hne, Hdd, Hd, Hlen, Hstep.
Qed.

End options_met.

(** X17: parsing one [Set] option.  Assume that the parser can be made
    for the registry and that interspersed arguments are not asked for.
    Let a name that is not empty and contains no equals sign stand in
    the registry for an attribute name and a descriptor of class [Set]
    that declares the name, and let every name under which the registry
    has this descriptor carry that same attribute name.  Let the
    arguments be the name, followed by the one argument that the type of
    the descriptor converts (or by none when the descriptor has a
    constant value and no type), followed by arguments at which the scan
    stops: none, or a first one that does not begin with a dash or is a
    single dash.  Then [parse], with a bound of at least two turns on
    the scan, returns those last arguments and leaves the attribute
    equal to the converted argument (or the constant), all other
    attributes and all list objects being as before. *)
Theorem parse_set_option (deref : ref → AbstractOption.t)
    (deref_group : gref → Group.t) (registry : OptionsRegistry.t)
    (kw : parser_kw) (p : OptionParser.t) (vals : gmap string pyval)
    (h : gmap loc (list pyval)) (fuel : nat) (name attr : string)
    (d : ref) (vs rest : list string) (x : pyval) :
  make_parser deref deref_group registry kw = Ok p →
  default false (kw_allow_interspersed_args kw) = false →
  OptionsRegistry.data registry !! name = Some (Some attr, Some d) →
  (∀ k a, OptionsRegistry.data registry !! k = Some (a, Some d) →
          a = Some attr) →
  name ∈ AbstractOption.option_names (deref d) →
  name ≠ "" → Py.has_char "=" name = false →
  AbstractOption.klass (deref d) = KSet →
  converts (deref d) vs x →
  stops_scan rest →
  ∃ st,
    parse deref deref_group (2 + fuel) registry vals h
      (name :: vs ++ rest) kw = Some (Ok rest, st) ∧
    values st = <[attr := x]> vals ∧ heap st = h.
Proof.
  intros Hp Hkw Hname Hattr Hin Hne Heq Hk Hconv Hstop.
  destruct (descriptor_lookup deref deref_group _ _ _ _ _ _ Hp Hname Hin Hne)
    as (popt & Hlook & Hv & Hcb & Hact & (k & Hargs) & Hty & Hn).
  assert (Hargs' : Option.callback_args popt = Some attr).
  { by apply (Hattr k). }
  destruct (make_parser_from_inv _ _ _ _ _ Hp)
    as (p0 & optlists & Hb & _ & (_ & _ & _ & _ & Hi) & _).
  destruct (bare_parser_inv _ _ Hb) as (_ & _ & Hi0 & _).
  rewrite Hi0, Hkw in Hi.
  unfold parse. rewrite Hp. unfold OptionParser.parse_args.
  set (st0 := set_largs (λ _, []) (set_rargs (λ _, name :: vs ++ rest)
                                      (new_scan vals h))).
  assert (Hne2 : name ≠ "--") by by intros ->.
  change (2 + fuel) with (S (S fuel)).
  destruct (Py.startswith name "--") eqn:Hdd.
  - destruct (long_opt_step deref p popt d name attr vs x rest st0
                Hlook Heq Hcb Hact Hargs' Hty Hn Hk Hconv eq_refl eq_refl)
      as (st' & Hstep & Hvals & Hheap & Hr & Hl).
    rewrite (process_args_long _ _ _ st0 name (vs ++ rest) st' eq_refl
               Hne2 Hdd Hstep).
    rewrite process_args_stops; [|done|by rewrite Hr].
    exists st'. rewrite Hl, Hr. by split_and!.
  - destruct Hlook as [Hlook Hlen].
    assert (Hd : Py.startswith name "-" = true).
    { destruct name as [|a name]; [done|]. simpl in Hv.
      destruct name as [|b [|c name]]; try done.
      apply andb_prop in Hv as [->%Ascii.eqb_eq _].
      rewrite startswith_cons. by destruct (ascii_dec "-" "-"). }
    destruct (short_opt_step deref p popt d name attr vs x rest st0
                Hlook Hv Hlen Hcb Hact Hargs' Hty Hn Hk Hconv eq_refl eq_refl)
      as (st' & Hstep & Hvals & Hheap & Hr & Hl).
    rewrite (process_args_short _ _ _ st0 name (vs ++ rest) st' eq_refl
               Hne2 Hdd Hd ltac:(lia) Hstep).
    rewrite process_args_stops; [|done|by rewrite Hr].
    exists st'. rewrite Hl, Hr. by split_and!.
Qed.

Lemma parse_set_option_witness :
  ∃ st,
    parse (option_at Examples.port_class.1) (group_at Examples.port_class.1)
      2 Examples.port_class.2 ∅ ∅ ["--port"; "8080"; "file"] default_kw =
    Some (Ok ["file"], st) ∧
    values st = <["port" := VInt 8080]> ∅ ∧ heap st = ∅.
Proof.
  destruct (make_parser (option_at Examples.port_class.1)
              (group_at Examples.port_class.1) Examples.port_class.2
              default_kw) as [p|e] eqn:Hp; [|by vm_compute in Hp].
  apply (parse_set_option _ _ _ _ p ∅ ∅ 0 "--port" "port" 0 ["8080"]
           ["file"] (VInt 8080) Hp eq_refl).
  - reflexivity.
  - intros k a H%elem_of_map_to_list. vm_compute in H.
    apply list_elem_of_singleton in H. by injection H as _ <-.
  - vm_compute. by left.
  - discriminate.
  - reflexivity.
  - reflexivity.
  - assert (E : AbstractOption.type (option_at Examples.port_class.1 0) =
                Some py_int) by reflexivity.
    unfold converts. rewrite E.
    split; [reflexivity|]. split; [reflexivity|].
    exists "8080". split; reflexivity.
  - by left.
Defined.

(** ** The help text, invalid names and handler methods *)




Lemma set_opt_strings_raise opts : ∀ short long e,
  Option._set_opt_strings opts short long = Raise e → ∃ msg, e = OptionError msg.
Proof.
  induction opts as [|opt opts IH]; intros short long e; simpl; [done|].
  destruct opt as [|a [|b [|c s]]]; try (intros [= <-]; by eexists).
  - destruct (Ascii.eqb a "-" && negb (Ascii.eqb b "-"))%bool;
      [apply IH|intros [= <-]; by eexists].
  - destruct (Ascii.eqb a "-" && Ascii.eqb b "-" && negb (Ascii.eqb c "-"))%bool;
      [apply IH|intros [= <-]; by eexists].
Qed.

Lemma option_init_raise opts ty n mv hp d args e :
  Option.__init__ opts Option.callback_action ty n mv hp (Some d) args
    = Raise e →
  ∃ msg, e = OptionError msg ∨ e = TypeError msg.
Proof.
  unfold Option.__init__.
  destruct (List.filter _ opts) as [|o1 opts1].
  { intros [= <-]. eexists. by right. }
  destruct (Option._set_opt_strings _ [] []) as [[short long]|e'] eqn:Hs;
    simpl; [done|].
  intros [= <-]. apply set_opt_strings_raise in Hs as [msg ->].
  exists msg. by left.
Qed.

Section invalid_names.

Variable deref : ref → AbstractOption.t.
Variable deref_group : gref → Group.t.

Lemma collect_raise optmap optinfo : ∀ used lists e,
  collect deref optmap optinfo used lists = Raise e →
  ∃ msg, e = OptionError msg ∨ e = TypeError msg.
Proof.
  clear deref_group.
  induction optinfo as [|[k [a [o|]]] optinfo IH]; intros used lists e; simpl;
    [done| |apply IH].
  case_bool_decide; [apply IH|].
  unfold AbstractOption.makeOption.
  destruct (Option.__init__ _ _ _ _ _ _ _ _) as [popt|e'] eqn:Ho; simpl.
  - apply IH.
  - intros [= <-]. by apply option_init_raise in Ho.
Qed.

Lemma collect_ok_valid registry lists name a d :
  collect deref (make_optmap (OptionsRegistry.items registry))
    (OptionsRegistry.items registry) ∅ ∅ = Ok lists →
  OptionsRegistry.data registry !! name = Some (a, Some d) →
  name ∈ AbstractOption.option_names (deref d) → name ≠ "" →
  valid_opt_string name = true.
Proof.
  clear deref_group. intros Hc Hname Hin Hne.
  destruct (items_permutation registry (OptionsRegistry.items registry)
              (reflexivity _)) as [Hnd Hitems].
  apply collect_made in Hc as [(new & Hf & _) _].
  destruct (first_seen_spec (OptionsRegistry.items registry) ∅)
    as (_ & Hfs & _).
  assert (Hd : d ∈ (first_seen (OptionsRegistry.items registry) ∅).*2).
  { apply Hfs. split; [apply not_elem_of_empty|].
    exists name, a. by apply Hitems. }
  apply list_elem_of_fmap in Hd as ([a' d'] & -> & Hd).
  destruct (Forall2_elem_of_l _ _ _ _ Hf Hd) as ([key popt] & _ & Hm).
  simpl in Hm.
  destruct (makeOption_shape _ _ _ _ _ _ Hm) as (_ & _ & Hs & Hl).
  apply (makeOption_inv deref) in Hm as (_ & _ & _ & _ & Hnames).
  assert (Hopt : name ∈ Option.opt_strings popt).
  { apply Hnames. split_and!; [done..|].
    apply (make_optmap_lookup _ _ _ Hnd). exists a. by apply Hitems. }
  apply elem_of_app in Hopt as [Hopt|Hopt].
  - rewrite Forall_forall in Hs. by destruct (Hs _ Hopt).
  - rewrite Forall_forall in Hl. by destruct (Hl _ Hopt).
Qed.

Lemma bare_parser_ok kw : ∃ p0, bare_parser kw = Ok p0.
Proof.
  unfold bare_parser, OptionParser.__init__.
  destruct (default false (kw_add_help_option kw)); [|by eexists].
  assert (∃ h, Option.__init__ ["-h"; "--help"] Option.help_action None 0
                 None (Some "show this help message and exit") None None
               = Ok h) as [h ->] by by eexists.
  unfold OptionParser.add_option. simpl.
  edestruct enter_ok as [q ->]; [| |by eexists]; intros s _; apply lookup_empty.
Qed.

End invalid_names.

(** X19: when the registry of a class has a descriptor under a name
    that is not empty, that the descriptor declares and that is not of
    the form the parser takes, which is a dash with one other character
    or two dashes followed by a character that is no dash, then
    [make_parser] fails with an [OptionError] or a [TypeError], whatever
    the keywords. *)
Theorem make_parser_invalid_name (deref : ref → AbstractOption.t)
    (deref_group : gref → Group.t) (registry : OptionsRegistry.t)
    (kw : parser_kw) (name : string) (a : option string) (d : ref) :
  OptionsRegistry.data registry !! name = Some (a, Some d) →
  name ∈ AbstractOption.option_names (deref d) → name ≠ "" →
  valid_opt_string name = false →
  ∃ msg,
    make_parser deref deref_group registry kw = Raise (OptionError msg) ∨
    make_parser deref deref_group registry kw = Raise (TypeError msg).
Proof.
  intros Hname Hin Hne Hv.
  destruct (bare_parser_ok kw) as [p0 Hb]. unfold bare_parser in Hb.
  unfold make_parser, make_parser_from.
  destruct (OptionParser.__init__ _ _ _ _) as [q|]; [|done]. simpl.
  destruct (collect _ _ _ _ _) as [lists|e] eqn:Hc.
  - rewrite (collect_ok_valid _ _ _ _ _ _ Hc Hname Hin Hne) in Hv. done.
  - simpl. apply collect_raise in Hc as [msg [-> | ->]]; exists msg; auto.
Qed.

Lemma make_parser_invalid_name_witness :
  ∃ σ r msg,
    Examples.one_option KSet "-ab" "x" (Examples.valued (VBool true))
      = Ok (σ, r) ∧
    (make_parser (option_at σ) (group_at σ) r default_kw
       = Raise (OptionError msg) ∨
     make_parser (option_at σ) (group_at σ) r default_kw
       = Raise (TypeError msg)).
Proof.
  destruct (Examples.one_option KSet "-ab" "x" (Examples.valued (VBool true)))
    as [[σ r]|e] eqn:H1; [|by vm_compute in H1].
  destruct (make_parser_invalid_name (option_at σ) (group_at σ) r default_kw
              "-ab" (Some "x") 0) as [msg Hm].
  - revert H1. vm_compute. by intros [= <- <-].
  - revert H1. vm_compute. intros [= <- <-]. by left.
  - discriminate.
  - reflexivity.
  - by exists σ, r, msg.
Defined.

(** ** Handler methods *)

Lemma init_function k names kw c o c' :
  AbstractOption.__init__ k names kw c = Ok (o, c') →
  AbstractOption.function o = kw_function kw ∧
  AbstractOption.value o = kw_value kw ∧
  AbstractOption.type o = kw_type kw ∧
  AbstractOption.help o = kw_help kw ∧
  AbstractOption.group o = kw_group kw ∧
  AbstractOption.sortKey o = default 0%Z (kw_sortKey kw).
Proof.
  unfold AbstractOption.__init__.
  destruct (AbstractOption.bad_keyword k kw); [done|].
  destruct names as [|n names]; [done|].
  destruct (List.find _ _); [done|].
  destruct (Bool.eqb _ _); [done|].
  destruct (kw_type kw) as [ty|], (kw_metavar kw) as [m|];
    simpl; try done; try destruct (tp_name ty); simpl; try done;
    by intros [= <- <-].
Qed.

Lemma new_option_inv k names kw σ r σ' :
  new_option k names kw σ = Ok (r, σ') →
  ∃ o, AbstractOption.__init__ k names kw (_optcount σ) = Ok (o, _optcount σ') ∧
       r = List.length (options σ) ∧
       options σ' = options σ ++ [o] ∧ groups σ' = groups σ ∧
       option_at σ' r = o ∧
       ∀ i, i < List.length (options σ) → option_at σ' i = option_at σ i.
Proof.
  unfold new_option.
  destruct (AbstractOption.__init__ _ _ _ _) as [[o c]|]; simpl; [|done].
  intros [= <- <-]. exists o. simpl. split_and!; try done.
  - unfold option_at. simpl. by rewrite app_nth2, Nat.sub_diag by lia.
  - intros i Hi. unfold option_at. simpl. by rewrite app_nth1.
Qed.

(** X20: whenever [option_handler], with given option names and
    keywords, applied to a method succeeds, the keywords carried no
    [function] of their own, and a [Handler] descriptor was constructed
    with those names, the method as its function, and the value and
    type of the keywords; it is not repeatable unless the keyword
    [repeatable] says so.  It was placed after the descriptors that
    existed, which are unchanged, and the registry now has it, with no
    attribute name, under each of its names, every other name and the
    flag of the registry being as before. *)
Theorem option_handler_spec (option_names : list string) (kw : kwargs)
    (func : handler_fn) (σ σ' : store) (r r' : OptionsRegistry.t) (h : ref) :
  option_handler option_names kw func σ r = Ok (h, σ', r') →
  kw_function kw = None ∧
  h = List.length (options σ) ∧
  AbstractOption.klass (option_at σ' h) = KHandler ∧
  AbstractOption.function (option_at σ' h) = Some func ∧
  AbstractOption.option_names (option_at σ' h) = option_names ∧
  AbstractOption.repeatable (option_at σ' h) =
    default false (kw_repeatable kw) ∧
  AbstractOption.value (option_at σ' h) = kw_value kw ∧
  AbstractOption.type (option_at σ' h) = kw_type kw ∧
  (∀ i, i < List.length (options σ) → option_at σ' i = option_at σ i) ∧
  (∀ n, n ∈ option_names →
        OptionsRegistry.data r' !! n = Some (None, Some h)) ∧
  (∀ n, n ∉ option_names →
        OptionsRegistry.data r' !! n = OptionsRegistry.data r !! n) ∧
  OptionsRegistry.reject_all_inheritance r' =
    OptionsRegistry.reject_all_inheritance r.
Proof.
  unfold option_handler.
  destruct (kw_function kw); [done|].
  destruct (new_option _ _ _ _) as [[h0 σ0]|] eqn:Hn; simpl; [|done].
  destruct (AbstractOption.register _ _ _ _) as [r0|] eqn:Hr; simpl; [|done].
  intros [= <- <- <-].
  apply new_option_inv in Hn as (o & Hi & Hh & _ & _ & Hat & Hold).
  destruct (init_ok_inv _ _ _ _ _ _ Hi) as (Hk & Hnames & _ & _ & _ & _ & Hrep & _).
  destruct (init_function _ _ _ _ _ _ Hi) as (Hf & Hv & Ht & _).
  unfold AbstractOption.register in Hr. rewrite Hat, Hnames in Hr.
  apply set_all_inv in Hr as (Hin & Hout & Hflag).
  rewrite Hat. by split_and!.
Qed.

Lemma option_handler_spec_witness :
  ∃ σ' r',
    option_handler ["-z"] (Examples.typed py_int) (λ _ _, mret tt)
      empty_store OptionsRegistry.empty = Ok (0, σ', r') ∧
    AbstractOption.klass (option_at σ' 0) = KHandler ∧
    OptionsRegistry.data r' !! "-z" = Some (None, Some 0).
Proof.
  destruct (option_handler ["-z"] (Examples.typed py_int) (λ _ _, mret tt)
              empty_store OptionsRegistry.empty) as [[[h σ'] r']|e] eqn:H1;
    [|by vm_compute in H1].
  destruct (option_handler_spec _ _ _ _ _ _ _ _ H1)
    as (_ & Hh & Hk & _ & _ & _ & _ & _ & _ & Hin & _).
  simpl in Hh. subst h. exists σ', r'. split; [reflexivity|].
  split; [exact Hk|]. apply Hin. by left.
Defined.

(** ** When the parser can be made *)







Section parser_made.

Variable deref : ref → AbstractOption.t.
Variable deref_group : gref → Group.t.



End parser_made.









